(** * rbiips: weighted statistics entry points and data-table marshalling

    A shallow embedding of [src/wtd_stat.cpp] and of the data-table part of
    [src/rbiips_utils.cpp].

    - [StdMap] models [std::map] as a key-sorted association list.
    - [WtdStat] models the nine [wtd_*] entry points.  They are computations
      in a small monad that records every [Push] invoked on an accumulator
      and ends in a value, a thrown exception or undefined behaviour.  They
      are written against three classes that list the members of the
      accumulators the file calls.  Scalars are exact rationals ([Qc]).
    - [Engine] gives the three accumulators.  Their code
      ([common/Accumulator.hpp] of the Biips core) is not part of the
      sources; they are modelled from the specification.
    - [RbiipsUtils] models the process-wide flags, [writeDataTable] and
      [readDataTable]; there a [double] is an IEEE-754 value ([spec_float])
      because the code compares against the NaN [NA_REAL].
    - [Process] runs the entry points as calls in a process holding the
      flags.
    - [Marshal] models [arrayToVector] and [getMonitors] of
      [src/rbiips_utils.cpp]; what R and the Biips core do on their side is
      a parameter.

    Part II states and proves the properties: those of the entry points for
    arbitrary accumulator classes, those of the statistics for the modelled
    accumulators.  Part III follows the pushes of the entry points, the
    statistics [wtd_stat] returns and the flags as the data table reads
    them, and adds properties of the entry points, of the data table and of
    the monitors that hold whatever the accumulators, R and the Biips core
    do. *)

From Stdlib Require Import String Ascii Bool Arith ZArith Lia List.
From Stdlib Require Import QArith Qcanon Field Lqa.
From Stdlib Require Import Permutation Sorted.
From Stdlib Require Import SpecFloat.
From Stdlib Require OrderedTypeEx.
Import ListNotations.

Set Implicit Arguments.

(* ================================================================== *)
(** * Part I: the model                                                *)
(* ================================================================== *)

(** ** [std::map]: association lists kept sorted by key *)

Module StdMap.
Section Defs.
Context {K V : Type}.
Variable ltb : K -> K -> bool.

Definition t := list (K * V).

Definition empty : t := [].

Fixpoint find (k : K) (m : t) : option V :=
  match m with
  | [] => None
  | (k', v) :: m' =>
      if ltb k k' then None
      else if ltb k' k then find k m'
      else Some v
  end.

(** [m[k] = f (old binding)]: covers both [m[k] = v] and [m[k] += w]. *)
Fixpoint upsert (k : K) (f : option V -> V) (m : t) : t :=
  match m with
  | [] => [(k, f None)]
  | (k', v') :: m' =>
      if ltb k k' then (k, f None) :: m
      else if ltb k' k then (k', v') :: upsert k f m'
      else (k', f (Some v')) :: m'
  end.

Definition assign (k : K) (v : V) (m : t) : t := upsert k (fun _ => v) m.

Definition keys (m : t) : list K := map fst m.
Definition elems (m : t) : list V := map snd m.
End Defs.
End StdMap.

(** ** [wtd_stat.cpp] *)

Module WtdStat.

Local Open Scope Qc_scope.

(** [typedef double Scalar], read as an exact rational. *)
Abbreviation Scalar := Qc (only parsing).

Definition real (n : Z) (d : positive) : Scalar := Q2Qc (n # d).

Definition Qcltb (x y : Scalar) : bool := negb (Qle_bool y x).
Definition Qcleb (x y : Scalar) : bool := Qle_bool x y.
Definition Qceqb (x y : Scalar) : bool := Qeq_bool x y.

(** *** Exceptions, outcomes and the trace of [Push] calls *)

Inductive Error :=
| LogicError (what : string)   (* Biips::LogicError, thrown by this file *)
| InvalidArgument              (* raised by the accumulators *)
| DegenerateInput.             (* raised by the accumulators *)

(** The one exception [wtd_stat.cpp] throws itself. *)
Definition LengthMismatch : Error :=
  LogicError "values and weights must have same length.".

Inductive outcome (A : Type) :=
| Ret (a : A)
| Throw (e : Error)
| Undefined.                   (* out-of-bounds access *)
Arguments Ret {A} a.
Arguments Throw {A} e.
Arguments Undefined {A}.

(** An observation: a value and its weight. *)
Abbreviation Obs := (Scalar * Scalar)%type (only parsing).

(** A computation: the [Push] calls it invoked, in order, and how it ended. *)
Definition M (A : Type) := (list Obs * outcome A)%type.

Definition pushes {A} (m : M A) : list Obs := fst m.
Definition result {A} (m : M A) : outcome A := snd m.

Definition ret {A} (a : A) : M A := ([], Ret a).
Definition throw {A} (e : Error) : M A := ([], Throw e).
Definition undefined {A} : M A := ([], Undefined).
Definition lift {A} (o : outcome A) : M A := ([], o).

Definition bind {A B} (m : M A) (f : A -> M B) : M B :=
  match m with
  | (t, Ret a) => let (t', r) := f a in (t ++ t', r)
  | (t, Throw e) => (t, Throw e)
  | (t, Undefined) => (t, Undefined)
  end.

Notation "x <- m ;; k" := (bind m (fun x => k))
  (at level 61, m at next level, right associativity).

(** One call [accu.Push(x, w)], recorded in the trace. *)
Definition call_Push {A} (push : Scalar -> Scalar -> A -> outcome A)
    (x w : Scalar) (accu : A) : M A :=
  ([(x, w)], push x w accu).

(** [for (i = 0; i < values_vec.size(); ++i) accu.Push(values_vec[i], weights_vec[i]);]
    run on the paired sequences. *)
Fixpoint push_all {A} (push : Scalar -> Scalar -> A -> outcome A)
    (obs : list Obs) (accu : A) : M A :=
  match obs with
  | [] => ret accu
  | (x, w) :: rest =>
      accu' <- call_Push push x w accu ;;
      push_all push rest accu'
  end.

(** The half-open range [[arr, arr + n)] of a C array: dereferencing past the
    end of [arr] yields [None]. *)
Definition range {A} (arr : list A) (n : nat) : list (option A) :=
  map (nth_error arr) (seq 0 n).

(** [vec[i] = x] on a vector without bounds check. *)
Definition store {A} (vec : list A) (i : nat) (x : A) : M (list A) :=
  if i <? length vec
  then ret (firstn i vec ++ x :: skipn (S i) vec)
  else undefined.

Fixpoint mapM {A B} (f : A -> M B) (l : list A) : M (list B) :=
  match l with
  | [] => ret []
  | a :: l' => b <- f a ;; bs <- mapM f l' ;; ret (b :: bs)
  end.

(** Build a vector from a range, [Vector(first, last)]. *)
Fixpoint deref_all {A} (r : list (option A)) : M (list A) :=
  match r with
  | [] => ret []
  | Some a :: r' => l <- deref_all r' ;; ret (a :: l)
  | None :: _ => undefined
  end.

(** *** R values returned to the caller *)

(** An R character vector is either given by string literals or obtained by
    coercing a numeric vector ([Rcpp::CharacterVector(vec)]); R's number
    formatting is left uninterpreted. *)
Inductive CharacterVector :=
| Strings (l : list string)
| AsCharacter (l : list Scalar).

Record NumericVector := {
  values : list Scalar;
  names_attr : option CharacterVector;
  class_attr : option string
}.

(** [Rcpp::wrap(double)]: a length-one numeric vector without attributes. *)
Definition wrap (x : Scalar) : NumericVector :=
  {| values := [x]; names_attr := None; class_attr := None |}.

(** *** The accumulator classes, as this file uses them

    [common/Accumulator.hpp] of the Biips core is not in the sources.  The
    entry points are written against the three classes below; each class
    lists the members this file calls. *)

Inductive StatTag := MEAN | VARIANCE | SKEWNESS | KURTOSIS.

Class AccumulatorClass := {
  Accumulator : Type;
  new_Accumulator : Accumulator;                      (* [Accumulator accu;] *)
  AddFeature : StatTag -> Accumulator -> Accumulator;
  Init : Accumulator -> Accumulator;
  Push : Scalar -> Scalar -> Accumulator -> outcome Accumulator;
  Mean : Accumulator -> outcome Scalar;
  Variance : Accumulator -> outcome Scalar;
  Skewness : Accumulator -> outcome Scalar;
  Kurtosis : Accumulator -> outcome Scalar
}.

Class QuantileAccumulatorClass := {
  QuantileAccumulator : Type;
  (* [QuantileAccumulator accu(first, last);] *)
  new_QuantileAccumulator : list Scalar -> outcome QuantileAccumulator;
  QInit : QuantileAccumulator -> QuantileAccumulator;
  QPush : Scalar -> Scalar -> QuantileAccumulator -> outcome QuantileAccumulator;
  Quantile : QuantileAccumulator -> nat -> outcome Scalar
}.

Record DiscreteHistogram := {
  GetPositions : list Scalar;
  GetFrequencies : list Scalar
}.

Class DiscreteAccumulatorClass := {
  DiscreteAccumulator : Type;
  new_DiscreteAccumulator : DiscreteAccumulator;     (* [DiscreteAccumulator accu;] *)
  DInit : DiscreteAccumulator -> DiscreteAccumulator;
  DPush : Scalar -> Scalar -> DiscreteAccumulator -> outcome DiscreteAccumulator;
  Pdf : DiscreteAccumulator -> DiscreteHistogram;
  Mode : DiscreteAccumulator -> outcome Scalar
}.

(** *** [accumulate] and the moment entry points *)

Section Moments.
Context {AC : AccumulatorClass}.

(** [for (; firstFeat != lastFeat; ++firstFeat) accu.AddFeature( *firstFeat);] *)
Fixpoint add_features (fs : list (option StatTag)) (accu : Accumulator)
    : M Accumulator :=
  match fs with
  | [] => ret accu
  | Some tag :: fs' => add_features fs' (AddFeature tag accu)
  | None :: _ => undefined
  end.

Definition accumulate (values weights : list Scalar)
    (fs : list (option StatTag)) : M Accumulator :=
  if negb (length values =? length weights) then throw LengthMismatch
  else
    accu <- add_features fs new_Accumulator ;;
    let accu := Init accu in
    push_all Push (combine values weights) accu.

Definition features : list StatTag := [MEAN; VARIANCE; SKEWNESS; KURTOSIS].
Definition names : list string := ["mean"; "var"; "skew"; "kurt"]%string.

Definition wtd_stat (values weights : list Scalar) (order : nat)
    : M NumericVector :=
  let order_s := order in
  accu <- accumulate values weights (range features order_s) ;;
  let stat_vec := repeat 0 order_s in
  m <- lift (Mean accu) ;;
  stat_vec <- store stat_vec 0 m ;;
  stat_vec <- (if 2 <=? order_s
               then v <- lift (Variance accu) ;; store stat_vec 1 v
               else ret stat_vec) ;;
  stat_vec <- (if 3 <=? order_s
               then v <- lift (Skewness accu) ;; store stat_vec 2 v
               else ret stat_vec) ;;
  stat_vec <- (if 4 <=? order_s
               then v <- lift (Kurtosis accu) ;; store stat_vec 3 v
               else ret stat_vec) ;;
  names_vec <- deref_all (range names order_s) ;;
  ret {| values := stat_vec;
         names_attr := Some (Strings names_vec);
         class_attr := None |}.

Definition wtd_mean (values weights : list Scalar) : M NumericVector :=
  accu <- accumulate values weights (range [MEAN] 1) ;;
  m <- lift (Mean accu) ;;
  ret (wrap m).

Definition wtd_var (values weights : list Scalar) : M NumericVector :=
  accu <- accumulate values weights (range [VARIANCE] 1) ;;
  v <- lift (Variance accu) ;;
  ret (wrap v).

Definition wtd_skew (values weights : list Scalar) : M NumericVector :=
  accu <- accumulate values weights (range [SKEWNESS] 1) ;;
  v <- lift (Skewness accu) ;;
  ret (wrap v).

Definition wtd_kurt (values weights : list Scalar) : M NumericVector :=
  accu <- accumulate values weights (range [KURTOSIS] 1) ;;
  v <- lift (Kurtosis accu) ;;
  ret (wrap v).
End Moments.

(** *** The quantile entry points *)

Section Quantiles.
Context {QC : QuantileAccumulatorClass}.

Definition wtd_quantile (values weights probs : list Scalar)
    : M NumericVector :=
  if negb (length values =? length weights) then throw LengthMismatch
  else
    let probs_vec := probs in
    accu <- lift (new_QuantileAccumulator probs_vec) ;;
    let accu := QInit accu in
    accu <- push_all QPush (combine values weights) accu ;;
    quant_vec <- mapM (fun i => lift (Quantile accu i))
                      (seq 0 (length probs_vec)) ;;
    ret {| values := quant_vec;
           names_attr := Some (AsCharacter probs);
           class_attr := None |}.

Definition wtd_median (values weights : list Scalar) : M NumericVector :=
  if negb (length values =? length weights) then throw LengthMismatch
  else
    let proba := [real 1 2] in
    accu <- lift (new_QuantileAccumulator proba) ;;
    let accu := QInit accu in
    accu <- push_all QPush (combine values weights) accu ;;
    q <- lift (Quantile accu 0) ;;
    ret (wrap q).
End Quantiles.

(** *** The discrete entry points *)

Section Discrete.
Context {DC : DiscreteAccumulatorClass}.

Definition wtd_table (values weights : list Scalar) : M NumericVector :=
  if negb (length values =? length weights) then throw LengthMismatch
  else
    let accu := DInit new_DiscreteAccumulator in
    accu <- push_all DPush (combine values weights) accu ;;
    let hist := Pdf accu in
    let x := AsCharacter (GetPositions hist) in
    ret {| values := GetFrequencies hist;
           names_attr := Some x;
           class_attr := Some "table"%string |}.

Definition wtd_mode (values weights : list Scalar) : M NumericVector :=
  if negb (length values =? length weights) then throw LengthMismatch
  else
    let accu := DInit new_DiscreteAccumulator in
    accu <- push_all DPush (combine values weights) accu ;;
    m <- lift (Mode accu) ;;
    ret (wrap m).
End Discrete.

End WtdStat.

(** ** The accumulators of the Biips core, from the specification *)

Module Engine.
Import WtdStat.
Local Open Scope Qc_scope.

(** *** Weighted moments *)

(** Modelled from the spec: the order of the moment a feature tag of
    [Accumulator] stands for. *)
Definition tag_order (t : StatTag) : nat :=
  match t with MEAN => 1 | VARIANCE => 2 | SKEWNESS => 3 | KURTOSIS => 4 end.

(** Modelled from the spec: equality of feature tags, used to keep the
    feature set of [Accumulator] free of duplicates. *)
Definition StatTag_eqb (s t : StatTag) : bool := tag_order s =? tag_order t.

(** Modelled from the spec: the state of [Biips::Accumulator], whose class is
    not in the sources.  The registered feature set, the total weight [W], the
    running mean and the weighted central power sums [M2], [M3], [M4]. *)
Record MomentState := {
  feats : list StatTag;
  sum_w : Scalar;
  mean : Scalar;
  M2 : Scalar;
  M3 : Scalar;
  M4 : Scalar
}.

(** Modelled from the spec: the default constructor of [Accumulator],
    absent from the sources; an accumulator is created empty. *)
Definition empty_moments : MomentState :=
  {| feats := []; sum_w := 0; mean := 0; M2 := 0; M3 := 0; M4 := 0 |}.

(** Modelled from the spec: [Accumulator::AddFeature], absent from the
    sources.  The feature set is ordered and holds no duplicate. *)
Definition add_feature (tag : StatTag) (a : MomentState) : MomentState :=
  {| feats := if existsb (StatTag_eqb tag) (feats a) then feats a
              else feats a ++ [tag];
     sum_w := sum_w a; mean := mean a; M2 := M2 a; M3 := M3 a; M4 := M4 a |}.

(** Modelled from the spec: [Accumulator::Init], absent from the sources;
    it resets the power sums and keeps the registered features. *)
Definition init_moments (a : MomentState) : MomentState :=
  {| feats := feats a; sum_w := 0; mean := 0; M2 := 0; M3 := 0; M4 := 0 |}.

(** Modelled from the spec: which power sums [Accumulator] maintains.  The
    power sum of order [k] is tracked when a registered statistic needs it: a
    statistic of order [n] needs every power sum up to [n]. *)
Definition tracked (k : nat) (a : MomentState) : bool :=
  existsb (fun t => k <=? tag_order t) (feats a).

(** Modelled from the spec: the update one observation makes to the state of
    [Accumulator], absent from the sources.  The mean follows the incremental
    update [mu + w * delta / W_new] and the central power sums the one-pass
    weighted recurrences.  Division is the total division of [Qc]
    ([x / 0 = 0]), so an observation of weight zero leaves an empty
    accumulator unchanged. *)
Definition update (x w : Scalar) (a : MomentState) : MomentState :=
  let W := sum_w a in
  let W' := W + w in
  let d := x - mean a in
  let mu' := mean a + w * d / W' in
  {| feats := feats a;
     sum_w := W';
     mean := mu';
     M2 := if tracked 2 a then M2 a + w * d * (x - mu') else M2 a;
     M3 := if tracked 3 a
           then M3 a + d * d * d * W * w * (W - w) / (W' * W')
                     - real 3 1 * d * w * M2 a / W'
           else M3 a;
     M4 := if tracked 4 a
           then M4 a
                + d * d * d * d * W * w * (W * W - W * w + w * w)
                  / (W' * W' * W')
                + real 6 1 * d * d * w * w * M2 a / (W' * W')
                - real 4 1 * d * w * M3 a / W'
           else M4 a |}.

(** Modelled from the spec: [Accumulator::Push], absent from the sources;
    it fails with InvalidArgument on a negative weight. *)
Definition push_moments (x w : Scalar) (a : MomentState) : outcome MomentState :=
  if Qcltb w 0 then Throw InvalidArgument else Ret (update x w a).

(** Modelled from the spec: [Accumulator::Mean], absent from the sources;
    it fails with DegenerateInput when the total weight is zero. *)
Definition get_mean (a : MomentState) : outcome Scalar :=
  if Qceqb (sum_w a) 0 then Throw DegenerateInput else Ret (mean a).

(** Modelled from the spec: [Accumulator::Variance], absent from the sources:
    [M2 / W], DegenerateInput when [W = 0]. *)
Definition get_variance (a : MomentState) : outcome Scalar :=
  if Qceqb (sum_w a) 0 then Throw DegenerateInput else Ret (M2 a / sum_w a).

Section Pow.
(** [std::pow] of [<cmath>]; the exponent 1.5 has no rational counterpart,
    so the function is a parameter of the model. *)
Variable pow : Scalar -> Scalar -> Scalar.

(** Modelled from the spec: [Accumulator::Skewness], absent from the
    sources: [(M3 / W) / Variance^1.5], DegenerateInput when [W = 0] or the
    variance is zero. *)
Definition get_skewness (a : MomentState) : outcome Scalar :=
  if Qceqb (sum_w a) 0 then Throw DegenerateInput
  else
    let var := M2 a / sum_w a in
    if Qceqb var 0 then Throw DegenerateInput
    else Ret ((M3 a / sum_w a) / pow var (real 3 2)).

(** Modelled from the spec: [Accumulator::Kurtosis], absent from the
    sources: [(M4 / W) / Variance^2], DegenerateInput when [W = 0] or the
    variance is zero. *)
Definition get_kurtosis (a : MomentState) : outcome Scalar :=
  if Qceqb (sum_w a) 0 then Throw DegenerateInput
  else
    let var := M2 a / sum_w a in
    if Qceqb var 0 then Throw DegenerateInput
    else Ret ((M4 a / sum_w a) / (var * var)).

(** Modelled from the spec: the class [Biips::Accumulator]. *)
Definition moments : AccumulatorClass :=
  {| Accumulator := MomentState;
     new_Accumulator := empty_moments;
     AddFeature := add_feature;
     Init := init_moments;
     Push := push_moments;
     Mean := get_mean;
     Variance := get_variance;
     Skewness := get_skewness;
     Kurtosis := get_kurtosis |}.
End Pow.

(** *** Weighted quantiles *)

(** Modelled from the spec: the state of [Biips::QuantileAccumulator], whose
    class is not in the sources: the probability levels fixed at construction
    and every observation pushed so far, in push order. *)
Record QuantileState := {
  probs : list Scalar;
  sample : list Obs
}.

(** Modelled from the spec: the constructor of [QuantileAccumulator], absent
    from the sources; every probability level must lie in [[0,1]]. *)
Definition new_quantiles (ps : list Scalar) : outcome QuantileState :=
  if forallb (fun p => Qcleb 0 p && Qcleb p 1) ps
  then Ret {| probs := ps; sample := [] |}
  else Throw InvalidArgument.

(** Modelled from the spec: [QuantileAccumulator::Init], absent from the
    sources. *)
Definition init_quantiles (a : QuantileState) : QuantileState :=
  {| probs := probs a; sample := [] |}.

(** Modelled from the spec: what [QuantileAccumulator::Push] does with an
    accepted pair; it is kept with all the others. *)
Definition store_obs (x w : Scalar) (a : QuantileState) : QuantileState :=
  {| probs := probs a; sample := sample a ++ [(x, w)] |}.

(** Modelled from the spec: [QuantileAccumulator::Push], absent from the
    sources; the pair is stored, a negative weight is an invalid argument. *)
Definition push_quantiles (x w : Scalar) (a : QuantileState)
    : outcome QuantileState :=
  if Qcltb w 0 then Throw InvalidArgument else Ret (store_obs x w a).

(** Modelled from the spec: the sort by value ascending of
    [QuantileAccumulator::Quantile], as an insertion sort. *)
Fixpoint insert_by_value (o : Obs) (l : list Obs) : list Obs :=
  match l with
  | [] => [o]
  | o' :: l' =>
      if Qcleb (fst o) (fst o') then o :: l else o' :: insert_by_value o l'
  end.

(** Modelled from the spec: the pairs of [QuantileAccumulator] sorted by
    value ascending. *)
Definition sort_by_value (l : list Obs) : list Obs :=
  fold_right insert_by_value [] l.

(** Modelled from the spec: the total weight [W] of the pairs held by
    [QuantileAccumulator]. *)
Definition total_weight (l : list Obs) : Scalar :=
  fold_right (fun o acc => snd o + acc) 0 l.

(** Modelled from the spec: the scan of [QuantileAccumulator::Quantile] for
    the first value, in list order, at which the running cumulative weight
    reaches [target]. *)
Fixpoint first_reaching (target cum : Scalar) (l : list Obs) : option Scalar :=
  match l with
  | [] => None
  | (x, w) :: l' =>
      let cum' := cum + w in
      if Qcleb target cum' then Some x else first_reaching target cum' l'
  end.

(** Modelled from the spec: [QuantileAccumulator::Quantile], absent from the
    sources: sort the pairs by value ascending, accumulate the weights and
    return the first value whose cumulative weight reaches [p * W];
    DegenerateInput on an empty stream or a zero total weight. *)
Definition get_quantile (a : QuantileState) (i : nat) : outcome Scalar :=
  match nth_error (probs a) i with
  | None => Undefined
  | Some p =>
      match sample a with
      | [] => Throw DegenerateInput
      | _ :: _ =>
          let W := total_weight (sample a) in
          if Qceqb W 0 then Throw DegenerateInput
          else match first_reaching (p * W) 0 (sort_by_value (sample a)) with
               | Some x => Ret x
               | None => Throw DegenerateInput
               end
      end
  end.

(** Modelled from the spec: the class [Biips::QuantileAccumulator]. *)
Definition quantiles : QuantileAccumulatorClass :=
  {| QuantileAccumulator := QuantileState;
     new_QuantileAccumulator := new_quantiles;
     QInit := init_quantiles;
     QPush := push_quantiles;
     Quantile := get_quantile |}.

(** *** Discrete frequencies *)

(** Modelled from the spec: the state of [Biips::DiscreteAccumulator], whose
    class is not in the sources: a mapping from each distinct observed value
    to its accumulated weight, ordered by value. *)
Record DiscreteState := {
  table : @StdMap.t Scalar Scalar
}.

(** Modelled from the spec: the default constructor of
    [DiscreteAccumulator], absent from the sources. *)
Definition empty_table : DiscreteState := {| table := StdMap.empty |}.

(** Modelled from the spec: [DiscreteAccumulator::Init], absent from the
    sources. *)
Definition init_table (a : DiscreteState) : DiscreteState :=
  {| table := StdMap.empty |}.

(** Modelled from the spec: the new weight of a bucket of
    [DiscreteAccumulator] that receives the weight [w]. *)
Definition add_weight (w : Scalar) (old : option Scalar) : Scalar :=
  match old with
  | None => w
  | Some f => f + w
  end.

(** Modelled from the spec: what [DiscreteAccumulator::Push] does with an
    accepted pair. *)
Definition add_to_bucket (x w : Scalar) (a : DiscreteState) : DiscreteState :=
  {| table := StdMap.upsert Qcltb x (add_weight w) (table a) |}.

(** Modelled from the spec: [DiscreteAccumulator::Push], absent from the
    sources: the weight is added to the bucket keyed by the exact value; a
    negative weight is an invalid argument. *)
Definition push_table (x w : Scalar) (a : DiscreteState) : outcome DiscreteState :=
  if Qcltb w 0 then Throw InvalidArgument else Ret (add_to_bucket x w a).

(** Modelled from the spec: [DiscreteAccumulator::Pdf], absent from the
    sources: positions ascending, frequencies in the same order. *)
Definition get_pdf (a : DiscreteState) : DiscreteHistogram :=
  {| GetPositions := StdMap.keys (table a);
     GetFrequencies := StdMap.elems (table a) |}.

(** Modelled from the spec: [DiscreteAccumulator::Mode], absent from the
    sources: one scan of the sorted table for the largest weight, the
    smallest value winning a tie; DegenerateInput on an empty stream. *)
Definition get_mode (a : DiscreteState) : outcome Scalar :=
  match table a with
  | [] => Throw DegenerateInput
  | first :: rest =>
      Ret (fst (fold_left
                  (fun best kf => if Qcltb (snd best) (snd kf) then kf else best)
                  rest first))
  end.

(** Modelled from the spec: the class [Biips::DiscreteAccumulator]. *)
Definition discrete : DiscreteAccumulatorClass :=
  {| DiscreteAccumulator := DiscreteState;
     new_DiscreteAccumulator := empty_table;
     DInit := init_table;
     DPush := push_table;
     Pdf := get_pdf;
     Mode := get_mode |}.

End Engine.

(** ** [rbiips_utils.cpp] *)

Module RbiipsUtils.

Local Open Scope string_scope.
Local Open Scope Z_scope.
Local Infix "+++" := app (at level 60, right associativity).

(** A C [double].  R's [NA_REAL] is a NaN, and [operator==] is the IEEE-754
    comparison, under which a NaN equals nothing. *)
Definition double := spec_float.
Definition NA_REAL : double := S754_nan.
Definition double_eqb (x y : double) : bool := SFeqb x y.

(** *** Process-wide flags *)

Record Globals := {
  VERBOSITY : nat;
  BASE_MODULE_LOADED : bool
}.

(** [Size VERBOSITY = 1; Bool BASE_MODULE_LOADED = false;] *)
Definition initial_globals : Globals :=
  {| VERBOSITY := 1; BASE_MODULE_LOADED := false |}.

(** [load_base_module]; [loaded] tells whether the call to [loadBaseModule]
    of the Biips core returned without an exception. *)
Definition load_base_module (loaded : bool) (g : Globals) : Globals :=
  if loaded
  then {| VERBOSITY := VERBOSITY g; BASE_MODULE_LOADED := true |}
  else g.

(** *** Console streams *)

Inductive stream := rbiips_cout | rbiips_cerr.

(** What was written, in order, and to which stream. *)
Definition Console := list (stream * string).

(** [std::endl]: a line feed. *)
Definition endl : string := String (ascii_of_nat 10) EmptyString.

(** *** R objects and Biips arrays *)

(** A numeric vector with its optional "dim" attribute. *)
Record RNumeric := {
  data : list double;
  dim_attr : option (list Z)
}.

(** An R list, with or without a "names" attribute. *)
Inductive RList :=
| Unnamed (l : list RNumeric)
| Named (l : list (string * RNumeric)).

(** A [MultiArray]: its dimensions ([DimArray], a vector of [Size]) and its
    values ([ValArray]). *)
Record MultiArray := {
  Dim : list Z;
  Values : list double
}.

(** [std::map<String, MultiArray>] *)
Definition DataMap := @StdMap.t string MultiArray.

(** [std::replace_copy(first, last, out, old_value, new_value)] *)
Definition replace_copy (src : list double) (old_value new_value : double)
    : list double :=
  map (fun x => if double_eqb x old_value then new_value else x) src.

(** [data_list[var_name]]: the first element carrying that name. *)
Fixpoint lookup (name : string) (l : list (string * RNumeric))
    : option RNumeric :=
  match l with
  | [] => None
  | (n, v) :: l' => if String.eqb n name then Some v else lookup name l'
  end.

(** [data_list[var_name] = values]: overwrite the first element carrying that
    name, append a new named element when there is none. *)
Fixpoint set_named (name : string) (v : RNumeric)
    (l : list (string * RNumeric)) : list (string * RNumeric) :=
  match l with
  | [] => [(name, v)]
  | (n, v') :: l' =>
      if String.eqb n name then (n, v) :: l' else (n, v') :: set_named name v l'
  end.

(** The same on a list that may have no names yet: the elements already
    there get the empty name. *)
Definition set_by_name (name : string) (v : RNumeric) (l : RList) : RList :=
  match l with
  | Unnamed vs => Named (map (fun x => ("", x)) vs +++ [(name, v)])
  | Named nvs => Named (set_named name v nvs)
  end.

Section DataTable.
(** Constants of the Biips headers, which are not in the sources. *)
Variable BIIPS_REALNA : double.
Variables PROMPT_STRING INDENT_STRING : string.
(** Width of the unsigned type [Size]. *)
Variable Size_bits : Z.

(** Conversions between R's 32-bit [int] and [Size]. *)
Definition to_Size (z : Z) : Z := z mod 2 ^ Size_bits.
Definition to_int (z : Z) : Z := (z + 2 ^ 31) mod 2 ^ 32 - 2 ^ 31.

(** Modelled from the spec: [DimArray::Length] of the Biips core, absent
    from the sources: the number of elements of an array of these
    dimensions, their product, computed in [Size]. *)
Definition Length (d : list Z) : Z :=
  fold_left (fun acc n => to_Size (acc * n)) d 1.

(** [if (VERBOSITY>1) rbiips_cout << ...] *)
Definition verbose (g : Globals) (out : Console) : Console :=
  if (1 <? VERBOSITY g)%nat then out else [].

(** The array [writeDataTable] builds from one vector: the dimensions are
    the "dim" attribute, or the length when there is none; the values are
    copied by [std::replace_copy] with [NA_REAL] as the value to replace. *)
Definition to_MultiArray (r_vec : RNumeric) : MultiArray :=
  match dim_attr r_vec with
  | None =>
      {| Dim := [to_Size (Z.of_nat (length (data r_vec)))];
         Values := replace_copy (data r_vec) NA_REAL BIIPS_REALNA |}
  | Some r_dim =>
      {| Dim := map to_Size r_dim;
         Values := replace_copy (data r_vec) NA_REAL BIIPS_REALNA |}
  end.

(** The loop of [writeDataTable] over the names attribute.  The lookup
    cannot fail, as each name is taken from the list itself. *)
Fixpoint write_loop (g : Globals) (data_list : list (string * RNumeric))
    (names : list string) (out : Console) (data_map : DataMap)
    : Console * DataMap :=
  match names with
  | [] => (out, data_map)
  | var_name :: rest =>
      let out := out +++ verbose g [(rbiips_cout, " " ++ var_name)] in
      match lookup var_name data_list with
      | None => (out, data_map)
      | Some r_vec =>
          write_loop g data_list rest out
            (StdMap.assign String.ltb var_name (to_MultiArray r_vec) data_map)
      end
  end.

(** [writeDataTable<ColumnMajorOrder>]: what it writes to the console and
    the map it returns. *)
Definition writeDataTable (g : Globals) (data : RList) : Console * DataMap :=
  let out := verbose g [(rbiips_cout, PROMPT_STRING ++ "Writing data table" ++ endl)] in
  match data with
  | Unnamed _ =>
      (out +++ [(rbiips_cerr, "Warning: Missing variable names" ++ endl)],
       StdMap.empty)
  | Named data_list =>
      let out := out +++ verbose g [(rbiips_cout, INDENT_STRING ++ "Variables:")] in
      let (out, data_map) :=
        write_loop g data_list (map fst data_list) out StdMap.empty in
      (out +++ verbose g [(rbiips_cout, endl)], data_map)
  end.

(** Copy [src] to the start of [dst]; [None] when [dst] is too short. *)
Definition copy_into (src dst : list double) : option (list double) :=
  if (length src <=? length dst)%nat
  then Some (src +++ skipn (length src) dst)
  else None.

(** R's check of [attr(x, "dim") <- dim] on a vector of [len] elements: the
    assignment is an error unless [dim] has at least one entry, none of them
    negative (the missing integer is the most negative [int]), and their
    product is [len]. *)
Definition dim_fits (len : nat) (dim : list Z) : bool :=
  negb (length dim =? 0)%nat
  && forallb (fun n => 0 <=? n) dim
  && (fold_right Z.mul 1 dim =? Z.of_nat len).

(** The vector [readDataTable] builds from one array: [len] zeros, over
    which the values are copied by [std::replace_copy] with [BIIPS_REALNA]
    as the value to replace, and the dimensions as "dim" attribute.  [None]
    when the call does not get to return the vector: the copy runs past the
    end of the vector, or R rejects the "dim" attribute. *)
Definition of_MultiArray (values_array : MultiArray) : option RNumeric :=
  let dim := map to_int (Dim values_array) in
  let len := Length (Dim values_array) in
  let values := repeat (S754_zero false) (Z.to_nat len) in
  match copy_into (replace_copy (Values values_array) BIIPS_REALNA NA_REAL)
                  values with
  | None => None
  | Some values =>
      if dim_fits (length values) dim
      then Some {| data := values; dim_attr := Some dim |}
      else None
  end.

(** The loop of [readDataTable] over the map, in key order. *)
Fixpoint read_loop (g : Globals) (entries : list (string * MultiArray))
    (out : Console) (data_list : RList) : Console * option RList :=
  match entries with
  | [] => (out, Some data_list)
  | (var_name, values_array) :: rest =>
      match of_MultiArray values_array with
      | None => (out, None)
      | Some values =>
          read_loop g rest
            (out +++ verbose g [(rbiips_cout, " " ++ var_name)])
            (set_by_name var_name values data_list)
      end
  end.

(** [readDataTable<ColumnMajorOrder>]: what it writes to the console and
    the list it returns. *)
Definition readDataTable (g : Globals) (dataMap : DataMap)
    : Console * option RList :=
  let out := verbose g [(rbiips_cout, PROMPT_STRING ++ "Reading data table" ++ endl)] in
  let out := out +++ verbose g [(rbiips_cout, INDENT_STRING ++ "Variables:")] in
  let (out, res) := read_loop g dataMap out (Unnamed []) in
  match res with
  | None => (out, None)
  | Some data_list =>
      (out +++ verbose g [(rbiips_cout, endl)], Some data_list)
  end.
End DataTable.

End RbiipsUtils.

(** ** The entry points as calls into one process *)

Module Process.
Import WtdStat RbiipsUtils.

(** The nine statistics entry points with their arguments. *)
Inductive StatCall :=
| Call_wtd_stat (values weights : list Scalar) (order : nat)
| Call_wtd_mean (values weights : list Scalar)
| Call_wtd_var (values weights : list Scalar)
| Call_wtd_skew (values weights : list Scalar)
| Call_wtd_kurt (values weights : list Scalar)
| Call_wtd_quantile (values weights probs : list Scalar)
| Call_wtd_median (values weights : list Scalar)
| Call_wtd_table (values weights : list Scalar)
| Call_wtd_mode (values weights : list Scalar).

Definition values_of (c : StatCall) : list Scalar :=
  match c with
  | Call_wtd_stat v _ _ | Call_wtd_mean v _ | Call_wtd_var v _
  | Call_wtd_skew v _ | Call_wtd_kurt v _ | Call_wtd_quantile v _ _
  | Call_wtd_median v _ | Call_wtd_table v _ | Call_wtd_mode v _ => v
  end.

Definition weights_of (c : StatCall) : list Scalar :=
  match c with
  | Call_wtd_stat _ w _ | Call_wtd_mean _ w | Call_wtd_var _ w
  | Call_wtd_skew _ w | Call_wtd_kurt _ w | Call_wtd_quantile _ w _
  | Call_wtd_median _ w | Call_wtd_table _ w | Call_wtd_mode _ w => w
  end.

(** A call made by the host into the loaded library. *)
Inductive Call :=
| Stat (c : StatCall)
| Load_base_module (loaded : bool).

Inductive Response :=
| StatResponse (r : M NumericVector)
| Done.

Section Run.
Context {AC : AccumulatorClass} {QC : QuantileAccumulatorClass}
        {DC : DiscreteAccumulatorClass}.

Definition run_stat (c : StatCall) : M NumericVector :=
  match c with
  | Call_wtd_stat v w order => wtd_stat v w order
  | Call_wtd_mean v w => wtd_mean v w
  | Call_wtd_var v w => wtd_var v w
  | Call_wtd_skew v w => wtd_skew v w
  | Call_wtd_kurt v w => wtd_kurt v w
  | Call_wtd_quantile v w probs => wtd_quantile v w probs
  | Call_wtd_median v w => wtd_median v w
  | Call_wtd_table v w => wtd_table v w
  | Call_wtd_mode v w => wtd_mode v w
  end.

(** Every call runs in the process that holds the flags: it receives their
    current value and leaves their next value. *)
Definition exec (c : Call) (g : Globals) : Response * Globals :=
  match c with
  | Stat c => (StatResponse (run_stat c), g)
  | Load_base_module loaded => (Done, load_base_module loaded g)
  end.

(** A session: calls made one after the other in the same process. *)
Fixpoint run_calls (cs : list Call) (g : Globals) : list Response * Globals :=
  match cs with
  | [] => ([], g)
  | c :: cs' =>
      let (r, g') := exec c g in
      let (rs, g'') := run_calls cs' g' in
      (r :: rs, g'')
  end.
End Run.


End Process.


(** ** Vocabulary of the statements *)

Module Vocabulary.
Import WtdStat Engine Process.
Local Open Scope Qc_scope.

(** A request whose order and probability levels are in range. *)
Definition well_formed_request (c : StatCall) : Prop :=
  match c with
  | Call_wtd_stat _ _ order => (1 <= order <= 4)%nat
  | Call_wtd_quantile _ _ probs => Forall (fun p => 0 <= p <= 1) probs
  | _ => True
  end.

(** The accumulator state after folding a stream of accepted observations. *)
Definition run_steps {A} (step : Scalar -> Scalar -> A -> A)
    (obs : list Obs) (a : A) : A :=
  fold_left (fun a o => step (fst o) (snd o) a) obs a.

(** Apply a function to the value a computation returns, if any. *)
Definition map_result {A B} (f : A -> B) (m : M A) : M B :=
  (pushes m,
   match result m with
   | Ret a => Ret (f a)
   | Throw e => Throw e
   | Undefined => Undefined
   end).

(** Attach a "names" attribute obtained from a numeric vector. *)
Definition with_names (labels : list Scalar) (v : NumericVector)
    : NumericVector :=
  {| values := values v;
     names_attr := Some (AsCharacter labels);
     class_attr := class_attr v |}.

(** Observations ordered by value. *)
Definition by_value (a b : Obs) : Prop := fst a <= fst b.

(** The cumulative weight at [x]: the weight of all observations whose value
    is at most [x]. *)
Definition cum_weight (x : Scalar) (obs : list Obs) : Scalar :=
  fold_right (fun o acc => if Qcleb (fst o) x then snd o + acc else acc) 0 obs.

(** [q] is the inverse-CDF quantile of the stream at level [p]: an observed
    value whose cumulative weight reaches [p * W], and the smallest such. *)
Definition inverse_cdf (obs : list Obs) (p q : Scalar) : Prop :=
  In q (map fst obs) /\
  p * total_weight obs <= cum_weight q obs /\
  forall x, In x (map fst obs) ->
            p * total_weight obs <= cum_weight x obs -> q <= x.

(** The single number an entry point returns. *)
Definition scalar_of (m : M NumericVector) : outcome Scalar :=
  match result m with
  | Ret v => match values v with
             | [x] => Ret x
             | _ => Undefined
             end
  | Throw e => Throw e
  | Undefined => Undefined
  end.

(** Continue with [f] when the outcome is a value. *)
Definition and_then {A B} (o : outcome A) (f : A -> outcome B) : outcome B :=
  match o with
  | Ret a => f a
  | Throw e => Throw e
  | Undefined => Undefined
  end.

(** Collect the values of a list of outcomes; the first failure wins. *)
Fixpoint sequence {A} (l : list (outcome A)) : outcome (list A) :=
  match l with
  | [] => Ret []
  | Ret a :: l' => match sequence l' with
                   | Ret l'' => Ret (a :: l'')
                   | Throw e => Throw e
                   | Undefined => Undefined
                   end
  | Throw e :: _ => Throw e
  | Undefined :: _ => Undefined
  end.

(** Two accumulators hold the same total weight, mean and power sums up to
    order [k]. *)
Definition agree (k : nat) (a b : MomentState) : Prop :=
  sum_w a = sum_w b /\ mean a = mean b /\
  ((2 <= k)%nat -> M2 a = M2 b) /\
  ((3 <= k)%nat -> M3 a = M3 b) /\
  ((4 <= k)%nat -> M4 a = M4 b).

(** An accumulator tracks every power sum up to order [k]. *)
Definition tracks (k : nat) (a : MomentState) : Prop :=
  forall j, (2 <= j <= k)%nat -> tracked j a = true.

(** No weight of the stream is negative. *)
Definition all_nonneg (obs : list Obs) : bool :=
  forallb (fun o => negb (Qcltb (snd o) 0)) obs.

(** The keys of a map are strictly increasing. *)
Definition sorted_keys {K V} (ltb : K -> K -> bool) (m : @StdMap.t K V) : Prop :=
  StronglySorted (fun a b => ltb a b = true) (StdMap.keys m).

Definition sum_list (l : list Scalar) : Scalar := fold_right Qcplus 0 l.

(** The weight a stream gives to the exact value [x]. *)
Definition weight_at (x : Scalar) (obs : list Obs) : Scalar :=
  fold_right (fun o acc => if Qceqb (fst o) x then snd o + acc else acc) 0 obs.

(** The sums of [w * x] and of [w * x^2] over a stream. *)
Definition weighted_sum (obs : list Obs) : Scalar :=
  fold_right (fun o acc => snd o * fst o + acc) 0 obs.

Definition weighted_sum_sq (obs : list Obs) : Scalar :=
  fold_right (fun o acc => snd o * fst o * fst o + acc) 0 obs.

Definition weighted_mean (obs : list Obs) : Scalar :=
  weighted_sum obs / total_weight obs.

(** The sum of [w * (x - m)^2] over a stream. *)
Definition weighted_sq_dev (m : Scalar) (obs : list Obs) : Scalar :=
  fold_right (fun o acc => snd o * (fst o - m) * (fst o - m) + acc) 0 obs.

(** The sums of [w * x^3] and of [w * x^4] over a stream. *)
Definition weighted_sum_cu (obs : list Obs) : Scalar :=
  fold_right (fun o acc => snd o * fst o * fst o * fst o + acc) 0 obs.

Definition weighted_sum_qu (obs : list Obs) : Scalar :=
  fold_right (fun o acc => snd o * fst o * fst o * fst o * fst o + acc) 0 obs.

(** The sums of [w * (x - m)^3] and of [w * (x - m)^4] over a stream. *)
Definition weighted_cu_dev (m : Scalar) (obs : list Obs) : Scalar :=
  fold_right (fun o acc => snd o * (fst o - m) * (fst o - m) * (fst o - m) + acc)
             0 obs.

Definition weighted_qu_dev (m : Scalar) (obs : list Obs) : Scalar :=
  fold_right (fun o acc =>
                snd o * (fst o - m) * (fst o - m) * (fst o - m) * (fst o - m)
                + acc)
             0 obs.

(** The weighted population variance: the sum of [w * (x - mean)^2] over [W]. *)
Definition population_variance (obs : list Obs) : Scalar :=
  weighted_sq_dev (weighted_mean obs) obs / total_weight obs.

(** The double 1.0. *)
Definition double_one : RbiipsUtils.double :=
  S754_finite false 4503599627370496 (-52).

(** What was written to one stream. *)
Definition written_to (s : RbiipsUtils.stream) (out : RbiipsUtils.Console)
    : list string :=
  map snd (filter (fun e => match fst e, s with
                            | RbiipsUtils.rbiips_cout, RbiipsUtils.rbiips_cout
                            | RbiipsUtils.rbiips_cerr, RbiipsUtils.rbiips_cerr => true
                            | _, _ => false
                            end) out).

(** A numeric vector as R keeps it: fewer than [2^31] elements and, when it
    has a "dim" attribute, dimensions that are non-negative [int]s whose
    product is the length. *)
Definition well_formed_vector (v : RbiipsUtils.RNumeric) : Prop :=
  (Z.of_nat (length (RbiipsUtils.data v)) < 2 ^ 31)%Z /\
  match RbiipsUtils.dim_attr v with
  | None => True
  | Some d =>
      Forall (fun n => 0 <= n < 2 ^ 31)%Z d /\
      fold_right Z.mul 1%Z d = Z.of_nat (length (RbiipsUtils.data v))
  end.

(** What a vector becomes when written to a data table and read back. *)
Definition read_back (BIIPS_REALNA : RbiipsUtils.double)
    (v : RbiipsUtils.RNumeric) : RbiipsUtils.RNumeric :=
  {| RbiipsUtils.data :=
       map (fun x => if RbiipsUtils.double_eqb x BIIPS_REALNA
                     then RbiipsUtils.NA_REAL else x)
           (RbiipsUtils.data v);
     RbiipsUtils.dim_attr :=
       Some match RbiipsUtils.dim_attr v with
            | Some d => d
            | None => [Z.of_nat (length (RbiipsUtils.data v))]
            end |}.

(** The element of an R list under a name. *)
Definition element (name : string) (l : RbiipsUtils.RList)
    : option RbiipsUtils.RNumeric :=
  match l with
  | RbiipsUtils.Unnamed _ => None
  | RbiipsUtils.Named nvs => RbiipsUtils.lookup name nvs
  end.

End Vocabulary.


(** ** Vocabulary of the further statements *)

Module Notions.
Import WtdStat Engine RbiipsUtils Process Vocabulary.

(** The skewness and the kurtosis of a stream: the third central sum over
    the total weight, divided by the variance to the power 1.5; the fourth
    central sum over the total weight, divided by the squared variance. *)
Definition weighted_skewness (pow : Scalar -> Scalar -> Scalar)
    (obs : list Obs) : Scalar :=
  ((weighted_cu_dev (weighted_mean obs) obs / total_weight obs)
   / pow (population_variance obs) (real 3 2))%Qc.

Definition weighted_kurtosis (obs : list Obs) : Scalar :=
  ((weighted_qu_dev (weighted_mean obs) obs / total_weight obs)
   / (population_variance obs * population_variance obs))%Qc.

(** The four statistics of a stream, in the order of their names. *)
Definition stream_statistics (pow : Scalar -> Scalar -> Scalar)
    (obs : list Obs) : list Scalar :=
  [weighted_mean obs; population_variance obs;
   weighted_skewness pow obs; weighted_kurtosis obs].

(** A computation fed the stream [obs]: the pushes it invoked are a prefix
    of [obs], in order, and all of [obs] when it returned a value. *)
Definition fed {A} (obs : list Obs) (m : M A) : Prop :=
  (exists rest, obs = pushes m ++ rest) /\
  (forall a, result m = Ret a -> pushes m = obs).

(** A computation that invokes no [Push]. *)
Definition silent {A} (m : M A) : Prop := pushes m = [].

(** A computation that ends in a value or in an exception. *)
Definition defined {A} (m : M A) : Prop := result m <> Undefined.

(** Accumulators that keep within bounds: no member ends in undefined
    behaviour, [Quantile] being asked only for the position of a level the
    accumulator was built with. *)
Definition in_bounds (AC : AccumulatorClass) (QC : QuantileAccumulatorClass)
    (DC : DiscreteAccumulatorClass) : Prop :=
  (forall x w a, Push x w a <> Undefined) /\
  (forall a, Mean a <> Undefined) /\
  (forall a, Variance a <> Undefined) /\
  (forall a, Skewness a <> Undefined) /\
  (forall a, Kurtosis a <> Undefined) /\
  (forall ps, new_QuantileAccumulator ps <> Undefined) /\
  (forall x w a, QPush x w a <> Undefined) /\
  (forall ps a0 obs a i,
      new_QuantileAccumulator ps = Ret a0 ->
      result (push_all QPush obs (QInit a0)) = Ret a ->
      (i < length ps)%nat ->
      Quantile a i <> Undefined) /\
  (forall x w a, DPush x w a <> Undefined) /\
  (forall a, Mode a <> Undefined).

(** The names of the elements of an R list; none when the list has no
    "names" attribute. *)
Definition names_of (l : RList) : list string :=
  match l with
  | Unnamed _ => []
  | Named nvs => map fst nvs
  end.

(** An array R can take over as it is: at least one dimension, every extent
    and the number of elements below [2^31], and no more values than
    elements. *)
Definition well_formed_array (ma : MultiArray) : Prop :=
  Dim ma <> [] /\
  Forall (fun n => 0 <= n < 2 ^ 31)%Z (Dim ma) /\
  (fold_right Z.mul 1 (Dim ma) < 2 ^ 31)%Z /\
  (Z.of_nat (length (Values ma)) <= fold_right Z.mul 1 (Dim ma))%Z.

(** A "dim" attribute, when present, has at least one entry. *)
Definition has_extents (v : RNumeric) : Prop := dim_attr v <> Some [].

(** The vector [readDataTable] makes of an array: the values with the
    sentinel replaced by [NA_REAL], then zeros up to the number of
    elements, and the dimensions. *)
Definition as_vector (BIIPS_REALNA : double) (ma : MultiArray) : RNumeric :=
  let vals := map (fun x => if double_eqb x BIIPS_REALNA then NA_REAL else x)
                  (Values ma) in
  {| data := vals ++ repeat (S754_zero false)
                       (Z.to_nat (fold_right Z.mul 1%Z (Dim ma)) - length vals);
     dim_attr := Some (Dim ma) |}.

End Notions.

(** ** Arrays and monitors handed to R, of [rbiips_utils.cpp] *)

Module Marshal.
Import RbiipsUtils.

Local Open Scope string_scope.
Local Open Scope Z_scope.

(** *** Exceptions and completions *)

Inductive Exception :=
| LogicError (what : string)     (* Biips::LogicError *)
| RuntimeError (what : string)   (* Biips::RuntimeError *)
| R_error.                       (* an error raised by R *)

(** How a call ends: with a value, with an exception, or in an access out
    of the bounds of a vector. *)
Inductive completion (A : Type) :=
| Value (a : A)
| Thrown (e : Exception)
| OutOfBounds.
Arguments Value {A} a.
Arguments Thrown {A} e.
Arguments OutOfBounds {A}.

Definition and_next {A B} (c : completion A) (k : A -> completion B)
    : completion B :=
  match c with
  | Value a => k a
  | Thrown e => Thrown e
  | OutOfBounds => OutOfBounds
  end.

Local Notation "x <- c ;; k" := (and_next c (fun x => k))
  (at level 61, c at next level, right associativity).

(** *** R objects built from monitors *)

(** An integer vector used as "dim" attribute, with its "names" if any. *)
Record RDim := {
  extents : list Z;
  extent_names : option (list string)
}.

(** A vector of doubles with a "dim" attribute. *)
Record RArray := {
  elements : list double;
  dim : RDim
}.

(** The "conditionals" element: a list of character vectors with a "dim"
    attribute, or one character vector. *)
Inductive Conditionals :=
| CondList (l : list (list string)) (d : RDim)
| CondVector (l : list string).

(** The R list built for one monitor.  [discrete] is a logical vector: it
    holds the doubles as Rcpp coerces them, which is left uninterpreted. *)
Record smcarray := {
  values : RArray;
  weights : RArray;
  ess : RArray;
  discrete : RArray;
  iterations : RArray;
  conditionals : Conditionals;
  name : string;
  lower : list Z;
  upper : list Z;
  type : string;
  class : string
}.

(** *** Biips objects, through the accessors this file calls *)

(** A [NumArray] offers the accessors [Dim] and [Values] of a
    [MultiArray]. *)
Definition NumArray := MultiArray.

(** [IndexRange]: what [Lower], [Upper], [Dim] and [Length] return. *)
Record IndexRange := {
  Lower : list Z;
  Upper : list Z;
  RangeDim : list Z;
  RangeLength : Z
}.

(** [NodeArrayMonitor]: what its accessors return. *)
Record NodeArrayMonitor := {
  GetValues : NumArray;
  GetWeights : NumArray;
  GetESS : NumArray;
  GetDiscrete : NumArray;
  GetIterations : NumArray;
  GetRange : IndexRange;
  GetConditionalNodeNames : list (list string);
  GetName : string
}.

(** [vec[vec.size()-1] = x] on a vector without bounds check. *)
Definition set_last {A} (vec : list A) (x : A) : completion (list A) :=
  match length vec with
  | O => OutOfBounds
  | S n => Value (firstn n vec ++ [x])%list
  end.

(** [list[name] = v] on an R list whose elements all have names: overwrite
    the first element carrying that name, append a new named element when
    there is none. *)
Fixpoint assign_named {A} (name : string) (v : A) (l : list (string * A))
    : list (string * A) :=
  match l with
  | [] => [(name, v)]
  | (n, v') :: l' =>
      if String.eqb n name then (n, v) :: l'
      else (n, v') :: assign_named name v l'
  end.

Section Monitors.
(** Constants of the Biips headers, which are not in the sources. *)
Variable BIIPS_REALNA : double.
Variable Size_bits : Z.
(** [operator+] of a [ValArray] and a scalar, of the Biips core. *)
Variable ValArray_plus : list double -> double -> list double.
(** R's check of a "dim" attribute against the length of the object it is
    assigned to. *)
Variable dim_accepted : nat -> list Z -> bool.

(** [vec.attr("dim") = d] *)
Definition set_dim (vec : list double) (d : RDim) : completion RArray :=
  if dim_accepted (length vec) (extents d)
  then Value {| elements := vec; dim := d |}
  else Thrown R_error.

Definition arrayToVector (array : NumArray) : completion RNumeric :=
  let vec := Values array in
  let dim := map to_int (Dim array) in
  if dim_accepted (length vec) dim
  then Value {| data := vec; dim_attr := Some dim |}
  else Thrown R_error.

(** The body of the loop of [getMonitors]: the list built for one
    monitor. *)
Definition smcarray_of (monitor : NodeArrayMonitor) (type : string)
    : completion smcarray :=
  let dim_particles := map to_int (Dim (GetValues monitor)) in
  let dim_array :=
    {| extents := map to_int (RangeDim (GetRange monitor));
       extent_names := None |} in
  let dim_names := repeat "" (length dim_particles) in
  dim_names <- set_last dim_names "particle" ;;
  let dim_particles :=
    {| extents := dim_particles; extent_names := Some dim_names |} in
  let len_part := Length Size_bits (Dim (GetValues monitor)) in
  let values := repeat (S754_zero false) (Z.to_nat len_part) in
  let values_val := Values (GetValues monitor) in
  values <- match copy_into (replace_copy values_val BIIPS_REALNA NA_REAL)
                            values with
            | Some values => Value values
            | None => OutOfBounds
            end ;;
  values <- set_dim values dim_particles ;;
  let weight_val := Values (GetWeights monitor) in
  weights <- set_dim weight_val dim_particles ;;
  let ess_val := Values (GetESS monitor) in
  ess <- set_dim ess_val dim_array ;;
  let discrete_val := Values (GetDiscrete monitor) in
  discrete <- set_dim discrete_val dim_array ;;
  let iter_val :=
    ValArray_plus (Values (GetIterations monitor))
                  Vocabulary.double_one in
  iterations <- set_dim iter_val dim_array ;;
  let cond := GetConditionalNodeNames monitor in
  let len := RangeLength (GetRange monitor) in
  conditionals <-
    (if Z.of_nat (length cond) =? len
     then
       if dim_accepted (length cond) (extents dim_array)
       then Value (CondList cond dim_array)
       else Thrown R_error
     else if (length cond =? 1)%nat
     then Value (CondVector (nth 0 cond []))
     else Thrown (LogicError
            "conditionals must either be of the same size as the node array or of size 1.")) ;;
  let lower := map to_int (Lower (GetRange monitor)) in
  let upper := map to_int (Upper (GetRange monitor)) in
  Value {| values := values;
           weights := weights;
           ess := ess;
           discrete := discrete;
           iterations := iterations;
           conditionals := conditionals;
           name := GetName monitor;
           lower := lower;
           upper := upper;
           type := type;
           class := "smcarray" |}.

(** The loop of [getMonitors] over the map, in key order. *)
Fixpoint monitors_loop (entries : list (string * NodeArrayMonitor))
    (type : string) (smcarray_list : list (string * smcarray))
    : completion (list (string * smcarray)) :=
  match entries with
  | [] => Value smcarray_list
  | (name, monitor) :: rest =>
      smcarray <- smcarray_of monitor type ;;
      monitors_loop rest type (assign_named name smcarray smcarray_list)
  end.

(** [getMonitors<ColumnMajorOrder>] *)
Definition getMonitors (monitorsMap : @StdMap.t string NodeArrayMonitor)
    (type : string) : completion (list (string * smcarray)) :=
  monitors_loop monitorsMap type [].
End Monitors.

End Marshal.

(** ** Sample objects *)

Module Samples.
Import RbiipsUtils Marshal.
Local Open Scope string_scope.
Local Open Scope Z_scope.

(** A sentinel for missing values: the most negative finite double. *)
Definition sentinel : double := S754_finite true 9007199254740991 971.

(** A check of the "dim" attribute: at least one extent, none negative,
    and the product of the extents equal to the length. *)
Definition dims_match (len : nat) (dim : list Z) : bool :=
  negb (length dim =? 0)%nat && forallb (fun n => 0 <=? n) dim
  && (fold_right Z.mul 1 dim =? Z.of_nat len).

(** Elementwise addition of doubles. *)
Definition plus_each (l : list double) (x : double) : list double :=
  map (fun y => SFadd 53 1024 y x) l.

(** A monitor of the two-component node array [x[1:2]] with three
    particles, conditioned on [y[1]] and [y[2]]. *)
Definition monitor_x : NodeArrayMonitor :=
  {| GetValues :=
       {| Dim := [2; 3];
          Values := [Vocabulary.double_one; sentinel;
                     Vocabulary.double_one; Vocabulary.double_one;
                     sentinel; Vocabulary.double_one] |};
     GetWeights :=
       {| Dim := [2; 3];
          Values := repeat Vocabulary.double_one 6 |};
     GetESS := {| Dim := [2]; Values := repeat Vocabulary.double_one 2 |};
     GetDiscrete := {| Dim := [2]; Values := repeat (S754_zero false) 2 |};
     GetIterations := {| Dim := [2]; Values := repeat (S754_zero false) 2 |};
     GetRange :=
       {| Lower := [1]; Upper := [2]; RangeDim := [2]; RangeLength := 2 |};
     GetConditionalNodeNames := [["y[1]"; "y[2]"]];
     GetName := "x[1:2]" |}.

(** A monitor of the single node [z] with three particles. *)
Definition monitor_z : NodeArrayMonitor :=
  {| GetValues := {| Dim := [1; 3]; Values := repeat Vocabulary.double_one 3 |};
     GetWeights := {| Dim := [1; 3]; Values := repeat Vocabulary.double_one 3 |};
     GetESS := {| Dim := [1]; Values := [Vocabulary.double_one] |};
     GetDiscrete := {| Dim := [1]; Values := [Vocabulary.double_one] |};
     GetIterations := {| Dim := [1]; Values := [Vocabulary.double_one] |};
     GetRange :=
       {| Lower := [1]; Upper := [1]; RangeDim := [1]; RangeLength := 1 |};
     GetConditionalNodeNames := [["y[1]"]];
     GetName := "z" |}.

Definition monitors : @StdMap.t string NodeArrayMonitor :=
  [("x", monitor_x); ("z", monitor_z)].

End Samples.


(* ================================================================== *)
(** * Part II: properties                                              *)
(* ================================================================== *)

Unset Implicit Arguments.

Import WtdStat Engine RbiipsUtils Process Vocabulary.
Local Open Scope Qc_scope.

(** ** Arithmetic on [Qc] *)

Lemma Qc_eq_Qeq (x y : Qc) : x = y -> (this x == this y)%Q.
Proof. intros ->. reflexivity. Qed.

Lemma Qc_neq_Qeq (x y : Qc) : x <> y -> ~ (this x == this y)%Q.
Proof. intros H E. apply H, Qc_is_canon, E. Qed.

(** Push a goal on [Qc] down to [Q], where [lra] and [nra] apply. *)
Ltac qc2q :=
  repeat match goal with
  | H : @eq Qc _ _ |- _ => apply Qc_eq_Qeq in H
  | H : ~ @eq Qc _ _ |- _ => apply Qc_neq_Qeq in H
  | |- @eq Qc _ _ => apply Qc_is_canon
  | |- ~ @eq Qc _ _ => let E := fresh in intro E
  end;
  unfold real, Qcle, Qclt, Qcdiv, Qcminus, Qcplus, Qcmult, Qcopp, Q2Qc in *;
  cbn [this] in *;
  rewrite ?Qred_correct in *.

Ltac qc_lra := qc2q; lra.


(** Evaluate a closed term and compare rationals by value. *)
Ltac qc_eval :=
  vm_compute;
  repeat first
    [ match goal with |- @eq Qc _ _ => apply Qc_is_canon; reflexivity end
    | reflexivity
    | progress f_equal ].

(** Decide a comparison between closed rationals. *)
Ltac qc_order :=
  unfold Qclt, Qcle, Qlt, Qle; vm_compute;
  first [ reflexivity | discriminate | intro; discriminate ].

Lemma Qcleb_le x y : Qcleb x y = true <-> x <= y.
Proof. unfold Qcleb, Qcle. apply Qle_bool_iff. Qed.

Lemma Qcltb_lt x y : Qcltb x y = true <-> x < y.
Proof.
  unfold Qcltb, Qclt. rewrite negb_true_iff.
  split; intro H.
  - apply Qnot_le_lt. intro Hle. apply Qle_bool_iff in Hle. congruence.
  - destruct (Qle_bool y x) eqn:E; [|reflexivity].
    apply Qle_bool_iff in E. exfalso. exact (Qlt_not_le _ _ H E).
Qed.

Lemma Qcltb_ge x y : Qcltb x y = false <-> y <= x.
Proof.
  rewrite <- not_true_iff_false, Qcltb_lt. split.
  - apply Qcnot_lt_le.
  - intros H1 H2. exact (Qcle_not_lt _ _ H1 H2).
Qed.

Lemma Qcleb_gt x y : Qcleb x y = false <-> y < x.
Proof.
  rewrite <- not_true_iff_false, Qcleb_le. split.
  - apply Qcnot_le_lt.
  - intros H1 H2. exact (Qclt_not_le _ _ H1 H2).
Qed.

Lemma Qceqb_eq x y : Qceqb x y = true <-> x = y.
Proof.
  unfold Qceqb. rewrite Qeq_bool_iff. split.
  - apply Qc_is_canon.
  - intros ->. reflexivity.
Qed.

Lemma Qceqb_neq x y : Qceqb x y = false <-> x <> y.
Proof. rewrite <- not_true_iff_false, Qceqb_eq. reflexivity. Qed.

(** ** The push loop *)

Section PushAll.
Context {A : Type}.
Variable push : Scalar -> Scalar -> A -> outcome A.
Variable step : Scalar -> Scalar -> A -> A.
Hypothesis push_guard : forall x w a,
  push x w a = if Qcltb w 0 then Throw InvalidArgument else Ret (step x w a).

Lemma push_all_nonneg obs : forall a,
  Forall (fun o : Obs => 0 <= snd o) obs ->
  push_all push obs a = (obs, Ret (run_steps step obs a)).
Proof.
  induction obs as [|[x w] obs IH]; intros a Hall; [reflexivity|].
  inversion Hall as [|? ? Hw Hrest]; subst. cbn [snd] in Hw.
  cbn [push_all]. unfold call_Push, bind.
  rewrite push_guard. apply Qcltb_ge in Hw. rewrite Hw.
  rewrite (IH _ Hrest). reflexivity.
Qed.

Lemma push_all_first_negative obs : forall a n o,
  nth_error obs n = Some o ->
  snd o < 0 ->
  (forall i o', (i < n)%nat -> nth_error obs i = Some o' -> 0 <= snd o') ->
  push_all push obs a = (firstn (S n) obs, Throw InvalidArgument).
Proof.
  induction obs as [|[x w] obs IH]; intros a n o Hn Hneg Hbefore.
  - destruct n; discriminate.
  - destruct n as [|n].
    + injection Hn as <-. cbn [snd] in Hneg.
      cbn [push_all]. unfold call_Push, bind.
      rewrite push_guard. apply Qcltb_lt in Hneg. rewrite Hneg. reflexivity.
    + cbn [nth_error] in Hn.
      assert (Hw : 0 <= w) by (apply (Hbefore 0%nat (x, w)); [lia | reflexivity]).
      cbn [push_all]. unfold call_Push, bind.
      rewrite push_guard. apply Qcltb_ge in Hw. rewrite Hw.
      rewrite (IH (step x w a) n o Hn Hneg).
      * reflexivity.
      * intros i o' Hi Ho'. apply (Hbefore (S i) o'); [lia | exact Ho'].
Qed.

(** Whatever the stream, the trace is a prefix of it. *)
Lemma push_all_trace_prefix obs : forall a,
  exists n, pushes (push_all push obs a) = firstn n obs.
Proof.
  induction obs as [|[x w] obs IH]; intros a.
  - exists 0%nat. reflexivity.
  - cbn [push_all]. unfold call_Push, bind. rewrite push_guard.
    destruct (Qcltb w 0).
    + exists 1%nat. reflexivity.
    + destruct (IH (step x w a)) as [n Hn].
      exists (S n). unfold pushes in *.
      destruct (push_all push obs (step x w a)) as [t r]. cbn in *. now subst.
Qed.
End PushAll.

(** The three modelled [Push] members share the guard on the weight. *)
Lemma push_moments_guard x w a :
  push_moments x w a
  = if Qcltb w 0 then Throw InvalidArgument else Ret (update x w a).
Proof. reflexivity. Qed.

Lemma push_quantiles_guard x w a :
  push_quantiles x w a
  = if Qcltb w 0 then Throw InvalidArgument else Ret (store_obs x w a).
Proof. reflexivity. Qed.

Lemma push_table_guard x w a :
  push_table x w a
  = if Qcltb w 0 then Throw InvalidArgument else Ret (add_to_bucket x w a).
Proof. reflexivity. Qed.

Lemma nth_error_combine {A B} (l : list A) (l' : list B) : forall n b,
  length l = length l' ->
  nth_error l' n = Some b ->
  exists a, nth_error (combine l l') n = Some (a, b).
Proof.
  revert l'. induction l as [|a l IH]; intros [|b' l'] n b Hlen Hn;
    try discriminate.
  - destruct n; discriminate.
  - destruct n as [|n]; cbn in *.
    + injection Hn as <-. eauto.
    + apply IH; [lia | exact Hn].
Qed.

Lemma nth_error_combine_snd {A B} (l : list A) (l' : list B) : forall n o,
  nth_error (combine l l') n = Some o ->
  nth_error l' n = Some (snd o).
Proof.
  revert l'. induction l as [|a l IH]; intros [|b' l'] n o Hn;
    try (destruct n; discriminate).
  destruct n as [|n]; cbn in *.
  - injection Hn as <-. reflexivity.
  - apply IH. exact Hn.
Qed.

(** ** The length check *)

Lemma length_check_fails (values weights : list Scalar) :
  length values <> length weights ->
  negb (length values =? length weights) = true.
Proof. intro H. apply negb_true_iff, Nat.eqb_neq, H. Qed.

Lemma length_check_passes (values weights : list Scalar) :
  length values = length weights ->
  negb (length values =? length weights) = false.
Proof. intro H. apply negb_false_iff, Nat.eqb_eq, H. Qed.

Section AnyAccumulators.
Context {AC : AccumulatorClass} {QC : QuantileAccumulatorClass}
        {DC : DiscreteAccumulatorClass}.

Lemma accumulate_mismatch values weights fs :
  length values <> length weights ->
  accumulate values weights fs = throw LengthMismatch.
Proof.
  intro H. unfold accumulate. now rewrite length_check_fails by exact H.
Qed.

(** C1. For value and weight sequences of different lengths, each of the nine
    statistics entry points fails with the length-mismatch error, and no
    [Push] has been invoked on any accumulator, whatever the accumulator
    classes do. *)
Theorem length_mismatch_rejected (c : StatCall) :
  length (values_of c) <> length (weights_of c) ->
  pushes (run_stat c) = [] /\
  result (run_stat c) = Throw LengthMismatch.
Proof.
  intro H.
  destruct c; cbn [values_of weights_of run_stat] in *;
    unfold wtd_stat, wtd_mean, wtd_var, wtd_skew, wtd_kurt,
           wtd_quantile, wtd_median, wtd_table, wtd_mode;
    rewrite ?accumulate_mismatch, ?length_check_fails by exact H;
    split; reflexivity.
Qed.
End AnyAccumulators.

Lemma length_mismatch_rejected_witness :
  pushes (wtd_mean (AC := moments (fun x _ => x))
            [real 1 1; real 2 1; real 3 1] [real 1 1; real 1 1]) = [] /\
  result (wtd_mean (AC := moments (fun x _ => x))
            [real 1 1; real 2 1; real 3 1] [real 1 1; real 1 1])
    = Throw LengthMismatch.
Proof.
  apply (length_mismatch_rejected
           (AC := moments (fun x _ => x)) (QC := quantiles) (DC := discrete)
           (Call_wtd_mean [real 1 1; real 2 1; real 3 1] [real 1 1; real 1 1])).
  simpl. lia.
Defined.

(** ** Invalid arguments *)

Lemma add_features_in_range {AC : AccumulatorClass} (order : nat) :
  (1 <= order <= 4)%nat ->
  exists accu, add_features (range features order) new_Accumulator = ret accu.
Proof.
  intros [Hlo Hhi].
  destruct order as [|[|[|[|[|order]]]]]; try lia; eexists; reflexivity.
Qed.

Lemma new_quantiles_valid ps :
  Forall (fun p => 0 <= p <= 1) ps ->
  new_quantiles ps = Ret {| probs := ps; sample := [] |}.
Proof.
  intro H. unfold new_quantiles.
  replace (forallb _ ps) with true; [reflexivity|].
  symmetry. apply forallb_forall. intros p Hp.
  rewrite Forall_forall in H. destruct (H p Hp) as [H0 H1].
  apply andb_true_iff. split; apply Qcleb_le; assumption.
Qed.

Lemma new_quantiles_invalid ps :
  Exists (fun p => p < 0 \/ 1 < p) ps ->
  new_quantiles ps = Throw InvalidArgument.
Proof.
  intro H. unfold new_quantiles.
  replace (forallb _ ps) with false; [reflexivity|].
  symmetry. apply not_true_iff_false. intro Hall.
  rewrite forallb_forall in Hall. apply Exists_exists in H.
  destruct H as [p [Hp Hbad]]. specialize (Hall p Hp).
  apply andb_true_iff in Hall. destruct Hall as [H0 H1].
  apply Qcleb_le in H0, H1.
  destruct Hbad as [Hbad|Hbad].
  - exact (Qclt_not_le _ _ Hbad H0).
  - exact (Qclt_not_le _ _ Hbad H1).
Qed.

Lemma first_negative_in_stream (values weights : list Scalar) n w :
  length values = length weights ->
  nth_error weights n = Some w ->
  w < 0 ->
  (forall i w', (i < n)%nat -> nth_error weights i = Some w' -> 0 <= w') ->
  exists o,
    nth_error (combine values weights) n = Some o /\ snd o < 0 /\
    forall i o', (i < n)%nat ->
      nth_error (combine values weights) i = Some o' -> 0 <= snd o'.
Proof.
  intros Hlen Hn Hneg Hbefore.
  destruct (nth_error_combine values weights n w Hlen Hn) as [x Hx].
  exists (x, w). repeat split; [exact Hx | exact Hneg |].
  intros i o' Hi Ho'. apply (Hbefore i); [exact Hi|].
  eapply nth_error_combine_snd, Ho'.
Qed.

(** Whatever the accumulator does, a stream that is not empty has its first
    pair pushed before a moment request can end. *)
Lemma first_pair_is_pushed {AC : AccumulatorClass} x w values weights :
  length values = length weights ->
  exists rest, pushes (wtd_mean (x :: values) (w :: weights)) = (x, w) :: rest.
Proof.
  intro Hlen. unfold wtd_mean, accumulate.
  rewrite length_check_passes by (cbn; now rewrite Hlen).
  cbn [range seq map nth_error add_features combine push_all].
  unfold call_Push. cbn [ret bind app].
  destruct (Push x w _) as [a|e|]; [|eexists; reflexivity..].
  destruct (push_all Push (combine values weights) a) as [t [a'|e|]];
    cbn [bind app]; [|eexists; reflexivity..].
  destruct (Mean a'); cbn; eexists; reflexivity.
Qed.

Section Modelled.
Variable pow : Scalar -> Scalar -> Scalar.

Local Abbreviation run_stat :=
  (run_stat (AC := moments pow) (QC := quantiles) (DC := discrete)).

(** C2, as the code has it.  The entry points do not validate their arguments
    themselves.  With sequences of equal length: a probability level outside
    [0,1] is rejected with InvalidArgument when the quantile accumulator is
    built, before any [Push]; a negative weight is rejected with
    InvalidArgument by the [Push] that receives it, so that exactly the pairs
    up to and including the first negative weight have been passed to [Push]
    (for [wtd_stat] with an order from 1 to 4, for [wtd_quantile] with
    probability levels in [0,1]). *)
Theorem invalid_argument_detection (c : StatCall) :
  length (values_of c) = length (weights_of c) ->
  (forall v w ps,
      c = Call_wtd_quantile v w ps ->
      Exists (fun p => p < 0 \/ 1 < p) ps ->
      pushes (run_stat c) = [] /\
      result (run_stat c) = Throw InvalidArgument) /\
  (well_formed_request c ->
   forall n w,
      nth_error (weights_of c) n = Some w ->
      w < 0 ->
      (forall i w', (i < n)%nat ->
         nth_error (weights_of c) i = Some w' -> 0 <= w') ->
      pushes (run_stat c)
        = firstn (S n) (combine (values_of c) (weights_of c)) /\
      result (run_stat c) = Throw InvalidArgument).
Proof.
  intro Hlen. split.
  - intros v w ps -> Hbad. cbn [values_of weights_of] in Hlen.
    cbn [Process.run_stat]. unfold wtd_quantile.
    rewrite length_check_passes by exact Hlen.
    cbn [new_QuantileAccumulator quantiles].
    rewrite new_quantiles_invalid by exact Hbad.
    split; reflexivity.
  - intros Hwf n w Hn Hneg Hbefore.
    destruct (first_negative_in_stream _ _ n w Hlen Hn Hneg Hbefore)
      as [o [Ho [Hso Hpre]]].
    pose proof (fun a => push_all_first_negative push_moments update
                           push_moments_guard _ a n o Ho Hso Hpre) as HP.
    pose proof (fun a => push_all_first_negative push_quantiles store_obs
                           push_quantiles_guard _ a n o Ho Hso Hpre) as HQ.
    pose proof (fun a => push_all_first_negative push_table add_to_bucket
                           push_table_guard _ a n o Ho Hso Hpre) as HD.
    destruct c; cbn [values_of weights_of Process.run_stat well_formed_request] in *;
      unfold wtd_stat, wtd_mean, wtd_var, wtd_skew, wtd_kurt, accumulate,
             wtd_quantile, wtd_median, wtd_table, wtd_mode;
      rewrite length_check_passes by exact Hlen.
    + destruct (add_features_in_range (AC := moments pow) order Hwf) as [accu ->].
      cbn [bind ret app Push moments]. rewrite HP. split; reflexivity.
    + cbn [range seq map nth_error add_features bind ret app Push moments].
      rewrite HP. split; reflexivity.
    + cbn [range seq map nth_error add_features bind ret app Push moments].
      rewrite HP. split; reflexivity.
    + cbn [range seq map nth_error add_features bind ret app Push moments].
      rewrite HP. split; reflexivity.
    + cbn [range seq map nth_error add_features bind ret app Push moments].
      rewrite HP. split; reflexivity.
    + cbn [new_QuantileAccumulator QPush quantiles].
      rewrite new_quantiles_valid by exact Hwf.
      cbn [lift bind app]. rewrite HQ. split; reflexivity.
    + cbn [new_QuantileAccumulator QPush quantiles].
      rewrite new_quantiles_valid
        by (repeat constructor; apply Qcleb_le; reflexivity).
      cbn [lift bind app]. rewrite HQ. split; reflexivity.
    + cbn [DPush discrete]. rewrite HD. split; reflexivity.
    + cbn [DPush discrete]. rewrite HD. split; reflexivity.
Qed.
End Modelled.

Lemma invalid_argument_detection_witness :
  (pushes (wtd_quantile (QC := quantiles) [real 1 1] [real 1 1] [real 3 2]) = [] /\
   result (wtd_quantile (QC := quantiles) [real 1 1] [real 1 1] [real 3 2])
     = Throw InvalidArgument) /\
  (pushes (wtd_mean (AC := moments (fun x _ => x))
             [real 1 1; real 2 1; real 3 1]
             [real 1 1; real (-1) 1; real 1 1])
     = [(real 1 1, real 1 1); (real 2 1, real (-1) 1)] /\
   result (wtd_mean (AC := moments (fun x _ => x))
             [real 1 1; real 2 1; real 3 1]
             [real 1 1; real (-1) 1; real 1 1])
     = Throw InvalidArgument).
Proof.
  split.
  - apply (proj1 (invalid_argument_detection (fun x _ => x)
                    (Call_wtd_quantile [real 1 1] [real 1 1] [real 3 2])
                    eq_refl)
             [real 1 1] [real 1 1] [real 3 2] eq_refl).
    constructor. right. qc_order.
  - apply (proj2 (invalid_argument_detection (fun x _ => x)
                    (Call_wtd_mean [real 1 1; real 2 1; real 3 1]
                                   [real 1 1; real (-1) 1; real 1 1])
                    eq_refl)
             I 1%nat (real (-1) 1) eq_refl).
    + qc_order.
    + intros i w' Hi Hw'. destruct i as [|i]; [|lia].
      injection Hw' as <-. qc_order.
Defined.

(** C2 as stated fails: with weights [1, -1] the request is rejected with
    InvalidArgument only by the second [Push], after the pair (1, 1) has been
    pushed; and an order of 0 is not rejected at all: every pair is pushed
    and the store into the empty result vector is out of bounds. *)
Lemma invalid_argument_before_push_counterexample :
  (In (real (-1) 1) [real 1 1; real (-1) 1] /\ real (-1) 1 < 0 /\
   result (wtd_mean (AC := moments (fun x _ => x))
             [real 1 1; real 2 1] [real 1 1; real (-1) 1])
     = Throw InvalidArgument /\
   pushes (wtd_mean (AC := moments (fun x _ => x))
             [real 1 1; real 2 1] [real 1 1; real (-1) 1])
     = [(real 1 1, real 1 1); (real 2 1, real (-1) 1)] /\
   pushes (wtd_mean (AC := moments (fun x _ => x))
             [real 1 1; real 2 1] [real 1 1; real (-1) 1]) <> []) /\
  (~ (1 <= 0 <= 4)%nat /\
   result (wtd_stat (AC := moments (fun x _ => x)) [real 1 1] [real 1 1] 0)
     = Undefined /\
   pushes (wtd_stat (AC := moments (fun x _ => x)) [real 1 1] [real 1 1] 0)
     = [(real 1 1, real 1 1)]).
Proof.
  split; [split; [|split; [|split; [|split]]] | split; [|split]].
  - right. left. reflexivity.
  - qc_order.
  - reflexivity.
  - reflexivity.
  - discriminate.
  - lia.
  - reflexivity.
  - reflexivity.
Qed.

(** ** Median and quantile *)

(** C3, as the code has it.  On every stream, and whatever the quantile
    accumulator does, [wtd_median] and [wtd_quantile] with the single
    probability level 0.5 invoke the same pushes and end the same way: the
    same error, or the same number.  The two results are not the same
    object: the vector [wtd_quantile] returns is the one [wtd_median]
    returns labelled with the probability level, and [wtd_median] returns a
    vector without names, so that whenever [wtd_median] returns a vector,
    [wtd_quantile] returns a different one. *)
Theorem median_is_quantile_at_half {QC : QuantileAccumulatorClass}
    (values weights : list Scalar) :
  wtd_quantile values weights [real 1 2]
    = map_result (with_names [real 1 2]) (wtd_median values weights) /\
  map_result WtdStat.values (wtd_quantile values weights [real 1 2])
    = map_result WtdStat.values (wtd_median values weights) /\
  (forall r,
      result (wtd_median values weights) = Ret r ->
      names_attr r = None /\
      result (wtd_quantile values weights [real 1 2])
        = Ret (with_names [real 1 2] r) /\
      result (wtd_quantile values weights [real 1 2]) <> Ret r).
Proof.
  assert (E : wtd_quantile values weights [real 1 2]
              = map_result (with_names [real 1 2]) (wtd_median values weights)).
  { unfold wtd_quantile, wtd_median.
    destruct (negb (length values =? length weights)); [reflexivity|].
    destruct (new_QuantileAccumulator [real 1 2]) as [accu0|e|];
      [|reflexivity..].
    cbn [lift bind app length seq mapM].
    destruct (push_all QPush (combine values weights) _) as [t [accu|e|]];
      cbn [bind]; try reflexivity.
    destruct (Quantile accu 0) as [q|e|]; reflexivity. }
  split; [exact E|]. split.
  - rewrite E. unfold map_result, pushes, result. cbn [fst snd].
    destruct (wtd_median values weights) as [t [v|e|]]; reflexivity.
  - intros r Hr.
    assert (Hnames : names_attr r = None).
    { unfold wtd_median, result in Hr.
      destruct (negb (length values =? length weights)); [discriminate|].
      destruct (new_QuantileAccumulator [real 1 2]) as [accu0|e|];
        try discriminate.
      cbn [lift bind app] in Hr.
      destruct (push_all QPush (combine values weights) (QInit accu0))
        as [t [accu|e|]]; cbn [bind] in Hr; try discriminate.
      destruct (Quantile accu 0) as [q|e|]; cbn in Hr; try discriminate.
      injection Hr as <-. reflexivity. }
    assert (Hq : result (wtd_quantile values weights [real 1 2])
                 = Ret (with_names [real 1 2] r)).
    { rewrite E. unfold map_result, result in *. cbn [snd]. now rewrite Hr. }
    split; [exact Hnames|]. split; [exact Hq|].
    rewrite Hq. intros [= H]. rewrite <- H in Hnames. discriminate.
Qed.

(** C3 as stated fails: on the values 1, 2, 3, 4 with unit weights both
    entry points return the number 2, [wtd_median] as a bare vector and
    [wtd_quantile] as a vector named after the level 0.5, and the two
    results are not equal. *)
Lemma median_same_as_quantile_counterexample :
  result (wtd_median (QC := quantiles)
            [real 1 1; real 2 1; real 3 1; real 4 1]
            [real 1 1; real 1 1; real 1 1; real 1 1])
    = Ret {| WtdStat.values := [real 2 1];
             names_attr := None;
             class_attr := None |} /\
  result (wtd_quantile (QC := quantiles)
            [real 1 1; real 2 1; real 3 1; real 4 1]
            [real 1 1; real 1 1; real 1 1; real 1 1] [real 1 2])
    = Ret {| WtdStat.values := [real 2 1];
             names_attr := Some (AsCharacter [real 1 2]);
             class_attr := None |} /\
  wtd_median (QC := quantiles)
    [real 1 1; real 2 1; real 3 1; real 4 1]
    [real 1 1; real 1 1; real 1 1; real 1 1]
  <> wtd_quantile (QC := quantiles)
       [real 1 1; real 2 1; real 3 1; real 4 1]
       [real 1 1; real 1 1; real 1 1; real 1 1] [real 1 2].
Proof.
  split; [reflexivity|]. split; [reflexivity|].
  intro H. apply (f_equal result) in H. discriminate H.
Qed.

(** ** The weighted quantile *)

Lemma insert_by_value_perm o l : Permutation (insert_by_value o l) (o :: l).
Proof.
  induction l as [|o' l IH]; cbn [insert_by_value]; [reflexivity|].
  destruct (Qcleb (fst o) (fst o')); [reflexivity|].
  rewrite IH. apply perm_swap.
Qed.

Lemma sort_by_value_perm l : Permutation (sort_by_value l) l.
Proof.
  induction l as [|o l IH]; cbn; [reflexivity|].
  fold (sort_by_value l). rewrite insert_by_value_perm. now constructor.
Qed.

Lemma insert_by_value_sorted o l :
  StronglySorted by_value l -> StronglySorted by_value (insert_by_value o l).
Proof.
  induction 1 as [|o' l Hs IH Hall]; cbn [insert_by_value].
  - repeat constructor.
  - destruct (Qcleb (fst o) (fst o')) eqn:E.
    + apply Qcleb_le in E. constructor; [now constructor|].
      constructor; [exact E|].
      revert Hall. apply Forall_impl. intros b Hb. unfold by_value in *.
      eapply Qcle_trans; eassumption.
    + apply Qcleb_gt in E. constructor; [exact IH|].
      assert (Hp : Permutation (o :: l) (insert_by_value o l))
        by (symmetry; apply insert_by_value_perm).
      apply (Permutation_Forall Hp).
      constructor; [|exact Hall]. apply Qclt_le_weak, E.
Qed.

Lemma sort_by_value_sorted l : StronglySorted by_value (sort_by_value l).
Proof.
  induction l as [|o l IH]; cbn; [constructor|].
  apply insert_by_value_sorted, IH.
Qed.

Lemma cum_weight_cons x o l :
  cum_weight x (o :: l)
  = if Qcleb (fst o) x then snd o + cum_weight x l else cum_weight x l.
Proof. reflexivity. Qed.

Lemma total_weight_cons o l : total_weight (o :: l) = snd o + total_weight l.
Proof. reflexivity. Qed.

Lemma total_weight_perm l l' :
  Permutation l l' -> total_weight l = total_weight l'.
Proof.
  induction 1 as [|o l l' _ IH|a b l|l1 l2 l3 _ IH1 _ IH2];
    rewrite ?total_weight_cons.
  - reflexivity.
  - now rewrite IH.
  - ring.
  - congruence.
Qed.

Lemma cum_weight_perm x l l' :
  Permutation l l' -> cum_weight x l = cum_weight x l'.
Proof.
  induction 1 as [|o l l' _ IH|a b l|l1 l2 l3 _ IH1 _ IH2];
    rewrite ?cum_weight_cons.
  - reflexivity.
  - now rewrite IH.
  - destruct (Qcleb (fst a) x), (Qcleb (fst b) x); try reflexivity. ring.
  - congruence.
Qed.

Lemma cum_weight_nonneg x l :
  Forall (fun o : Obs => 0 <= snd o) l -> 0 <= cum_weight x l.
Proof.
  induction 1 as [|o l Ho _ IH]; [apply Qcle_refl|].
  rewrite cum_weight_cons. destruct (Qcleb _ x); [|exact IH].
  qc_lra.
Qed.

Lemma total_weight_nonneg l :
  Forall (fun o : Obs => 0 <= snd o) l -> 0 <= total_weight l.
Proof.
  induction 1 as [|o l Ho _ IH]; [apply Qcle_refl|].
  rewrite total_weight_cons. qc_lra.
Qed.

(** Below the smallest value the cumulative weight is zero. *)
Lemma cum_weight_below x l :
  Forall (fun o : Obs => x < fst o) l -> cum_weight x l = 0.
Proof.
  induction 1 as [|o l Ho _ IH]; [reflexivity|].
  rewrite cum_weight_cons. apply Qcleb_gt in Ho. now rewrite Ho.
Qed.

Lemma first_reaching_exists t l : forall c,
  l <> [] ->
  t <= c + total_weight l ->
  exists q, first_reaching t c l = Some q.
Proof.
  induction l as [|[y w] l IH]; intros c Hne Ht; [congruence|].
  cbn [first_reaching]. destruct (Qcleb t (c + w)) eqn:E; [eauto|].
  apply Qcleb_gt in E. rewrite total_weight_cons in Ht. cbn [snd] in Ht.
  apply IH.
  - intros ->. cbn in Ht. qc_lra.
  - qc_lra.
Qed.

Lemma first_reaching_In t l : forall c q,
  first_reaching t c l = Some q -> In q (map fst l).
Proof.
  induction l as [|[y w] l IH]; intros c q H; [discriminate|].
  cbn [first_reaching] in H. destruct (Qcleb t (c + w)).
  - injection H as <-. now left.
  - right. eapply IH, H.
Qed.

Lemma sorted_head_le y w l x :
  StronglySorted by_value ((y, w) :: l) -> In x (map fst ((y, w) :: l)) ->
  y <= x.
Proof.
  intros Hs [<-|Hx]; [apply Qcle_refl|].
  apply StronglySorted_inv in Hs. destruct Hs as [_ Hall].
  apply in_map_iff in Hx. destruct Hx as [o [<- Ho]].
  rewrite Forall_forall in Hall. exact (Hall o Ho).
Qed.

Lemma first_reaching_reaches t l : forall c q,
  StronglySorted by_value l ->
  Forall (fun o : Obs => 0 <= snd o) l ->
  first_reaching t c l = Some q ->
  t <= c + cum_weight q l.
Proof.
  induction l as [|[y w] l IH]; intros c q Hs Hnn H; [discriminate|].
  cbn [first_reaching] in H. rewrite cum_weight_cons. cbn [fst snd].
  inversion Hnn as [|? ? Hw Hnn']; subst. cbn [snd] in Hw.
  destruct (Qcleb t (c + w)) eqn:E.
  - injection H as <-. apply Qcleb_le in E.
    replace (Qcleb y y) with true by (symmetry; apply Qcleb_le, Qcle_refl).
    pose proof (cum_weight_nonneg y l Hnn'). qc_lra.
  - assert (Hyq : y <= q).
    { apply (sorted_head_le y w l q Hs). right. eapply first_reaching_In, H. }
    apply Qcleb_le in Hyq. rewrite Hyq.
    apply StronglySorted_inv in Hs. destruct Hs as [Hs _].
    specialize (IH _ _ Hs Hnn' H). qc_lra.
Qed.

(** Started below the target, the scan stops at the least point, observed or
    not, at which the cumulative weight reaches the target. *)
Lemma first_reaching_least t l : forall c q,
  StronglySorted by_value l ->
  c < t ->
  first_reaching t c l = Some q ->
  forall x, t <= c + cum_weight x l -> q <= x.
Proof.
  induction l as [|[y w] l IH]; intros c q Hs Hc H x Hx; [discriminate|].
  cbn [first_reaching] in H.
  assert (Hyx : y <= x).
  { apply Qcnot_lt_le. intro Hlt.
    rewrite cum_weight_below in Hx.
    - qc_lra.
    - constructor; [exact Hlt|].
      apply StronglySorted_inv in Hs. destruct Hs as [_ Hall].
      revert Hall. apply Forall_impl. intros o Ho. unfold by_value in Ho.
      cbn [fst] in Ho. eapply Qclt_le_trans; eassumption. }
  destruct (Qcleb t (c + w)) eqn:E.
  - injection H as <-. exact Hyx.
  - apply Qcleb_gt in E.
    rewrite cum_weight_cons in Hx. cbn [fst snd] in Hx.
    apply Qcleb_le in Hyx. rewrite Hyx in Hx.
    apply StronglySorted_inv in Hs. destruct Hs as [Hs _].
    apply (IH (c + w) q Hs E H x). qc_lra.
Qed.

Lemma first_reaching_least_observed t l c q :
  StronglySorted by_value l ->
  first_reaching t c l = Some q ->
  forall x, In x (map fst l) -> t <= c + cum_weight x l -> q <= x.
Proof.
  destruct l as [|[y w] l]; intros Hs H x Hin Hx; [discriminate|].
  pose proof (sorted_head_le y w l x Hs Hin) as Hyx.
  cbn [first_reaching] in H.
  destruct (Qcleb t (c + w)) eqn:E.
  - injection H as <-. exact Hyx.
  - apply Qcleb_gt in E.
    rewrite cum_weight_cons in Hx. cbn [fst snd] in Hx.
    apply Qcleb_le in Hyx. rewrite Hyx in Hx.
    apply StronglySorted_inv in Hs. destruct Hs as [Hs _].
    apply (first_reaching_least t l (c + w) q Hs E H x). qc_lra.
Qed.

Lemma run_steps_cons {A} (step : Scalar -> Scalar -> A -> A) o obs a :
  run_steps step (o :: obs) a = run_steps step obs (step (fst o) (snd o) a).
Proof. reflexivity. Qed.

Lemma store_obs_run_steps obs : forall a,
  probs (run_steps store_obs obs a) = probs a /\
  sample (run_steps store_obs obs a) = sample a ++ obs.
Proof.
  induction obs as [|[x w] obs IH]; intros a.
  - cbn. now rewrite app_nil_r.
  - rewrite run_steps_cons. cbn [fst snd].
    destruct (IH (store_obs x w a)) as [-> ->].
    cbn. now rewrite <- app_assoc.
Qed.

Lemma combine_nonneg (values weights : list Scalar) :
  Forall (fun w => 0 <= w) weights ->
  Forall (fun o : Obs => 0 <= snd o) (combine values weights).
Proof.
  intro H. apply Forall_forall. intros [x w] Hin.
  apply in_combine_r in Hin. rewrite Forall_forall in H. exact (H w Hin).
Qed.

Lemma get_quantile_inverse_cdf a i p :
  nth_error (probs a) i = Some p ->
  0 <= p <= 1 ->
  Forall (fun o : Obs => 0 <= snd o) (sample a) ->
  0 < total_weight (sample a) ->
  exists q, get_quantile a i = Ret q /\ inverse_cdf (sample a) p q.
Proof.
  intros Hp [Hp0 Hp1] Hnn HW.
  pose proof (sort_by_value_perm (sample a)) as Hperm.
  pose proof (sort_by_value_sorted (sample a)) as Hsorted.
  assert (Hnn' : Forall (fun o : Obs => 0 <= snd o) (sort_by_value (sample a)))
    by (apply (Permutation_Forall (Permutation_sym Hperm)), Hnn).
  assert (Hne : sample a <> []) by (intro E; rewrite E in HW; cbn in HW; qc_lra).
  assert (Hne' : sort_by_value (sample a) <> []).
  { intro E. rewrite E in Hperm. apply Permutation_nil in Hperm. congruence. }
  destruct (first_reaching_exists (p * total_weight (sample a))
              (sort_by_value (sample a)) 0 Hne') as [q Hq].
  { rewrite (total_weight_perm _ _ Hperm). qc2q. nra. }
  exists q. split.
  - unfold get_quantile. rewrite Hp.
    destruct (sample a) as [|o s] eqn:Es; [congruence|].
    replace (Qceqb (total_weight (o :: s)) 0) with false.
    + now rewrite Hq.
    + symmetry. apply Qceqb_neq. intro E. rewrite E in HW. qc_lra.
  - unfold inverse_cdf. repeat split.
    + apply (Permutation_in _ (Permutation_map fst Hperm)).
      eapply first_reaching_In, Hq.
    + pose proof (first_reaching_reaches _ _ _ _ Hsorted Hnn' Hq) as H.
      rewrite (cum_weight_perm q _ _ Hperm) in H. qc_lra.
    + intros x Hx Hreach.
      apply (first_reaching_least_observed _ _ _ _ Hsorted Hq).
      * apply (Permutation_in _ (Permutation_sym (Permutation_map fst Hperm))), Hx.
      * rewrite (cum_weight_perm x _ _ Hperm). qc_lra.
Qed.

Lemma mapM_get_quantile a (P : Scalar -> Scalar -> Prop) ps : forall k,
  (forall j p, nth_error ps j = Some p ->
               exists q, get_quantile a (k + j) = Ret q /\ P p q) ->
  exists qs,
    mapM (fun i => lift (get_quantile a i)) (seq k (length ps)) = ret qs /\
    Forall2 P ps qs.
Proof.
  induction ps as [|p ps IH]; intros k H.
  - exists []. split; [reflexivity | constructor].
  - destruct (H 0%nat p eq_refl) as [q [Hq HP]].
    rewrite Nat.add_0_r in Hq.
    destruct (IH (S k)) as [qs [Hqs HPs]].
    { intros j p' Hj. rewrite Nat.add_succ_comm. apply (H (S j) p' Hj). }
    exists (q :: qs). split; [|now constructor].
    cbn [length seq mapM]. rewrite Hq, Hqs. reflexivity.
Qed.

(** C4. On a non-empty stream with non-negative weights and total weight
    [W > 0], for probability levels in [0,1], [wtd_quantile] returns for each
    level [p] the smallest observed value whose cumulative weight (the weight
    of all observations with a value at most that value) is at least
    [p * W]. *)
Theorem quantile_is_inverse_cdf (values weights ps : list Scalar) :
  length values = length weights ->
  Forall (fun w => 0 <= w) weights ->
  0 < total_weight (combine values weights) ->
  Forall (fun p => 0 <= p <= 1) ps ->
  exists quant_vec,
    wtd_quantile (QC := quantiles) values weights ps
      = (combine values weights,
         Ret {| WtdStat.values := quant_vec;
                names_attr := Some (AsCharacter ps);
                class_attr := None |}) /\
    Forall2 (inverse_cdf (combine values weights)) ps quant_vec.
Proof.
  intros Hlen Hnn HW Hprobs.
  pose proof (combine_nonneg values weights Hnn) as Hobs.
  set (obs := combine values weights) in *.
  set (accu := run_steps store_obs obs
                 (init_quantiles {| probs := ps; sample := [] |})).
  destruct (store_obs_run_steps obs
              (init_quantiles {| probs := ps; sample := [] |}))
    as [Hprobs' Hsample]. fold accu in Hprobs', Hsample. cbn in Hprobs', Hsample.
  destruct (mapM_get_quantile accu (inverse_cdf obs) ps 0) as [qs [Hqs HP]].
  { intros j p Hj. cbn [Nat.add]. rewrite <- Hsample.
    apply get_quantile_inverse_cdf.
    - now rewrite Hprobs'.
    - rewrite Forall_forall in Hprobs. apply Hprobs.
      eapply nth_error_In, Hj.
    - now rewrite Hsample.
    - now rewrite Hsample. }
  exists qs. split; [|exact HP].
  unfold wtd_quantile. rewrite length_check_passes by exact Hlen.
  cbn [new_QuantileAccumulator QInit QPush Quantile quantiles].
  rewrite new_quantiles_valid by exact Hprobs.
  cbn [lift bind app]. fold obs.
  rewrite (push_all_nonneg push_quantiles store_obs push_quantiles_guard
             obs _ Hobs).
  fold accu. cbn [bind]. rewrite Hqs.
  unfold bind, ret. cbn [app]. now rewrite app_nil_r.
Qed.

Lemma quantile_is_inverse_cdf_witness :
  exists quant_vec,
    wtd_quantile (QC := quantiles)
                 [real 10 1; real 20 1; real 30 1; real 40 1]
                 [real 1 1; real 1 1; real 1 1; real 1 1] [real 1 2]
      = (combine [real 10 1; real 20 1; real 30 1; real 40 1]
                 [real 1 1; real 1 1; real 1 1; real 1 1],
         Ret {| WtdStat.values := quant_vec;
                names_attr := Some (AsCharacter [real 1 2]);
                class_attr := None |}) /\
    Forall2 (inverse_cdf (combine [real 10 1; real 20 1; real 30 1; real 40 1]
                                  [real 1 1; real 1 1; real 1 1; real 1 1]))
            [real 1 2] quant_vec.
Proof.
  apply quantile_is_inverse_cdf.
  - reflexivity.
  - repeat constructor; qc_order.
  - qc_order.
  - repeat constructor; qc_order.
Defined.

(** The tie rule on the specification's example: with equal weights on
    10, 20, 30, 40 the median is 20, the lower of the two middle values. *)
Example median_of_four :
  result (wtd_median (QC := quantiles)
                     [real 10 1; real 20 1; real 30 1; real 40 1]
                     [real 1 1; real 1 1; real 1 1; real 1 1])
  = Ret (wrap (real 20 1)).
Proof. qc_eval. Qed.

(** ** The moment entry points *)

Lemma push_all_result {A} (push : Scalar -> Scalar -> A -> outcome A)
    (step : Scalar -> Scalar -> A -> A) :
  (forall x w a,
      push x w a = if Qcltb w 0 then Throw InvalidArgument
                   else Ret (step x w a)) ->
  forall obs a,
    result (push_all push obs a)
    = if all_nonneg obs then Ret (run_steps step obs a)
      else Throw InvalidArgument.
Proof.
  intros Hguard obs. induction obs as [|[x w] obs IH]; intros a.
  - reflexivity.
  - cbn [push_all all_nonneg forallb snd]. unfold call_Push, bind.
    rewrite Hguard. destruct (Qcltb w 0); [reflexivity|].
    cbn [negb andb]. specialize (IH (step x w a)).
    unfold result in *. destruct (push_all push obs (step x w a)) as [t r].
    cbn [snd] in *. rewrite IH. reflexivity.
Qed.

Lemma feats_update x w a : feats (update x w a) = feats a.
Proof. reflexivity. Qed.

Lemma tracked_update k x w a : tracked k (update x w a) = tracked k a.
Proof. reflexivity. Qed.

Lemma tracks_update k x w a : tracks k a -> tracks k (update x w a).
Proof. intros H j Hj. rewrite tracked_update. exact (H j Hj). Qed.

Lemma update_agree k x w a b :
  tracks k a -> tracks k b -> agree k a b ->
  agree k (update x w a) (update x w b).
Proof.
  intros Ta Tb (HW & Hm & H2 & H3 & H4).
  unfold agree, update. cbn [sum_w mean M2 M3 M4].
  rewrite HW, Hm. repeat split; intro Hk.
  - rewrite (Ta 2%nat), (Tb 2%nat), (H2 Hk) by lia. reflexivity.
  - rewrite (Ta 3%nat), (Tb 3%nat), (H2 ltac:(lia)), (H3 Hk) by lia.
    reflexivity.
  - rewrite (Ta 4%nat), (Tb 4%nat), (H2 ltac:(lia)), (H3 ltac:(lia)), (H4 Hk)
      by lia.
    reflexivity.
Qed.

Lemma run_steps_agree k obs : forall a b,
  tracks k a -> tracks k b -> agree k a b ->
  agree k (run_steps update obs a) (run_steps update obs b).
Proof.
  induction obs as [|[x w] obs IH]; intros a b Ta Tb Hab; [exact Hab|].
  rewrite !run_steps_cons. cbn [fst snd].
  apply IH; auto using tracks_update, update_agree.
Qed.

Lemma get_mean_agree k a b : agree k a b -> get_mean a = get_mean b.
Proof. intros (HW & Hm & _). unfold get_mean. now rewrite HW, Hm. Qed.

Lemma get_variance_agree k a b :
  (2 <= k)%nat -> agree k a b -> get_variance a = get_variance b.
Proof.
  intros Hk (HW & _ & H2 & _). unfold get_variance. now rewrite HW, (H2 Hk).
Qed.

Lemma get_skewness_agree pow k a b :
  (3 <= k)%nat -> agree k a b -> get_skewness pow a = get_skewness pow b.
Proof.
  intros Hk (HW & _ & H2 & H3 & _). unfold get_skewness.
  now rewrite HW, (H2 ltac:(lia)), (H3 Hk).
Qed.

Lemma get_kurtosis_agree k a b :
  (4 <= k)%nat -> agree k a b -> get_kurtosis a = get_kurtosis b.
Proof.
  intros Hk (HW & _ & H2 & _ & H4). unfold get_kurtosis.
  now rewrite HW, (H2 ltac:(lia)), (H4 Hk).
Qed.

Lemma result_bind {A B} (m : M A) (f : A -> M B) :
  result (bind m f) = and_then (result m) (fun a => result (f a)).
Proof.
  destruct m as [t [a|e|]]; cbn; try reflexivity.
  now destruct (f a).
Qed.

Lemma result_lift {A} (o : outcome A) : result (lift o) = o.
Proof. reflexivity. Qed.

Section AnyMoments.
Context {AC : AccumulatorClass}.

Lemma scalar_of_wtd_mean values weights :
  scalar_of (wtd_mean values weights)
  = and_then (result (accumulate values weights (range [MEAN] 1))) Mean.
Proof.
  unfold scalar_of, wtd_mean. rewrite result_bind.
  destruct (result (accumulate _ _ _)) as [a|e|]; cbn [and_then]; try reflexivity.
  rewrite result_bind, result_lift. now destruct (Mean a).
Qed.

Lemma scalar_of_wtd_var values weights :
  scalar_of (wtd_var values weights)
  = and_then (result (accumulate values weights (range [VARIANCE] 1))) Variance.
Proof.
  unfold scalar_of, wtd_var. rewrite result_bind.
  destruct (result (accumulate _ _ _)) as [a|e|]; cbn [and_then]; try reflexivity.
  rewrite result_bind, result_lift. now destruct (Variance a).
Qed.

Lemma scalar_of_wtd_skew values weights :
  scalar_of (wtd_skew values weights)
  = and_then (result (accumulate values weights (range [SKEWNESS] 1))) Skewness.
Proof.
  unfold scalar_of, wtd_skew. rewrite result_bind.
  destruct (result (accumulate _ _ _)) as [a|e|]; cbn [and_then]; try reflexivity.
  rewrite result_bind, result_lift. now destruct (Skewness a).
Qed.

Lemma scalar_of_wtd_kurt values weights :
  scalar_of (wtd_kurt values weights)
  = and_then (result (accumulate values weights (range [KURTOSIS] 1))) Kurtosis.
Proof.
  unfold scalar_of, wtd_kurt. rewrite result_bind.
  destruct (result (accumulate _ _ _)) as [a|e|]; cbn [and_then]; try reflexivity.
  rewrite result_bind, result_lift. now destruct (Kurtosis a).
Qed.

(** For an order from 1 to 4, [wtd_stat] is the accumulation followed by the
    first [order] accessors, in order. *)
Lemma wtd_stat_unfolded (values weights : list Scalar) (order : nat) :
  (1 <= order <= 4)%nat ->
  result (wtd_stat values weights order)
  = and_then (result (accumulate values weights (range features order)))
      (fun accu =>
         and_then
           (sequence (firstn order [Mean accu; Variance accu;
                                    Skewness accu; Kurtosis accu]))
           (fun stats =>
              Ret {| WtdStat.values := stats;
                     names_attr :=
                       Some (Strings (firstn order
                                        ["mean"; "var"; "skew"; "kurt"]%string));
                     class_attr := None |})).
Proof.
  intros [Hlo Hhi].
  unfold wtd_stat. rewrite result_bind.
  destruct order as [|[|[|[|[|order]]]]]; try lia; clear Hlo Hhi;
    (destruct (result (accumulate _ _ _)) as [final|e|]; [|reflexivity..]);
    cbn;
    (destruct (Mean final) as [?|?|]; cbn; [|reflexivity..]);
    try (destruct (Variance final) as [?|?|]; cbn; [|reflexivity..]);
    try (destruct (Skewness final) as [?|?|]; cbn; [|reflexivity..]);
    try (destruct (Kurtosis final) as [?|?|]; cbn; [|reflexivity..]);
    reflexivity.
Qed.

Lemma sequence_length {A} (l : list (outcome A)) (vs : list A) :
  sequence l = Ret vs -> length vs = length l.
Proof.
  revert vs. induction l as [|[a|e|] l IH]; intros vs H; cbn in H;
    try discriminate.
  - injection H as <-. reflexivity.
  - destruct (sequence l) as [vs'|e|]; try discriminate.
    injection H as <-. cbn. now rewrite (IH vs' eq_refl).
Qed.

End AnyMoments.

Lemma accumulate_result pow values weights fs accu0 :
  add_features (AC := moments pow) fs empty_moments = ret accu0 ->
  result (accumulate (AC := moments pow) values weights fs)
  = if negb (length values =? length weights) then Throw LengthMismatch
    else if all_nonneg (combine values weights)
         then Ret (run_steps update (combine values weights)
                     (init_moments accu0))
         else Throw InvalidArgument.
Proof.
  intro H. unfold accumulate.
  destruct (negb (length values =? length weights)); [reflexivity|].
  cbn [new_Accumulator moments]. rewrite H. rewrite result_bind.
  cbn [result ret snd and_then].
  apply (push_all_result push_moments update push_moments_guard).
Qed.

(** The accumulators the entry points set up before the first push. *)
Lemma initial_agree k a b :
  agree k (init_moments a) (init_moments b).
Proof. repeat split; reflexivity. Qed.

Ltac solve_tracks :=
  let j := fresh "j" in
  let Hj := fresh "Hj" in
  intros j Hj;
  assert (j = 2 \/ j = 3 \/ j = 4)%nat as [ -> | [ -> | -> ] ] by lia;
  first [ reflexivity | exfalso; lia ].

Ltac same_statistic k :=
  apply (run_steps_agree k);
  [ solve_tracks | solve_tracks | apply initial_agree ].

(** With the modelled accumulator, each of the [k] values is what the
    dedicated entry point returns on the same stream: the statistics do not
    depend on which other features are registered. *)
Lemma wtd_stat_matches_entry_points
    (pow : Scalar -> Scalar -> Scalar) (values weights : list Scalar)
    (order : nat) :
  (1 <= order <= 4)%nat ->
  result (wtd_stat (AC := moments pow) values weights order)
  = and_then
      (sequence
         (firstn order
            [scalar_of (wtd_mean (AC := moments pow) values weights);
             scalar_of (wtd_var (AC := moments pow) values weights);
             scalar_of (wtd_skew (AC := moments pow) values weights);
             scalar_of (wtd_kurt (AC := moments pow) values weights)]))
      (fun stats =>
         Ret {| WtdStat.values := stats;
                names_attr :=
                  Some (Strings (firstn order
                                   ["mean"; "var"; "skew"; "kurt"]%string));
                class_attr := None |}).
Proof.
  intros Horder.
  rewrite (wtd_stat_unfolded values weights order Horder).
  rewrite scalar_of_wtd_mean, scalar_of_wtd_var, scalar_of_wtd_skew,
          scalar_of_wtd_kurt.
  destruct Horder as [Hlo Hhi].
  destruct order as [|[|[|[|[|order]]]]]; try lia; clear Hlo Hhi;
    (erewrite !accumulate_result by reflexivity);
    (destruct (negb (length values =? length weights)); [reflexivity|]);
    (destruct (all_nonneg (combine values weights)); [|reflexivity]);
    cbn [and_then firstn sequence Mean Variance Skewness Kurtosis moments];
    match goal with
    | |- context [get_mean ?s] =>
        repeat match goal with
        | |- context [get_mean ?a] =>
            tryif constr_eq a s then fail
            else rewrite (get_mean_agree 1 a s) by same_statistic 1%nat
        | |- context [get_variance ?a] =>
            tryif constr_eq a s then fail
            else rewrite (get_variance_agree 2 a s)
                   by (try lia; same_statistic 2%nat)
        | |- context [get_skewness pow ?a] =>
            tryif constr_eq a s then fail
            else rewrite (get_skewness_agree pow 3 a s)
                   by (try lia; same_statistic 3%nat)
        | |- context [get_kurtosis ?a] =>
            tryif constr_eq a s then fail
            else rewrite (get_kurtosis_agree 4 a s)
                   by (try lia; same_statistic 4%nat)
        end;
        reflexivity
    end.
Qed.

(** The four statistics of the values 1, 2, 4 with weights 0, 1, 3 (the
    variance is 3/4; [pow] is taken to be the first projection). *)
Example wtd_stat_order_four :
  result (wtd_stat (AC := moments (fun x _ => x))
            [real 1 1; real 2 1; real 4 1]
            [real 0 1; real 1 1; real 3 1] 4)
  = Ret {| WtdStat.values := [real 7 2; real 3 4; real (-1) 1; real 7 3];
           names_attr := Some (Strings ["mean"; "var"; "skew"; "kurt"]%string);
           class_attr := None |}.
Proof. qc_eval. Qed.

(** ** Sorted association lists *)

Section StdMapFacts.
Context {K V : Type}.
Variable ltb : K -> K -> bool.
Hypothesis ltb_irrefl : forall k, ltb k k = false.
Hypothesis ltb_trans :
  forall a b c, ltb a b = true -> ltb b c = true -> ltb a c = true.
Hypothesis ltb_total :
  forall a b, ltb a b = false -> ltb b a = false -> a = b.

Implicit Types (m : @StdMap.t K V) (k : K) (f : option V -> V).

Lemma In_keys_upsert k f m k' :
  In k' (StdMap.keys (StdMap.upsert ltb k f m)) <-> k' = k \/ In k' (StdMap.keys m).
Proof.
  induction m as [|[k0 v0] m IH]; cbn [StdMap.upsert StdMap.keys map fst In].
  - intuition.
  - destruct (ltb k k0) eqn:E1; [cbn; intuition|].
    destruct (ltb k0 k) eqn:E2; cbn [map fst In].
    + fold (StdMap.keys (StdMap.upsert ltb k f m)) (StdMap.keys m).
      rewrite IH. intuition.
    + rewrite (ltb_total k k0 E1 E2). fold (StdMap.keys m). intuition.
Qed.

Lemma sorted_keys_cons k v m :
  sorted_keys ltb ((k, v) :: m) <->
  sorted_keys ltb m /\ Forall (fun k' => ltb k k' = true) (StdMap.keys m).
Proof.
  unfold sorted_keys. cbn [StdMap.keys map fst]. split.
  - apply StronglySorted_inv.
  - intros [H1 H2]. now constructor.
Qed.

Lemma upsert_sorted k f m :
  sorted_keys ltb m -> sorted_keys ltb (StdMap.upsert ltb k f m).
Proof.
  induction m as [|[k0 v0] m IH]; intro Hs; cbn [StdMap.upsert].
  - apply sorted_keys_cons. split; constructor.
  - apply sorted_keys_cons in Hs. destruct Hs as [Hs Hall].
    destruct (ltb k k0) eqn:E1; [|destruct (ltb k0 k) eqn:E2].
    + apply sorted_keys_cons. split.
      * apply sorted_keys_cons. now split.
      * cbn [StdMap.keys map fst]. constructor; [exact E1|].
        revert Hall. apply Forall_impl. intros k' Hk'. eapply ltb_trans; eassumption.
    + apply sorted_keys_cons. split; [exact (IH Hs)|].
      apply Forall_forall. intros k' Hk'. apply In_keys_upsert in Hk'.
      destruct Hk' as [->|Hk']; [exact E2|].
      rewrite Forall_forall in Hall. exact (Hall k' Hk').
    + apply sorted_keys_cons. now split.
Qed.

Lemma sorted_keys_NoDup m : sorted_keys ltb m -> NoDup (StdMap.keys m).
Proof.
  induction m as [|[k v] m IH]; intro Hs; [constructor|].
  apply sorted_keys_cons in Hs. destruct Hs as [Hs Hall].
  cbn [StdMap.keys map fst]. constructor; [|exact (IH Hs)].
  intro Hin. rewrite Forall_forall in Hall. specialize (Hall k Hin).
  rewrite ltb_irrefl in Hall. discriminate.
Qed.

(** Every binding of [upsert k f m] is the updated binding of [k] or an
    untouched binding of another key. *)
Lemma In_upsert k f m k' v' :
  sorted_keys ltb m ->
  In (k', v') (StdMap.upsert ltb k f m) ->
  (k' = k /\ ((v' = f None /\ ~ In k (StdMap.keys m)) \/
              (exists v, In (k, v) m /\ v' = f (Some v)))) \/
  (k' <> k /\ In (k', v') m).
Proof.
  induction m as [|[k0 v0] m IH]; intros Hs Hin; cbn [StdMap.upsert] in Hin.
  - destruct Hin as [[= <- <-]|[]]. left. split; [reflexivity|]. left. now split.
  - apply sorted_keys_cons in Hs. destruct Hs as [Hs Hall].
    rewrite Forall_forall in Hall.
    assert (Hfresh : forall a, ltb a k0 = true -> ~ In a (StdMap.keys ((k0, v0) :: m))).
    { intros a Ha [<-|Hin']. 
      - rewrite ltb_irrefl in Ha. discriminate.
      - specialize (Hall a Hin'). pose proof (ltb_trans _ _ _ Ha Hall) as C.
        rewrite ltb_irrefl in C. discriminate. }
    destruct (ltb k k0) eqn:E1; [|destruct (ltb k0 k) eqn:E2].
    + destruct Hin as [[= <- <-]|Hin].
      * left. split; [reflexivity|]. left. split; [reflexivity|]. now apply Hfresh.
      * right. split; [|exact Hin].
        intros ->. apply (Hfresh k E1). apply (in_map fst) in Hin. exact Hin.
    + destruct Hin as [[= <- <-]|Hin].
      * right. split; [|now left]. intros ->. rewrite ltb_irrefl in E2. discriminate.
      * destruct (IH Hs Hin) as [[-> [[-> Hnot]|[v [Hv ->]]]]|[Hne Hin']].
        -- left. split; [reflexivity|]. left. split; [reflexivity|].
           cbn [StdMap.keys map fst In]. intros [->|Hin']; [|exact (Hnot Hin')].
           rewrite ltb_irrefl in E2. discriminate.
        -- left. split; [reflexivity|]. right. exists v. split; [now right | reflexivity].
        -- right. split; [exact Hne | now right].
    + pose proof (ltb_total k k0 E1 E2) as ->.
      destruct Hin as [[= <- <-]|Hin].
      * left. split; [reflexivity|]. right. exists v0. split; [now left | reflexivity].
      * right. split; [|now right].
        intros ->. apply (in_map fst) in Hin. cbn [fst] in Hin.
        specialize (Hall k0 Hin). rewrite ltb_irrefl in Hall. discriminate.
Qed.

Lemma length_keys_elems m : length (StdMap.elems m) = length (StdMap.keys m).
Proof. unfold StdMap.elems, StdMap.keys. now rewrite !length_map. Qed.

Lemma nth_error_keys_elems m i k :
  nth_error (StdMap.keys m) i = Some k ->
  exists v, nth_error (StdMap.elems m) i = Some v /\ In (k, v) m.
Proof.
  revert i. induction m as [|[k0 v0] m IH]; intros [|i] H; try discriminate.
  - injection H as <-. exists v0. split; [reflexivity | now left].
  - destruct (IH i H) as [v [Hv Hin]]. exists v. split; [exact Hv | now right].
Qed.
End StdMapFacts.

(** ** The weighted frequency table *)

Lemma Qcltb_irrefl k : Qcltb k k = false.
Proof. apply Qcltb_ge, Qcle_refl. Qed.

Lemma Qcltb_trans a b c :
  Qcltb a b = true -> Qcltb b c = true -> Qcltb a c = true.
Proof. rewrite !Qcltb_lt. apply Qclt_trans. Qed.

Lemma Qcltb_total a b : Qcltb a b = false -> Qcltb b a = false -> a = b.
Proof. rewrite !Qcltb_ge. intros H1 H2. now apply Qcle_antisym. Qed.

Lemma sum_list_cons x l : sum_list (x :: l) = x + sum_list l.
Proof. reflexivity. Qed.

Lemma elems_cons {K V} (k : K) (v : V) m :
  StdMap.elems ((k, v) :: m) = v :: StdMap.elems m.
Proof. reflexivity. Qed.

Lemma sum_elems_upsert x w (m : @StdMap.t Scalar Scalar) :
  sum_list (StdMap.elems (StdMap.upsert Qcltb x (add_weight w) m))
  = sum_list (StdMap.elems m) + w.
Proof.
  induction m as [|[k v] m IH]; cbn [StdMap.upsert].
  - cbn. ring.
  - destruct (Qcltb x k); [|destruct (Qcltb k x)];
      rewrite !elems_cons, !sum_list_cons; cbn [add_weight].
    + ring.
    + rewrite IH. ring.
    + ring.
Qed.

Lemma run_steps_app {A} (step : Scalar -> Scalar -> A -> A) l l' a :
  run_steps step (l ++ l') a = run_steps step l' (run_steps step l a).
Proof. apply fold_left_app. Qed.

Lemma total_weight_app l l' :
  total_weight (l ++ l') = total_weight l + total_weight l'.
Proof.
  induction l as [|o l IH]; cbn [app]; rewrite ?total_weight_cons.
  - cbn. ring.
  - rewrite IH. ring.
Qed.

Lemma weight_at_cons x o l :
  weight_at x (o :: l)
  = if Qceqb (fst o) x then snd o + weight_at x l else weight_at x l.
Proof. reflexivity. Qed.

Lemma weight_at_app x l l' :
  weight_at x (l ++ l') = weight_at x l + weight_at x l'.
Proof.
  induction l as [|o l IH]; cbn [app]; rewrite ?weight_at_cons.
  - cbn. ring.
  - rewrite IH. destruct (Qceqb _ x); ring.
Qed.

Lemma weight_at_unobserved x l : ~ In x (map fst l) -> weight_at x l = 0.
Proof.
  induction l as [|o l IH]; intro H; [reflexivity|].
  rewrite weight_at_cons. cbn [map In] in H.
  replace (Qceqb (fst o) x) with false.
  - apply IH. tauto.
  - symmetry. apply Qceqb_neq. tauto.
Qed.

(** What the table holds after a stream has been folded into it. *)
Lemma table_after_stream obs :
  let m := table (run_steps add_to_bucket obs (init_table empty_table)) in
  sorted_keys Qcltb m /\
  (forall x, In x (StdMap.keys m) <-> In x (map fst obs)) /\
  (forall x f, In (x, f) m -> f = weight_at x obs) /\
  sum_list (StdMap.elems m) = total_weight obs.
Proof.
  induction obs as [|[x w] obs IH] using rev_ind.
  - cbn. repeat split; try tauto; constructor.
  - rewrite run_steps_app. cbn [run_steps fold_left fst snd add_to_bucket table].
    set (m := table (run_steps add_to_bucket obs (init_table empty_table))) in *.
    cbn zeta in IH. destruct IH as (Hs & Hk & Hf & Hsum).
    cbn zeta. repeat split.
    + apply (upsert_sorted Qcltb Qcltb_trans Qcltb_total), Hs.
    + rewrite (In_keys_upsert Qcltb Qcltb_total). rewrite Hk, map_app, in_app_iff.
      cbn. intuition.
    + rewrite (In_keys_upsert Qcltb Qcltb_total). rewrite Hk, map_app, in_app_iff.
      cbn. intuition.
    + intros k f Hin.
      rewrite weight_at_app. cbn [weight_at fold_right fst snd].
      destruct (In_upsert Qcltb Qcltb_irrefl Qcltb_trans Qcltb_total
                  _ _ _ _ _ Hs Hin)
        as [[-> [[-> Hnew]|[v [Hv ->]]]]|[Hne Hold]].
      * replace (Qceqb x x) with true by (symmetry; now apply Qceqb_eq).
        rewrite weight_at_unobserved by (now rewrite <- Hk).
        cbn [add_weight]. ring.
      * replace (Qceqb x x) with true by (symmetry; now apply Qceqb_eq).
        rewrite <- (Hf x v Hv). cbn [add_weight]. ring.
      * replace (Qceqb x k) with false
          by (symmetry; apply Qceqb_neq; congruence).
        rewrite <- (Hf k f Hold). ring.
    + rewrite sum_elems_upsert, Hsum, total_weight_app. cbn. ring.
Qed.

Lemma StronglySorted_impl {A} (R R' : A -> A -> Prop) l :
  (forall a b, R a b -> R' a b) -> StronglySorted R l -> StronglySorted R' l.
Proof.
  intros HR. induction 1 as [|a l _ IH Hall]; constructor; [exact IH|].
  revert Hall. apply Forall_impl, HR.
Qed.

(** C6. The table [wtd_table] returns for a stream with non-negative weights:
    its frequencies add up to the total weight pushed; its positions are the
    observed values, each once, in strictly ascending order; and the
    frequency at each position is the weight the stream gives to that
    value. *)
Theorem wtd_table_histogram (values weights : list Scalar) :
  length values = length weights ->
  Forall (fun w => 0 <= w) weights ->
  exists positions frequencies,
    wtd_table (DC := discrete) values weights
      = (combine values weights,
         Ret {| WtdStat.values := frequencies;
                names_attr := Some (AsCharacter positions);
                class_attr := Some "table"%string |}) /\
    sum_list frequencies = total_weight (combine values weights) /\
    StronglySorted Qclt positions /\
    NoDup positions /\
    (forall x, In x positions <-> In x values) /\
    length frequencies = length positions /\
    (forall i x, nth_error positions i = Some x ->
       nth_error frequencies i
       = Some (weight_at x (combine values weights))).
Proof.
  intros Hlen Hnn.
  pose proof (combine_nonneg values weights Hnn) as Hobs.
  pose proof (table_after_stream (combine values weights)) as Hinv.
  cbn zeta in Hinv.
  set (accu := run_steps add_to_bucket (combine values weights)
                 (init_table empty_table)) in *.
  destruct Hinv as (Hs & Hk & Hf & Hsum).
  exists (StdMap.keys (table accu)), (StdMap.elems (table accu)).
  repeat split.
  - unfold wtd_table. rewrite length_check_passes by exact Hlen.
    cbn [new_DiscreteAccumulator DInit DPush Pdf discrete].
    rewrite (push_all_nonneg push_table add_to_bucket push_table_guard
               _ _ Hobs).
    fold accu. unfold bind, ret, get_pdf. cbn [GetPositions GetFrequencies].
    now rewrite app_nil_r.
  - exact Hsum.
  - revert Hs. apply StronglySorted_impl. intros a b. apply Qcltb_lt.
  - apply (sorted_keys_NoDup Qcltb Qcltb_irrefl), Hs.
  - rewrite Hk. intro Hx. apply in_map_iff in Hx. destruct Hx as [[y w] [<- Hin]].
    eapply in_combine_l, Hin.
  - rewrite Hk. intro Hx.
    destruct (In_nth_error _ _ Hx) as [n Hn].
    assert (Hn' : (n < length weights)%nat)
      by (rewrite <- Hlen; apply nth_error_Some; congruence).
    apply nth_error_Some in Hn'.
    destruct (nth_error weights n) as [w|] eqn:Ew; [|congruence].
    apply in_map_iff. exists (x, w). split; [reflexivity|].
    apply (nth_error_In _ n).
    clear - Hn Ew. revert weights n Hn Ew.
    induction values as [|v values IH]; intros [|w' weights] [|n] Hn Ew;
      try discriminate; cbn in *.
    + congruence.
    + now apply IH.
  - apply length_keys_elems.
  - intros i x Hi.
    destruct (nth_error_keys_elems _ _ _ Hi) as [f [Hf' Hin]].
    rewrite Hf'. f_equal. exact (Hf x f Hin).
Qed.

Lemma wtd_table_histogram_witness :
  exists positions frequencies,
    wtd_table (DC := discrete)
              [real 1 1; real 1 1; real 2 1; real 3 1; real 3 1; real 3 1]
              [real 1 1; real 1 1; real 1 1; real 1 1; real 1 1; real 1 1]
      = (combine [real 1 1; real 1 1; real 2 1; real 3 1; real 3 1; real 3 1]
                 [real 1 1; real 1 1; real 1 1; real 1 1; real 1 1; real 1 1],
         Ret {| WtdStat.values := frequencies;
                names_attr := Some (AsCharacter positions);
                class_attr := Some "table"%string |}) /\
    sum_list frequencies
      = total_weight
          (combine [real 1 1; real 1 1; real 2 1; real 3 1; real 3 1; real 3 1]
                   [real 1 1; real 1 1; real 1 1; real 1 1; real 1 1; real 1 1]) /\
    StronglySorted Qclt positions /\
    NoDup positions /\
    (forall x, In x positions <->
               In x [real 1 1; real 1 1; real 2 1; real 3 1; real 3 1; real 3 1]) /\
    length frequencies = length positions /\
    (forall i x, nth_error positions i = Some x ->
       nth_error frequencies i
       = Some (weight_at x
                 (combine [real 1 1; real 1 1; real 2 1; real 3 1; real 3 1; real 3 1]
                          [real 1 1; real 1 1; real 1 1; real 1 1; real 1 1; real 1 1]))).
Proof.
  apply wtd_table_histogram.
  - reflexivity.
  - repeat constructor; qc_order.
Defined.

(** The specification's example: values 1, 1, 2, 3, 3, 3 with unit weights
    give positions 1, 2, 3 with frequencies 2, 1, 3, and the mode 3. *)
Example table_of_six :
  result (wtd_table (DC := discrete)
                    [real 1 1; real 1 1; real 2 1; real 3 1; real 3 1; real 3 1]
                    [real 1 1; real 1 1; real 1 1; real 1 1; real 1 1; real 1 1])
  = Ret {| WtdStat.values := [real 2 1; real 1 1; real 3 1];
           names_attr := Some (AsCharacter [real 1 1; real 2 1; real 3 1]);
           class_attr := Some "table"%string |} /\
  result (wtd_mode (DC := discrete)
                   [real 1 1; real 1 1; real 2 1; real 3 1; real 3 1; real 3 1]
                   [real 1 1; real 1 1; real 1 1; real 1 1; real 1 1; real 1 1])
  = Ret (wrap (real 3 1)).
Proof. split; qc_eval. Qed.

(** ** The weighted variance *)

Lemma all_nonneg_Forall obs :
  all_nonneg obs = true <-> Forall (fun o : Obs => 0 <= snd o) obs.
Proof.
  unfold all_nonneg. rewrite forallb_forall, Forall_forall.
  split; intros H o Ho; specialize (H o Ho).
  - apply negb_true_iff, Qcltb_ge in H. exact H.
  - apply negb_true_iff, Qcltb_ge. exact H.
Qed.

Lemma all_nonneg_perm l l' : Permutation l l' -> all_nonneg l = all_nonneg l'.
Proof.
  intro H. apply eq_true_iff_eq. rewrite !all_nonneg_Forall.
  split; apply Permutation_Forall; [exact H | symmetry; exact H].
Qed.

Lemma weighted_sum_cons o l :
  weighted_sum (o :: l) = snd o * fst o + weighted_sum l.
Proof. reflexivity. Qed.

Lemma weighted_sum_sq_cons o l :
  weighted_sum_sq (o :: l) = snd o * fst o * fst o + weighted_sum_sq l.
Proof. reflexivity. Qed.

Lemma weighted_sq_dev_cons m o l :
  weighted_sq_dev m (o :: l)
  = snd o * (fst o - m) * (fst o - m) + weighted_sq_dev m l.
Proof. reflexivity. Qed.

Lemma weighted_sum_app l l' :
  weighted_sum (l ++ l') = weighted_sum l + weighted_sum l'.
Proof.
  induction l as [|o l IH]; cbn [app]; rewrite ?weighted_sum_cons.
  - cbn. ring.
  - rewrite IH. ring.
Qed.

Lemma weighted_sum_sq_app l l' :
  weighted_sum_sq (l ++ l') = weighted_sum_sq l + weighted_sum_sq l'.
Proof.
  induction l as [|o l IH]; cbn [app]; rewrite ?weighted_sum_sq_cons.
  - cbn. ring.
  - rewrite IH. ring.
Qed.

Lemma weighted_sum_perm l l' :
  Permutation l l' -> weighted_sum l = weighted_sum l'.
Proof.
  induction 1 as [|o l l' _ IH|a b l|l1 l2 l3 _ IH1 _ IH2];
    rewrite ?weighted_sum_cons.
  - reflexivity.
  - now rewrite IH.
  - ring.
  - congruence.
Qed.

Lemma weighted_sq_dev_perm m l l' :
  Permutation l l' -> weighted_sq_dev m l = weighted_sq_dev m l'.
Proof.
  induction 1 as [|o l l' _ IH|a b l|l1 l2 l3 _ IH1 _ IH2];
    rewrite ?weighted_sq_dev_cons.
  - reflexivity.
  - now rewrite IH.
  - ring.
  - congruence.
Qed.

Lemma population_variance_perm l l' :
  Permutation l l' -> population_variance l = population_variance l'.
Proof.
  intro H. unfold population_variance, weighted_mean.
  now rewrite (weighted_sum_perm _ _ H), (total_weight_perm _ _ H),
              (weighted_sq_dev_perm _ _ _ H).
Qed.

Lemma real_2 : real 2 1 = 1 + 1.
Proof. apply Qc_is_canon. reflexivity. Qed.

(** Squared deviations about any centre, in raw sums. *)
Lemma weighted_sq_dev_raw m l :
  weighted_sq_dev m l
  = weighted_sum_sq l - real 2 1 * m * weighted_sum l + m * m * total_weight l.
Proof.
  induction l as [|o l IH];
    rewrite ?weighted_sq_dev_cons, ?weighted_sum_sq_cons, ?weighted_sum_cons,
            ?total_weight_cons.
  - cbn. rewrite real_2. ring.
  - rewrite IH, real_2. ring.
Qed.

Lemma run_steps_snoc {A} (step : Scalar -> Scalar -> A -> A) obs x w a :
  run_steps step (obs ++ [(x, w)]) a = step x w (run_steps step obs a).
Proof. now rewrite run_steps_app. Qed.

Lemma tracked_run_steps k obs : forall a,
  tracked k (run_steps update obs a) = tracked k a.
Proof.
  induction obs as [|[x w] obs IH]; intro a; [reflexivity|].
  rewrite run_steps_cons, IH. reflexivity.
Qed.

(** The one-pass recurrences keep the total weight, the mean and the second
    central power sum in step with the sums over the stream. *)
Lemma moments_after_stream a0 obs :
  tracked 2 a0 = true ->
  Forall (fun o : Obs => 0 <= snd o) obs ->
  let s := run_steps update obs (init_moments a0) in
  sum_w s = total_weight obs /\
  mean s * total_weight obs = weighted_sum obs /\
  M2 s = weighted_sum_sq obs - mean s * mean s * total_weight obs.
Proof.
  intros Ht. induction obs as [|[x w] obs IH] using rev_ind; intro Hnn.
  - cbn. repeat split; ring.
  - apply Forall_app in Hnn. destruct Hnn as [Hnn Hw].
    inversion Hw as [|? ? Hw0 _]; subst. cbn [snd] in Hw0.
    specialize (IH Hnn). cbn zeta in IH. destruct IH as (HW & Hm & H2).
    pose proof (total_weight_nonneg obs Hnn) as HT.
    cbn zeta. rewrite run_steps_snoc.
    set (s := run_steps update obs (init_moments a0)) in *.
    assert (Hts : tracked 2 s = true)
      by (unfold s; rewrite tracked_run_steps; exact Ht).
    rewrite total_weight_app, weighted_sum_app, weighted_sum_sq_app.
    unfold update. cbn [sum_w mean M2 total_weight weighted_sum weighted_sum_sq
                        fold_right fst snd].
    rewrite Hts, HW, H2.
    destruct (Qc_eq_dec (total_weight obs + w) 0) as [E0|Hne].
    + assert (Ew : w = 0) by qc_lra.
      assert (ET : total_weight obs = 0) by qc_lra.
      rewrite Ew, ET in *. repeat split; try ring.
      rewrite <- Hm. ring.
    + assert (Hne' : total_weight obs + (w + 0) <> 0).
      { intro E. apply Hne. rewrite <- E. ring. }
      repeat split.
      * ring.
      * rewrite <- Hm. field. exact Hne.
      * field. exact Hne.
Qed.

Lemma combine_fst_snd {A B} (l : list (A * B)) :
  combine (map fst l) (map snd l) = l.
Proof.
  induction l as [|[a b] l IH]; [reflexivity|]. cbn. now rewrite IH.
Qed.

Lemma variance_after_stream a0 obs :
  tracked 2 a0 = true ->
  Forall (fun o : Obs => 0 <= snd o) obs ->
  get_variance (run_steps update obs (init_moments a0))
  = if Qceqb (total_weight obs) 0 then Throw DegenerateInput
    else Ret (population_variance obs).
Proof.
  intros Ht Hnn.
  destruct (moments_after_stream a0 obs Ht Hnn) as (HW & Hm & H2).
  unfold get_variance. rewrite HW.
  destruct (Qceqb (total_weight obs) 0) eqn:E; [reflexivity|].
  apply Qceqb_neq in E. f_equal.
  unfold population_variance. rewrite H2. f_equal.
  assert (Hmean : mean (run_steps update obs (init_moments a0))
                  = weighted_mean obs).
  { unfold weighted_mean. rewrite <- Hm. field. exact E. }
  rewrite weighted_sq_dev_raw, <- Hmean, <- Hm, real_2. ring.
Qed.

Lemma wtd_var_closed_form pow obs :
  result (wtd_var (AC := moments pow) (map fst obs) (map snd obs))
  = if all_nonneg obs
    then if Qceqb (total_weight obs) 0 then Throw DegenerateInput
         else Ret (wrap (population_variance obs))
    else Throw InvalidArgument.
Proof.
  unfold wtd_var. rewrite result_bind.
  erewrite accumulate_result by reflexivity.
  rewrite length_check_passes by (now rewrite !length_map).
  rewrite combine_fst_snd.
  destruct (all_nonneg obs) eqn:E; [|reflexivity].
  apply all_nonneg_Forall in E.
  cbn [and_then]. rewrite result_bind, result_lift.
  cbn [Variance moments].
  rewrite variance_after_stream; [|reflexivity|exact E].
  destruct (Qceqb (total_weight obs) 0); reflexivity.
Qed.

(** C7. Reordering a stream does not change what [wtd_var] returns, and the
    variance it returns is the sum of [w * (x - mean)^2] divided by the total
    weight [W]; it is returned whenever no weight is negative and [W] is not
    zero. *)
Theorem variance_order_independent
    (pow : Scalar -> Scalar -> Scalar) (obs obs' : list (Scalar * Scalar)) :
  Permutation obs obs' ->
  result (wtd_var (AC := moments pow) (map fst obs') (map snd obs'))
    = result (wtd_var (AC := moments pow) (map fst obs) (map snd obs)) /\
  (forall v,
      result (wtd_var (AC := moments pow) (map fst obs) (map snd obs)) = Ret v ->
      v = wrap (population_variance obs)) /\
  (Forall (fun o : Obs => 0 <= snd o) obs -> total_weight obs <> 0 ->
   result (wtd_var (AC := moments pow) (map fst obs) (map snd obs))
     = Ret (wrap (population_variance obs))).
Proof.
  intro Hperm. rewrite !wtd_var_closed_form.
  rewrite <- (all_nonneg_perm _ _ Hperm), <- (total_weight_perm _ _ Hperm),
          <- (population_variance_perm _ _ Hperm).
  split; [reflexivity|]. split.
  - intro v. destruct (all_nonneg obs); [|discriminate].
    destruct (Qceqb (total_weight obs) 0); [discriminate|]. congruence.
  - intros Hnn HW. apply all_nonneg_Forall in Hnn. apply Qceqb_neq in HW.
    now rewrite Hnn, HW.
Qed.

Lemma variance_order_independent_witness :
  result (wtd_var (AC := moments (fun x _ => x))
            (map fst [(real 4 1, real 3 1); (real 1 1, real 0 1);
                      (real 2 1, real 1 1)])
            (map snd [(real 4 1, real 3 1); (real 1 1, real 0 1);
                      (real 2 1, real 1 1)]))
  = result (wtd_var (AC := moments (fun x _ => x))
              (map fst [(real 1 1, real 0 1); (real 2 1, real 1 1);
                        (real 4 1, real 3 1)])
              (map snd [(real 1 1, real 0 1); (real 2 1, real 1 1);
                        (real 4 1, real 3 1)])).
Proof.
  apply (proj1 (variance_order_independent (fun x _ => x)
           [(real 1 1, real 0 1); (real 2 1, real 1 1); (real 4 1, real 3 1)]
           [(real 4 1, real 3 1); (real 1 1, real 0 1); (real 2 1, real 1 1)]
           (Permutation_sym
              (Permutation_cons_append
                 [(real 1 1, real 0 1); (real 2 1, real 1 1)]
                 (real 4 1, real 3 1))))).
Defined.

(** The variance of the values 1, 2, 4 with weights 0, 1, 3 is 3/4. *)
Example variance_of_three :
  result (wtd_var (AC := moments (fun x _ => x))
            [real 1 1; real 2 1; real 4 1] [real 0 1; real 1 1; real 3 1])
  = Ret (wrap (real 3 4)).
Proof. qc_eval. Qed.

(** ** The higher moments *)

Lemma real_3 : real 3 1 = 1 + 1 + 1.
Proof. apply Qc_is_canon. reflexivity. Qed.

Lemma real_4 : real 4 1 = 1 + 1 + 1 + 1.
Proof. apply Qc_is_canon. reflexivity. Qed.

Lemma real_6 : real 6 1 = 1 + 1 + 1 + 1 + 1 + 1.
Proof. apply Qc_is_canon. reflexivity. Qed.

Lemma tracked_mono j k a :
  (j <= k)%nat -> tracked k a = true -> tracked j a = true.
Proof.
  intros Hjk. unfold tracked. rewrite !existsb_exists.
  intros [t [Ht Hk]]. exists t. split; [exact Ht|].
  apply Nat.leb_le in Hk. apply Nat.leb_le. lia.
Qed.

Lemma weighted_sum_cu_app l l' :
  weighted_sum_cu (l ++ l') = weighted_sum_cu l + weighted_sum_cu l'.
Proof.
  induction l as [|o l IH]; cbn [app].
  - cbn. ring.
  - change (weighted_sum_cu (o :: l ++ l'))
      with (snd o * fst o * fst o * fst o + weighted_sum_cu (l ++ l')).
    change (weighted_sum_cu (o :: l))
      with (snd o * fst o * fst o * fst o + weighted_sum_cu l).
    rewrite IH. ring.
Qed.

Lemma weighted_sum_qu_app l l' :
  weighted_sum_qu (l ++ l') = weighted_sum_qu l + weighted_sum_qu l'.
Proof.
  induction l as [|o l IH]; cbn [app].
  - cbn. ring.
  - change (weighted_sum_qu (o :: l ++ l'))
      with (snd o * fst o * fst o * fst o * fst o + weighted_sum_qu (l ++ l')).
    change (weighted_sum_qu (o :: l))
      with (snd o * fst o * fst o * fst o * fst o + weighted_sum_qu l).
    rewrite IH. ring.
Qed.

(** The third and fourth central power sums, in raw sums about the mean. *)
Lemma higher_moments_after_stream a0 obs :
  Forall (fun o : Obs => 0 <= snd o) obs ->
  let s := run_steps update obs (init_moments a0) in
  (tracked 3 a0 = true ->
   M3 s = weighted_sum_cu obs
          - real 3 1 * mean s * weighted_sum_sq obs
          + real 2 1 * mean s * mean s * mean s * total_weight obs) /\
  (tracked 4 a0 = true ->
   M4 s = weighted_sum_qu obs
          - real 4 1 * mean s * weighted_sum_cu obs
          + real 6 1 * mean s * mean s * weighted_sum_sq obs
          - real 3 1 * mean s * mean s * mean s * mean s * total_weight obs).
Proof.
  induction obs as [|[x w] obs IH] using rev_ind; intro Hnn.
  - cbn. rewrite real_2, real_3, real_4, real_6. split; intros _; ring.
  - apply Forall_app in Hnn. destruct Hnn as [Hnn Hw].
    inversion Hw as [|? ? Hw0 _]; subst. cbn [snd] in Hw0.
    specialize (IH Hnn). cbn zeta in IH. destruct IH as (H3 & H4).
    pose proof (total_weight_nonneg obs Hnn) as HT.
    cbn zeta. rewrite run_steps_snoc.
    set (s := run_steps update obs (init_moments a0)) in *.
    assert (Hlow : tracked 3 a0 = true ->
                   sum_w s = total_weight obs /\
                   M2 s = weighted_sum_sq obs
                          - mean s * mean s * total_weight obs /\
                   tracked 2 s = true /\ tracked 3 s = true).
    { intro Ht3.
      pose proof (tracked_mono 2 3 a0 ltac:(lia) Ht3) as Ht2.
      destruct (moments_after_stream a0 obs Ht2 Hnn) as (HW & _ & H2).
      repeat split; try assumption; unfold s; now rewrite tracked_run_steps. }
    rewrite total_weight_app, weighted_sum_sq_app, weighted_sum_cu_app,
            weighted_sum_qu_app.
    unfold update.
    cbn [sum_w mean M2 M3 M4 total_weight weighted_sum_sq weighted_sum_cu
         weighted_sum_qu fold_right fst snd].
    rewrite real_2, real_3, real_4, real_6 in *.
    split.
    + intro Ht3. destruct (Hlow Ht3) as (HW & H2 & Hs2 & Hs3).
      rewrite Hs3, HW, (H3 Ht3), H2.
      destruct (Qc_eq_dec (total_weight obs + w) 0) as [E0|Hne].
      * assert (Ew : w = 0) by qc_lra.
        assert (ET : total_weight obs = 0) by qc_lra.
        rewrite Ew, ET. unfold Qcdiv. ring.
      * field. exact Hne.
    + intro Ht4.
      pose proof (tracked_mono 3 4 a0 ltac:(lia) Ht4) as Ht3.
      destruct (Hlow Ht3) as (HW & H2 & Hs2 & Hs3).
      assert (Hs4 : tracked 4 s = true)
        by (unfold s; now rewrite tracked_run_steps).
      rewrite Hs4, HW, (H4 Ht4), (H3 Ht3), H2.
      destruct (Qc_eq_dec (total_weight obs + w) 0) as [E0|Hne].
      * assert (Ew : w = 0) by qc_lra.
        assert (ET : total_weight obs = 0) by qc_lra.
        rewrite Ew, ET. unfold Qcdiv. ring.
      * field. exact Hne.
Qed.

Lemma weight_and_mean_after_stream a0 obs :
  Forall (fun o : Obs => 0 <= snd o) obs ->
  let s := run_steps update obs (init_moments a0) in
  sum_w s = total_weight obs /\
  mean s * total_weight obs = weighted_sum obs.
Proof.
  induction obs as [|[x w] obs IH] using rev_ind; intro Hnn.
  - cbn. split; ring.
  - apply Forall_app in Hnn. destruct Hnn as [Hnn Hw].
    inversion Hw as [|? ? Hw0 _]; subst. cbn [snd] in Hw0.
    specialize (IH Hnn). cbn zeta in IH. destruct IH as (HW & Hm).
    pose proof (total_weight_nonneg obs Hnn) as HT.
    cbn zeta. rewrite run_steps_snoc.
    set (s := run_steps update obs (init_moments a0)) in *.
    rewrite total_weight_app, weighted_sum_app.
    unfold update. cbn [sum_w mean total_weight weighted_sum fold_right fst snd].
    rewrite HW.
    destruct (Qc_eq_dec (total_weight obs + w) 0) as [E0|Hne].
    + assert (Ew : w = 0) by qc_lra.
      assert (ET : total_weight obs = 0) by qc_lra.
      rewrite Ew, ET in *. split; [ring|]. rewrite <- Hm. unfold Qcdiv. ring.
    + split; [ring|]. rewrite <- Hm. field. exact Hne.
Qed.

Lemma mean_after_stream a0 obs :
  Forall (fun o : Obs => 0 <= snd o) obs ->
  total_weight obs <> 0 ->
  mean (run_steps update obs (init_moments a0)) = weighted_mean obs.
Proof.
  intros Hnn HW.
  destruct (weight_and_mean_after_stream a0 obs Hnn) as (_ & Hm).
  unfold weighted_mean. rewrite <- Hm. field. exact HW.
Qed.

(** Central sums about any centre, in raw sums. *)
Lemma weighted_cu_dev_raw m l :
  weighted_cu_dev m l
  = weighted_sum_cu l - real 3 1 * m * weighted_sum_sq l
    + real 3 1 * m * m * weighted_sum l - m * m * m * total_weight l.
Proof.
  rewrite real_3.
  induction l as [|o l IH]; [cbn; ring|].
  change (weighted_cu_dev m (o :: l))
    with (snd o * (fst o - m) * (fst o - m) * (fst o - m) + weighted_cu_dev m l).
  change (weighted_sum_cu (o :: l))
    with (snd o * fst o * fst o * fst o + weighted_sum_cu l).
  rewrite weighted_sum_sq_cons, weighted_sum_cons, total_weight_cons, IH. ring.
Qed.

Lemma weighted_qu_dev_raw m l :
  weighted_qu_dev m l
  = weighted_sum_qu l - real 4 1 * m * weighted_sum_cu l
    + real 6 1 * m * m * weighted_sum_sq l
    - real 4 1 * m * m * m * weighted_sum l
    + m * m * m * m * total_weight l.
Proof.
  rewrite real_4, real_6.
  induction l as [|o l IH]; [cbn; ring|].
  change (weighted_qu_dev m (o :: l))
    with (snd o * (fst o - m) * (fst o - m) * (fst o - m) * (fst o - m)
          + weighted_qu_dev m l).
  change (weighted_sum_qu (o :: l))
    with (snd o * fst o * fst o * fst o * fst o + weighted_sum_qu l).
  change (weighted_sum_cu (o :: l))
    with (snd o * fst o * fst o * fst o + weighted_sum_cu l).
  rewrite weighted_sum_sq_cons, weighted_sum_cons, total_weight_cons, IH. ring.
Qed.

(** After a stream with non-negative weights and a total weight that is not
    zero, the three power sums are the central sums about the weighted
    mean. *)
Lemma central_sums_after_stream a0 obs :
  Forall (fun o : Obs => 0 <= snd o) obs ->
  total_weight obs <> 0 ->
  let s := run_steps update obs (init_moments a0) in
  (tracked 2 a0 = true -> M2 s = weighted_sq_dev (weighted_mean obs) obs) /\
  (tracked 3 a0 = true -> M3 s = weighted_cu_dev (weighted_mean obs) obs) /\
  (tracked 4 a0 = true -> M4 s = weighted_qu_dev (weighted_mean obs) obs).
Proof.
  intros Hnn HW. cbn zeta.
  destruct (weight_and_mean_after_stream a0 obs Hnn) as (_ & Hm).
  destruct (higher_moments_after_stream a0 obs Hnn) as (H3 & H4).
  pose proof (mean_after_stream a0 obs Hnn HW) as Hmean.
  cbn zeta in *. rewrite Hmean in *.
  repeat split; intro Ht.
  - destruct (moments_after_stream a0 obs Ht Hnn) as (_ & _ & H2).
    cbn zeta in H2. rewrite Hmean in H2.
    rewrite H2, weighted_sq_dev_raw, <- Hm, real_2. ring.
  - rewrite (H3 Ht), weighted_cu_dev_raw, <- Hm, real_2, real_3. ring.
  - rewrite (H4 Ht), weighted_qu_dev_raw, <- Hm, real_3, real_4, real_6. ring.
Qed.

(** What the dedicated entry points return with the modelled accumulator:
    the weighted mean; the third central sum over [W], divided by the
    variance to the power 1.5; the fourth central sum over [W], divided by
    the squared variance. *)
Lemma wtd_mean_closed_form pow obs :
  result (wtd_mean (AC := moments pow) (map fst obs) (map snd obs))
  = if all_nonneg obs
    then if Qceqb (total_weight obs) 0 then Throw DegenerateInput
         else Ret (wrap (weighted_mean obs))
    else Throw InvalidArgument.
Proof.
  unfold wtd_mean. rewrite result_bind.
  erewrite accumulate_result by reflexivity.
  rewrite length_check_passes by (now rewrite !length_map).
  rewrite combine_fst_snd.
  destruct (all_nonneg obs) eqn:E; [|reflexivity].
  apply all_nonneg_Forall in E.
  cbn [and_then]. rewrite result_bind, result_lift.
  cbn [Mean moments]. unfold get_mean.
  destruct (weight_and_mean_after_stream (add_feature MEAN empty_moments) obs E)
    as (HW & _).
  cbn zeta in HW. cbn [AddFeature moments]. rewrite HW.
  destruct (Qceqb (total_weight obs) 0) eqn:E0; [reflexivity|].
  apply Qceqb_neq in E0. cbn [and_then result ret snd].
  now rewrite mean_after_stream.
Qed.

Lemma wtd_skew_closed_form pow obs :
  result (wtd_skew (AC := moments pow) (map fst obs) (map snd obs))
  = if all_nonneg obs
    then if Qceqb (total_weight obs) 0 then Throw DegenerateInput
         else if Qceqb (population_variance obs) 0 then Throw DegenerateInput
         else Ret (wrap ((weighted_cu_dev (weighted_mean obs) obs
                            / total_weight obs)
                         / pow (population_variance obs) (real 3 2)))
    else Throw InvalidArgument.
Proof.
  unfold wtd_skew. rewrite result_bind.
  erewrite accumulate_result by reflexivity.
  rewrite length_check_passes by (now rewrite !length_map).
  rewrite combine_fst_snd.
  destruct (all_nonneg obs) eqn:E; [|reflexivity].
  apply all_nonneg_Forall in E.
  cbn [and_then]. rewrite result_bind, result_lift.
  cbn [Skewness moments AddFeature]. unfold get_skewness.
  destruct (weight_and_mean_after_stream
              (add_feature SKEWNESS empty_moments) obs E) as (HW & _).
  cbn zeta in HW. rewrite HW.
  destruct (Qceqb (total_weight obs) 0) eqn:E0; [reflexivity|].
  apply Qceqb_neq in E0.
  destruct (central_sums_after_stream
              (add_feature SKEWNESS empty_moments) obs E E0) as (H2 & H3 & _).
  cbn zeta in H2, H3. rewrite (H2 eq_refl), (H3 eq_refl).
  fold (population_variance obs).
  destruct (Qceqb (population_variance obs) 0); reflexivity.
Qed.

Lemma wtd_kurt_closed_form pow obs :
  result (wtd_kurt (AC := moments pow) (map fst obs) (map snd obs))
  = if all_nonneg obs
    then if Qceqb (total_weight obs) 0 then Throw DegenerateInput
         else if Qceqb (population_variance obs) 0 then Throw DegenerateInput
         else Ret (wrap ((weighted_qu_dev (weighted_mean obs) obs
                            / total_weight obs)
                         / (population_variance obs * population_variance obs)))
    else Throw InvalidArgument.
Proof.
  unfold wtd_kurt. rewrite result_bind.
  erewrite accumulate_result by reflexivity.
  rewrite length_check_passes by (now rewrite !length_map).
  rewrite combine_fst_snd.
  destruct (all_nonneg obs) eqn:E; [|reflexivity].
  apply all_nonneg_Forall in E.
  cbn [and_then]. rewrite result_bind, result_lift.
  cbn [Kurtosis moments AddFeature]. unfold get_kurtosis.
  destruct (weight_and_mean_after_stream
              (add_feature KURTOSIS empty_moments) obs E) as (HW & _).
  cbn zeta in HW. rewrite HW.
  destruct (Qceqb (total_weight obs) 0) eqn:E0; [reflexivity|].
  apply Qceqb_neq in E0.
  destruct (central_sums_after_stream
              (add_feature KURTOSIS empty_moments) obs E E0) as (H2 & _ & H4).
  cbn zeta in H2, H4. rewrite (H2 eq_refl), (H4 eq_refl).
  fold (population_variance obs).
  destruct (Qceqb (population_variance obs) 0); reflexivity.
Qed.

(** ** Process-wide flags *)

(** The flags are real state: loading the base module changes them. *)
Section AnyProcess.
Context {AC : AccumulatorClass} {QC : QuantileAccumulatorClass}
        {DC : DiscreteAccumulatorClass}.

Lemma load_base_module_sets_flag :
  snd (exec (Load_base_module true) initial_globals) <> initial_globals.
Proof. discriminate. Qed.

Lemma run_calls_app cs cs' g :
  run_calls (cs ++ cs') g
  = let (rs, g') := run_calls cs g in
    let (rs', g'') := run_calls cs' g' in
    (rs ++ rs', g'').
Proof.
  revert g. induction cs as [|c cs IH]; intro g; cbn [app run_calls].
  - now destruct (run_calls cs' g).
  - destruct (exec c g) as [r g1]. rewrite IH.
    destruct (run_calls cs g1) as [rs g2].
    now destruct (run_calls cs' g2).
Qed.



End AnyProcess.

(** ** The data table *)

Section DataTableFacts.
Variable BIIPS_REALNA : double.
Variables PROMPT_STRING INDENT_STRING : string.
Variable Size_bits : Z.

Local Abbreviation writeDataTable :=
  (writeDataTable BIIPS_REALNA PROMPT_STRING INDENT_STRING Size_bits).
Local Abbreviation readDataTable :=
  (readDataTable BIIPS_REALNA PROMPT_STRING INDENT_STRING Size_bits).

(** No double compares equal to [NA_REAL]. *)
Lemma double_eqb_NA_REAL x : double_eqb x NA_REAL = false.
Proof. now destruct x. Qed.

(** So replacing [NA_REAL] replaces nothing. *)
Lemma replace_copy_NA_REAL src new_value :
  replace_copy src NA_REAL new_value = src.
Proof.
  unfold replace_copy. induction src as [|x src IH]; [reflexivity|].
  cbn [map]. now rewrite double_eqb_NA_REAL, IH.
Qed.

(** What a value sequence becomes when written and read back: the entries
    equal to the sentinel turn into [NA_REAL], all others, the NaNs among
    them, are unchanged. *)
Lemma values_written_then_read src :
  replace_copy (replace_copy src NA_REAL BIIPS_REALNA) BIIPS_REALNA NA_REAL
  = map (fun x => if double_eqb x BIIPS_REALNA then NA_REAL else x) src.
Proof. now rewrite replace_copy_NA_REAL. Qed.

(** C9, on the vector [c(1, NA)] named "x".  [writeDataTable] copies the
    values of every vector as they are, because the comparison with
    [NA_REAL] that should select the entries to replace is false for a NaN:
    it stores the values 1 and NaN, whatever the sentinel [BIIPS_REALNA] is,
    and the missing value is not replaced by the sentinel. *)
Theorem NA_not_replaced_on_write (g : Globals) :
  (forall r_vec,
      Values (to_MultiArray BIIPS_REALNA Size_bits r_vec) = data r_vec) /\
  map Values
      (StdMap.elems
         (snd (writeDataTable g
                 (Named [("x"%string,
                          {| data := [double_one; NA_REAL];
                             dim_attr := None |})]))))
  = [[double_one; NA_REAL]].
Proof.
  split.
  - intro r_vec. unfold to_MultiArray.
    destruct (dim_attr r_vec); cbn [Values]; apply replace_copy_NA_REAL.
  - reflexivity.
Qed.

(** C10. For a data list without names, [writeDataTable] returns the empty
    map, so that no variable of the list is converted; it returns normally,
    and what it writes to the error stream is the one warning.  (The output
    stream receives the progress line when [VERBOSITY > 1].) *)
Theorem unnamed_data_discarded (g : Globals) (l : list RNumeric) :
  snd (writeDataTable g (Unnamed l)) = StdMap.empty /\
  (forall name, StdMap.find String.ltb name (snd (writeDataTable g (Unnamed l)))
                = None) /\
  written_to rbiips_cerr (fst (writeDataTable g (Unnamed l)))
    = [("Warning: Missing variable names" ++ endl)%string] /\
  written_to rbiips_cout (fst (writeDataTable g (Unnamed l)))
    = if (1 <? VERBOSITY g)%nat
      then [(PROMPT_STRING ++ "Writing data table" ++ endl)%string]
      else [].
Proof.
  unfold writeDataTable, verbose. cbn [snd fst].
  destruct (1 <? VERBOSITY g)%nat; repeat split.
Qed.

(** With names, the same list is converted. *)
Example named_data_converted (g : Globals) :
  map fst (snd (writeDataTable g
                  (Named [("x"%string,
                           {| data := [double_one]; dim_attr := None |})])))
  = ["x"%string].
Proof. reflexivity. Qed.
End DataTableFacts.

(** The round trip of the vector [c(1, NA, s)] named "x", where [s] is the
    sentinel, taken here to be the most negative finite double, with a 32-bit
    [Size]: the NaN comes back because nothing touched it, the entry equal to
    the sentinel comes back as [NA_REAL], and the vector, which had no "dim"
    attribute, comes back with one. *)
Example round_trip_of_three :
  let sentinel := S754_finite true 9007199254740991 971 in
  let g := initial_globals in
  snd (readDataTable sentinel "* " "  " 32 g
         (snd (writeDataTable sentinel "* " "  " 32 g
                 (Named [("x"%string,
                          {| data := [double_one; NA_REAL; sentinel];
                             dim_attr := None |})]))))
  = Some (Named [("x"%string,
                  {| data := [double_one; NA_REAL; NA_REAL];
                     dim_attr := Some [3%Z] |})]).
Proof. reflexivity. Qed.

(** An array without any extent cannot be handed to R: the assignment of
    an empty "dim" attribute is an error, and no list is returned. *)
Example array_without_extent_rejected :
  snd (readDataTable (S754_finite true 9007199254740991 971) "* " "  " 32
         initial_globals
         [("x"%string, {| Dim := []; Values := [double_one] |})])
  = None.
Proof. reflexivity. Qed.

(** ** The data table, written and read back *)

Lemma string_ltb_irrefl s : String.ltb s s = false.
Proof.
  unfold String.ltb.
  pose proof (proj2 (OrderedTypeEx.String_as_OT.cmp_eq s s) eq_refl) as E.
  unfold OrderedTypeEx.String_as_OT.cmp in E. now rewrite E.
Qed.

Lemma string_ltb_lt a b :
  String.ltb a b = true <-> OrderedTypeEx.String_as_OT.lt a b.
Proof.
  rewrite <- OrderedTypeEx.String_as_OT.cmp_lt.
  unfold String.ltb, OrderedTypeEx.String_as_OT.cmp.
  destruct (String.compare a b); split; congruence.
Qed.

Lemma string_ltb_trans a b c :
  String.ltb a b = true -> String.ltb b c = true -> String.ltb a c = true.
Proof.
  rewrite !string_ltb_lt. apply OrderedTypeEx.String_as_OT.lt_trans.
Qed.

Lemma string_ltb_total a b :
  String.ltb a b = false -> String.ltb b a = false -> a = b.
Proof.
  unfold String.ltb. rewrite (String.compare_antisym b a).
  destruct (String.compare a b) eqn:E; cbn; try discriminate.
  intros _ _. now apply String.compare_eq_iff.
Qed.

Section StdMapFind.
Context {K V : Type}.
Variable ltb : K -> K -> bool.
Hypothesis ltb_irrefl : forall k, ltb k k = false.
Hypothesis ltb_trans :
  forall a b c, ltb a b = true -> ltb b c = true -> ltb a c = true.
Hypothesis ltb_total :
  forall a b, ltb a b = false -> ltb b a = false -> a = b.

Implicit Types (m : @StdMap.t K V) (k : K).

Lemma find_In k v m :
  sorted_keys ltb m -> (StdMap.find ltb k m = Some v <-> In (k, v) m).
Proof.
  induction m as [|[k0 v0] m IH]; intro Hs; cbn [StdMap.find In].
  - split; [discriminate | tauto].
  - apply sorted_keys_cons in Hs. destruct Hs as [Hs Hall].
    rewrite Forall_forall in Hall.
    destruct (ltb k k0) eqn:E1; [|destruct (ltb k0 k) eqn:E2].
    + split; [discriminate|]. intros [[= -> ->]|Hin].
      * rewrite ltb_irrefl in E1. discriminate.
      * apply (in_map fst) in Hin. specialize (Hall k Hin).
        pose proof (ltb_trans _ _ _ E1 Hall) as C.
        rewrite ltb_irrefl in C. discriminate.
    + rewrite (IH Hs). split; [tauto|]. intros [[= -> ->]|Hin]; [|exact Hin].
      rewrite ltb_irrefl in E2. discriminate.
    + pose proof (ltb_total k k0 E1 E2) as ->. split.
      * intros [= ->]. now left.
      * intros [[= ->]|Hin]; [reflexivity|].
        apply (in_map fst) in Hin. specialize (Hall k0 Hin).
        rewrite ltb_irrefl in Hall. discriminate.
Qed.

Lemma find_None k m :
  sorted_keys ltb m -> ~ In k (StdMap.keys m) -> StdMap.find ltb k m = None.
Proof.
  intros Hs Hk. destruct (StdMap.find ltb k m) as [v|] eqn:E; [|reflexivity].
  apply (find_In k v m Hs) in E. exfalso. apply Hk.
  apply (in_map fst) in E. exact E.
Qed.
End StdMapFind.

Lemma lookup_In name l :
  In name (map fst l) -> exists v, lookup name l = Some v.
Proof.
  induction l as [|[n v] l IH]; cbn [map fst In lookup]; [tauto|].
  intros [->|H].
  - rewrite String.eqb_refl. eauto.
  - destruct (String.eqb n name); eauto.
Qed.

Lemma lookup_not_In name l :
  ~ In name (map fst l) -> lookup name l = None.
Proof.
  induction l as [|[n v] l IH]; cbn [map fst In lookup]; [reflexivity|].
  intro H. destruct (String.eqb n name) eqn:E.
  - apply String.eqb_eq in E. tauto.
  - apply IH. tauto.
Qed.

Lemma lookup_NoDup name v l :
  NoDup (map fst l) -> In (name, v) l -> lookup name l = Some v.
Proof.
  induction l as [|[n v'] l IH]; cbn [map fst In lookup]; [tauto|].
  intros Hnd [[= -> ->]|Hin].
  - now rewrite String.eqb_refl.
  - inversion Hnd as [|? ? Hnot Hnd']; subst.
    destruct (String.eqb n name) eqn:E.
    + apply String.eqb_eq in E. subst. exfalso. apply Hnot.
      apply (in_map fst) in Hin. exact Hin.
    + now apply IH.
Qed.

Lemma set_named_fresh name v l :
  ~ In name (map fst l) -> set_named name v l = l ++ [(name, v)].
Proof.
  induction l as [|[n v'] l IH]; cbn [map fst In set_named app]; [reflexivity|].
  intro H. destruct (String.eqb n name) eqn:E.
  - apply String.eqb_eq in E. tauto.
  - rewrite IH by tauto. reflexivity.
Qed.

Section RoundTrip.
Variable BIIPS_REALNA : double.
Variables PROMPT_STRING INDENT_STRING : string.
Variable Size_bits : Z.
Hypothesis Size_is_wide : (32 <= Size_bits)%Z.

Local Abbreviation to_Size := (to_Size Size_bits).
Local Abbreviation Length := (Length Size_bits).
Local Abbreviation to_MultiArray := (to_MultiArray BIIPS_REALNA Size_bits).
Local Abbreviation of_MultiArray := (of_MultiArray BIIPS_REALNA Size_bits).
Local Abbreviation write_loop := (write_loop BIIPS_REALNA Size_bits).
Local Abbreviation read_loop := (read_loop BIIPS_REALNA Size_bits).
Local Abbreviation writeDataTable :=
  (writeDataTable BIIPS_REALNA PROMPT_STRING INDENT_STRING Size_bits).
Local Abbreviation readDataTable :=
  (readDataTable BIIPS_REALNA PROMPT_STRING INDENT_STRING Size_bits).

Local Open Scope Z_scope.

Lemma Size_range : 2 ^ 32 <= 2 ^ Size_bits.
Proof. apply Z.pow_le_mono_r; lia. Qed.

Lemma to_Size_small z : 0 <= z < 2 ^ 31 -> to_Size z = z.
Proof.
  intro H. unfold RbiipsUtils.to_Size. apply Z.mod_small.
  pose proof Size_range. lia.
Qed.

Lemma to_int_small z : 0 <= z < 2 ^ 31 -> to_int z = z.
Proof.
  intro H. unfold to_int. rewrite Z.mod_small; lia.
Qed.

Lemma map_id_on {A} (f : A -> A) (P : A -> Prop) l :
  (forall a, P a -> f a = a) -> Forall P l -> map f l = l.
Proof.
  intros Hf. induction 1 as [|a l Ha _ IH]; cbn; [reflexivity|].
  now rewrite (Hf a Ha), IH.
Qed.

(** The wrapped product is the product, wrapped once. *)
Lemma Length_fold d : forall a,
  fold_left (fun acc n => to_Size (acc * n)) d (a mod 2 ^ Size_bits)
  = (a * fold_right Z.mul 1 d) mod 2 ^ Size_bits.
Proof.
  pose proof Size_range as HS.
  induction d as [|n d IH]; intro a; cbn [fold_left fold_right].
  - now rewrite Z.mul_1_r.
  - unfold RbiipsUtils.to_Size at 2.
    rewrite Z.mul_mod_idemp_l by lia. rewrite IH. f_equal. ring.
Qed.

Lemma Length_product d :
  0 <= fold_right Z.mul 1 d < 2 ^ 31 -> Length d = fold_right Z.mul 1 d.
Proof.
  pose proof Size_range as HS. intro H. unfold RbiipsUtils.Length.
  replace 1 with (1 mod 2 ^ Size_bits) at 1 by (apply Z.mod_small; lia).
  rewrite Length_fold, Z.mul_1_l. apply Z.mod_small. lia.
Qed.

Lemma length_replace_copy src old_value new_value :
  length (replace_copy src old_value new_value) = length src.
Proof. unfold replace_copy. apply length_map. Qed.

Lemma copy_into_exact (src : list double) :
  copy_into src (repeat (S754_zero false) (length src)) = Some src.
Proof.
  unfold copy_into. rewrite repeat_length, Nat.leb_refl.
  rewrite skipn_all2 by (rewrite repeat_length; lia).
  now rewrite app_nil_r.
Qed.

(** R accepts as "dim" a non-empty vector of non-negative integers whose
    product is the length. *)
Lemma dim_fits_product len d :
  d <> [] ->
  Forall (fun n => 0 <= n < 2 ^ 31) d ->
  fold_right Z.mul 1 d = Z.of_nat len ->
  dim_fits len d = true.
Proof.
  intros Hne Hd Hprod. unfold dim_fits.
  destruct d as [|n d]; [congruence|]. cbn [length Nat.eqb negb andb].
  rewrite Hprod, Z.eqb_refl, andb_true_r.
  apply forallb_forall. intros x Hx. rewrite Forall_forall in Hd.
  apply Z.leb_le. exact (proj1 (Hd x Hx)).
Qed.

(** One well-formed vector, written and read back. *)
Lemma of_to_MultiArray v :
  well_formed_vector v ->
  dim_attr v <> Some [] ->
  of_MultiArray (to_MultiArray v) = Some (read_back BIIPS_REALNA v).
Proof.
  intros [Hlen Hdim] Hext.
  assert (Hn : 0 <= Z.of_nat (length (data v)) < 2 ^ 31) by lia.
  unfold RbiipsUtils.of_MultiArray, RbiipsUtils.to_MultiArray, read_back.
  destruct (dim_attr v) as [d|]; cbn [Dim Values].
  - destruct Hdim as [Hd Hprod].
    rewrite (map_id_on _ _ d to_Size_small Hd).
    rewrite Length_product by (rewrite Hprod; exact Hn).
    rewrite Hprod, Nat2Z.id, replace_copy_NA_REAL.
    rewrite <- (length_replace_copy (data v) BIIPS_REALNA NA_REAL) at 1.
    rewrite copy_into_exact.
    rewrite (map_id_on _ _ d to_int_small Hd).
    rewrite dim_fits_product; [reflexivity | congruence | exact Hd |].
    now rewrite length_replace_copy.
  - rewrite to_Size_small by exact Hn.
    rewrite Length_product by (cbn; lia).
    cbn [fold_right]. rewrite Z.mul_1_r, Nat2Z.id, replace_copy_NA_REAL.
    rewrite <- (length_replace_copy (data v) BIIPS_REALNA NA_REAL) at 1.
    rewrite copy_into_exact.
    cbn [map]. rewrite to_int_small by exact Hn.
    rewrite dim_fits_product; [reflexivity | discriminate | |].
    + constructor; [exact Hn | constructor].
    + cbn [fold_right]. rewrite length_replace_copy. lia.
Qed.
(** The map [writeDataTable] builds binds names of the list, each to the
    conversion of the first vector of that name. *)
Lemma write_loop_bindings g data_list names : forall out data_map,
  (forall n, In n names -> In n (map fst data_list)) ->
  sorted_keys String.ltb data_map ->
  (forall n ma, In (n, ma) data_map ->
     exists v, lookup n data_list = Some v /\ ma = to_MultiArray v) ->
  let m := snd (write_loop g data_list names out data_map) in
  sorted_keys String.ltb m /\
  (forall n ma, In (n, ma) m ->
     exists v, lookup n data_list = Some v /\ ma = to_MultiArray v) /\
  (forall n, In n (StdMap.keys m) <-> In n (StdMap.keys data_map) \/ In n names).
Proof.
  induction names as [|name names IH]; intros out data_map Hnames Hs Hb;
    cbn zeta; cbn [RbiipsUtils.write_loop snd].
  - repeat split; [exact Hs | exact Hb | tauto | intros [H|[]]; exact H].
  - destruct (lookup_In name data_list (Hnames name (or_introl eq_refl)))
      as [v Hv].
    rewrite Hv.
    set (m1 := StdMap.assign String.ltb name (to_MultiArray v) data_map).
    destruct (IH (out ++ verbose g [(rbiips_cout, (" " ++ name)%string)])%list m1)
      as (Hs' & Hb' & Hk').
    + intros n Hn. apply Hnames. now right.
    + apply (upsert_sorted String.ltb string_ltb_trans string_ltb_total), Hs.
    + intros n ma Hin.
      destruct (In_upsert String.ltb string_ltb_irrefl string_ltb_trans
                  string_ltb_total _ _ _ _ _ Hs Hin)
        as [[-> [[-> _]|[v0 [_ ->]]]]|[_ Hold]].
      * eauto.
      * eauto.
      * exact (Hb n ma Hold).
    + repeat split; [exact Hs' | exact Hb' | |].
      * intro Hn. apply Hk' in Hn. destruct Hn as [Hn|Hn]; [|right; now right].
        apply (In_keys_upsert String.ltb string_ltb_total) in Hn.
        destruct Hn as [->|Hn]; [right; now left | now left].
      * intros [Hn|[<-|Hn]]; apply Hk'.
        -- left. apply (In_keys_upsert String.ltb string_ltb_total). now right.
        -- left. apply (In_keys_upsert String.ltb string_ltb_total). now left.
        -- now right.
Qed.

(** [readDataTable] appends one named element per entry of the map. *)
Lemma read_loop_appends g entries : forall out acc,
  NoDup (map fst entries) ->
  (forall n, In n (map fst entries) -> ~ In n (map fst acc)) ->
  (forall n ma, In (n, ma) entries ->
     exists r, of_MultiArray ma = Some r) ->
  exists res,
    snd (read_loop g entries out (Named acc)) = Some (Named (acc ++ res)) /\
    Forall2 (fun e e' => fst e' = fst e /\ of_MultiArray (snd e) = Some (snd e'))
            entries res.
Proof.
  induction entries as [|[name ma] entries IH]; intros out acc Hnd Hfresh Hok.
  - exists []. split; [cbn; now rewrite app_nil_r | constructor].
  - cbn [map fst] in Hnd. inversion Hnd as [|? ? Hnot Hnd']; subst.
    destruct (Hok name ma (or_introl eq_refl)) as [r Hr].
    cbn [RbiipsUtils.read_loop]. rewrite Hr. cbn [set_by_name].
    rewrite set_named_fresh by (apply Hfresh; now left).
    destruct (IH (out ++ verbose g [(rbiips_cout, (" " ++ name)%string)])%list
                 (acc ++ [(name, r)])%list Hnd') as [res [Hres HF]].
    + intros n Hn. rewrite map_app, in_app_iff. cbn [map fst In].
      intros [Hacc|[<-|[]]].
      * apply (Hfresh n); [now right | exact Hacc].
      * exact (Hnot Hn).
    + intros n ma' Hin. apply (Hok n ma'). now right.
    + exists ((name, r) :: res). split.
      * rewrite Hres. now rewrite <- app_assoc.
      * constructor; [now split | exact HF].
Qed.

Lemma Forall2_names {A B} (P : A -> B -> Prop)
    (es : list (string * A)) (res : list (string * B)) :
  Forall2 (fun e e' => fst e' = fst e /\ P (snd e) (snd e')) es res ->
  map fst res = map fst es.
Proof.
  induction 1 as [|e e' es res [Hn _] _ IH]; cbn; [reflexivity|].
  now rewrite Hn, IH.
Qed.

Lemma Forall2_In_r {A B} (P : A -> B -> Prop)
    (es : list (string * A)) (res : list (string * B)) n a :
  Forall2 (fun e e' => fst e' = fst e /\ P (snd e) (snd e')) es res ->
  In (n, a) es -> exists b, In (n, b) res /\ P a b.
Proof.
  induction 1 as [|e e' es res [Hn HP] _ IH]; cbn [In]; [tauto|].
  intros [->|Hin].
  - destruct e' as [n' b]. cbn in *. subst. eauto.
  - destruct (IH Hin) as [b [Hb HPb]]. eauto.
Qed.

(** What the round trip does, on every list with names whose vectors are
    well formed, with a "dim" attribute that is not empty if they have one:
    each name comes back once, bound to the first vector of that name, read
    back. *)
Lemma data_table_round_trip g g' data_list :
  Forall (fun e => well_formed_vector (snd e) /\ dim_attr (snd e) <> Some [])
         data_list ->
  exists back,
    snd (readDataTable g' (snd (writeDataTable g (Named data_list))))
      = Some back /\
    forall name,
      element name back
      = option_map (read_back BIIPS_REALNA) (lookup name data_list).
Proof.
  intro Hwf.
  unfold RbiipsUtils.writeDataTable.
  set (out0 := (_ ++ verbose g [(rbiips_cout, _)])%list).
  destruct (write_loop_bindings g data_list (map fst data_list) out0
              StdMap.empty) as (Hs & Hb & Hk).
  { tauto. }
  { constructor. }
  { intros n ma []. }
  cbn zeta in Hs, Hb, Hk.
  destruct (write_loop g data_list (map fst data_list) out0 StdMap.empty)
    as [out1 m] eqn:Ew.
  cbn [snd] in *.
  assert (Hconv : forall n ma, In (n, ma) m ->
            exists v, lookup n data_list = Some v /\
                      of_MultiArray ma = Some (read_back BIIPS_REALNA v)).
  { intros n ma Hin. destruct (Hb n ma Hin) as [v [Hv ->]].
    exists v. split; [exact Hv|].
    rewrite Forall_forall in Hwf.
    assert (Hin' : exists n', In (n', v) data_list).
    { clear - Hv. induction data_list as [|[n' v'] l IH]; [discriminate|].
      cbn [lookup] in Hv. destruct (String.eqb n' n).
      - injection Hv as <-. exists n'. now left.
      - destruct (IH Hv) as [n'' H]. exists n''. now right. }
    destruct Hin' as [n' Hin']. destruct (Hwf (n', v) Hin') as [H1 H2].
    now apply of_to_MultiArray. }
  pose proof (sorted_keys_NoDup String.ltb string_ltb_irrefl m Hs) as Hnd.
  unfold RbiipsUtils.readDataTable.
  set (out2 := (_ ++ verbose g' [(rbiips_cout, _)])%list).
  destruct m as [|[n0 ma0] m'] eqn:Em.
  - (* no variable at all *)
    exists (Unnamed []). split; [reflexivity|].
    intro name. cbn [element].
    rewrite lookup_not_In; [reflexivity|].
    intro Hin. exact (proj2 (Hk name) (or_intror Hin)).
  - destruct (Hconv n0 ma0 (or_introl eq_refl)) as [v0 [Hv0 Hr0]].
    cbn [RbiipsUtils.read_loop]. rewrite Hr0. cbn [set_by_name map app].
    cbn [StdMap.keys map fst] in Hnd. inversion Hnd as [|? ? Hnot Hnd']; subst.
    destruct (read_loop_appends g' m'
                (out2 ++ verbose g' [(rbiips_cout, (" " ++ n0)%string)])%list
                [(n0, read_back BIIPS_REALNA v0)] Hnd') as [res [Hres HF]].
    { intros n Hn [<-|[]]. exact (Hnot Hn). }
    { intros n ma Hin. destruct (Hconv n ma (or_intror Hin)) as [v [_ Hr]]. eauto. }
    destruct (read_loop g' m' _ _) as [out3 r3]. cbn [snd] in Hres. subst r3.
    eexists. split; [reflexivity|].
    intro name. cbn [element app].
    assert (Hnd_res : NoDup (map fst ((n0, read_back BIIPS_REALNA v0) :: res))).
    { cbn [map fst]. rewrite (Forall2_names (fun ma r => of_MultiArray ma = Some r) _ _ HF). exact Hnd. }
    destruct (in_dec string_dec name (map fst data_list)) as [Hin|Hout].
    + destruct (lookup_In name data_list Hin) as [v Hv]. rewrite Hv.
      cbn [option_map]. apply lookup_NoDup; [exact Hnd_res|].
      assert (Hkey : In name (StdMap.keys ((n0, ma0) :: m')))
        by (apply Hk; now right).
      cbn [StdMap.keys map fst In] in Hkey.
      destruct Hkey as [<-|Hkey].
      * left. congruence.
      * right. apply in_map_iff in Hkey. destruct Hkey as [[n ma] [Hn Hin']].
        cbn [fst] in Hn. subst n.
        destruct (Forall2_In_r (fun ma r => of_MultiArray ma = Some r)
                    _ _ _ _ HF Hin') as [r [Hr Hof]].
        destruct (Hconv name ma (or_intror Hin')) as [v' [Hv' Hr']].
        assert (v' = v) by congruence. subst v'.
        assert (r = read_back BIIPS_REALNA v) by congruence. now subst r.
    + rewrite (lookup_not_In name data_list Hout). cbn [option_map].
      apply lookup_not_In. cbn [map fst]. rewrite (Forall2_names (fun ma r => of_MultiArray ma = Some r) _ _ HF).
      intro Hkey. apply Hout.
      assert (Hkey' : In name (StdMap.keys ((n0, ma0) :: m'))) by exact Hkey.
      apply Hk in Hkey'. destruct Hkey' as [[]|H]; exact H.
Qed.
End RoundTrip.

(* ================================================================== *)
(** * Part III: pushes, statistics, flags and monitors                 *)
(* ================================================================== *)

Import Notions.

(** ** The pushes of the entry points *)

Lemma pushes_bind {A B} (m : M A) (f : A -> M B) :
  pushes (bind m f)
  = pushes m ++ match result m with Ret a => pushes (f a) | _ => [] end.
Proof.
  destruct m as [t [a|e|]]; unfold pushes, result; cbn [bind fst snd].
  - now destruct (f a).
  - now rewrite app_nil_r.
  - now rewrite app_nil_r.
Qed.

Lemma result_bind_Ret {A B} (m : M A) (f : A -> M B) b :
  result (bind m f) = Ret b ->
  exists a, result m = Ret a /\ result (f a) = Ret b.
Proof.
  rewrite result_bind. destruct (result m) as [a|e|]; try discriminate. eauto.
Qed.

Lemma silent_lift {A} (o : outcome A) : silent (lift o).
Proof. reflexivity. Qed.

Lemma silent_store {A} (vec : list A) i x : silent (store vec i x).
Proof. unfold store. now destruct (i <? length vec)%nat. Qed.

Lemma silent_bind {A B} (m : M A) (f : A -> M B) :
  silent m -> (forall a, silent (f a)) -> silent (bind m f).
Proof.
  unfold silent. intros Hm Hf. rewrite pushes_bind, Hm.
  destruct (result m); [apply Hf | reflexivity..].
Qed.

Lemma silent_deref_all {A} (r : list (option A)) : silent (deref_all r).
Proof.
  induction r as [|[a|] r IH]; [reflexivity| |reflexivity].
  cbn [deref_all]. apply silent_bind; [exact IH | reflexivity].
Qed.

Lemma silent_mapM_lift {A B} (f : A -> outcome B) l :
  silent (mapM (fun a => lift (f a)) l).
Proof.
  induction l as [|a l IH]; [reflexivity|].
  cbn [mapM]. apply silent_bind; [apply silent_lift|].
  intro b. apply silent_bind; [exact IH | reflexivity].
Qed.

Lemma silent_add_features {AC : AccumulatorClass} fs :
  forall accu, silent (add_features fs accu).
Proof.
  induction fs as [|[tag|] fs IH]; intro accu; [reflexivity| |reflexivity].
  cbn [add_features]. apply IH.
Qed.

Section Fed.
Context {A : Type}.
Variable push : Scalar -> Scalar -> A -> outcome A.

(** The loop of pushes stops at the first [Push] that does not return, and
    runs over the whole stream otherwise. *)
Lemma fed_push_all obs : forall a, fed obs (push_all push obs a).
Proof.
  induction obs as [|[x w] obs IH]; intro a.
  - split; [now exists [] | reflexivity].
  - cbn [push_all]. unfold call_Push.
    destruct (push x w a) as [a'|e|]; cbn [bind].
    + destruct (IH a') as [[rest Hrest] Hall].
      destruct (push_all push obs a') as [t r].
      unfold pushes, result in *. cbn [fst snd] in *.
      split; unfold pushes, result; cbn [fst snd app].
      * exists rest. now rewrite <- Hrest.
      * intros b Hb. now rewrite (Hall b Hb).
    + split; [now exists obs | discriminate].
    + split; [now exists obs | discriminate].
Qed.
End Fed.

Lemma fed_throw {A} obs (e : Error) : fed obs (throw e : M A).
Proof. split; [now exists obs | discriminate]. Qed.

Lemma fed_undefined {A} obs : fed obs (undefined : M A).
Proof. split; [now exists obs | discriminate]. Qed.

(** What follows the loop invokes no further [Push]. *)
Lemma fed_then {A B} obs (m : M A) (f : A -> M B) :
  fed obs m -> (forall a, silent (f a)) -> fed obs (bind m f).
Proof.
  intros [[rest Hrest] Hall] Hf. split.
  - exists rest. rewrite pushes_bind.
    destruct (result m) as [a|e|]; [rewrite (Hf a)|..];
      now rewrite app_nil_r.
  - intros b Hb. apply result_bind_Ret in Hb. destruct Hb as [a [Ha _]].
    rewrite pushes_bind, Ha, (Hf a), app_nil_r. exact (Hall a Ha).
Qed.

(** What precedes the loop invokes none either. *)
Lemma fed_after {A B} obs (m : M A) (f : A -> M B) :
  silent m -> (forall a, fed obs (f a)) -> fed obs (bind m f).
Proof.
  intros Hm Hf. split.
  - rewrite pushes_bind, Hm. cbn [app].
    destruct (result m) as [a|e|]; [apply (Hf a) | now exists obs ..].
  - intros b Hb. apply result_bind_Ret in Hb. destruct Hb as [a [Ha Hfa]].
    rewrite pushes_bind, Hm, Ha. cbn [app]. exact (proj2 (Hf a) b Hfa).
Qed.

Lemma fed_if {A} obs (b : bool) (e : Error) (m : M A) :
  fed obs m -> fed obs (if b then throw e else m).
Proof. destruct b; [intros _; apply fed_throw | tauto]. Qed.

Lemma silent_if {A} (b : bool) (m m' : M A) :
  silent m -> silent m' -> silent (if b then m else m').
Proof. now destruct b. Qed.

Ltac silence :=
  repeat first
    [ progress intros
    | apply silent_bind
    | apply silent_if
    | apply silent_lift
    | apply silent_store
    | apply silent_deref_all
    | apply silent_mapM_lift
    | apply silent_add_features
    | reflexivity ].

Section AnyEntryPoint.
Context {AC : AccumulatorClass} {QC : QuantileAccumulatorClass}
        {DC : DiscreteAccumulatorClass}.

Lemma fed_accumulate values weights fs :
  fed (combine values weights) (accumulate values weights fs).
Proof.
  unfold accumulate. apply fed_if, fed_after; [apply silent_add_features|].
  intro accu. apply fed_push_all.
Qed.

Lemma fed_run_stat (c : StatCall) :
  fed (combine (values_of c) (weights_of c)) (run_stat c).
Proof.
  destruct c; cbn [values_of weights_of run_stat];
    unfold wtd_stat, wtd_mean, wtd_var, wtd_skew, wtd_kurt,
           wtd_quantile, wtd_median, wtd_table, wtd_mode.
  1-5: apply fed_then; [apply fed_accumulate | silence].
  1-2: apply fed_if, fed_after; [apply silent_lift|]; intro accu0;
       (apply fed_then; [apply fed_push_all | silence]).
  1-2: apply fed_if, fed_then; [apply fed_push_all | silence].
Qed.

Lemma run_stat_needs_equal_lengths (c : StatCall) r :
  result (run_stat c) = Ret r ->
  length (values_of c) = length (weights_of c).
Proof.
  intro H.
  destruct (Nat.eq_dec (length (values_of c)) (length (weights_of c)))
    as [E|NE]; [exact E | exfalso].
  destruct c; cbn [values_of weights_of run_stat] in *;
    unfold wtd_stat, wtd_mean, wtd_var, wtd_skew, wtd_kurt,
           wtd_quantile, wtd_median, wtd_table, wtd_mode in H;
    rewrite ?accumulate_mismatch, ?length_check_fails in H by exact NE;
    discriminate.
Qed.

(** X1. Whatever the accumulator classes do and however the call ends, the
    pairs an entry point has passed to [Push] are an initial segment of the
    stream of (value, weight) pairs, in the order of the input: no pair is
    pushed twice, skipped or reordered. *)
Theorem pushes_are_a_prefix (c : StatCall) :
  exists rest,
    combine (values_of c) (weights_of c) = pushes (run_stat c) ++ rest.
Proof. exact (proj1 (fed_run_stat c)). Qed.

(** X2. An entry point returns a value only when the two sequences have the
    same length and every pair of the stream has been passed to [Push],
    once and in order, each [Push] having returned normally. *)
Theorem value_needs_whole_stream (c : StatCall) (r : NumericVector) :
  result (run_stat c) = Ret r ->
  length (values_of c) = length (weights_of c) /\
  pushes (run_stat c) = combine (values_of c) (weights_of c).
Proof.
  intro H. split.
  - exact (run_stat_needs_equal_lengths c r H).
  - exact (proj2 (fed_run_stat c) r H).
Qed.
End AnyEntryPoint.

Lemma value_needs_whole_stream_witness :
  length [real 1 1; real 2 1; real 2 1] = length [real 1 1; real 3 1; real 1 1] /\
  pushes (wtd_mode (DC := discrete)
            [real 1 1; real 2 1; real 2 1] [real 1 1; real 3 1; real 1 1])
  = [(real 1 1, real 1 1); (real 2 1, real 3 1); (real 2 1, real 1 1)].
Proof.
  apply (value_needs_whole_stream
           (AC := moments (fun x _ => x)) (QC := quantiles) (DC := discrete)
           (Call_wtd_mode [real 1 1; real 2 1; real 2 1]
                          [real 1 1; real 3 1; real 1 1])
           (wrap (real 2 1))).
  reflexivity.
Defined.

(** ** The statistics [wtd_stat] returns *)

Lemma map_fst_combine {A B} (l : list A) : forall (l' : list B),
  length l = length l' -> map fst (combine l l') = l.
Proof.
  induction l as [|a l IH]; intros [|b l'] H; try discriminate; [reflexivity|].
  cbn [combine map fst]. f_equal. apply IH. now injection H.
Qed.

Lemma map_snd_combine {A B} (l : list A) : forall (l' : list B),
  length l = length l' -> map snd (combine l l') = l'.
Proof.
  induction l as [|a l IH]; intros [|b l'] H; try discriminate; [reflexivity|].
  cbn [combine map snd]. f_equal. apply IH. now injection H.
Qed.

(** With the modelled accumulator, what [wtd_stat] comes to on every
    stream. *)
Lemma wtd_stat_closed_form pow obs (order : nat) :
  (1 <= order <= 4)%nat ->
  result (wtd_stat (AC := moments pow) (map fst obs) (map snd obs) order)
  = if all_nonneg obs
    then if Qceqb (total_weight obs) 0 then Throw DegenerateInput
         else if (3 <=? order)%nat && Qceqb (population_variance obs) 0
              then Throw DegenerateInput
              else Ret {| WtdStat.values :=
                            firstn order (stream_statistics pow obs);
                          names_attr :=
                            Some (Strings
                                    (firstn order
                                       ["mean"; "var"; "skew"; "kurt"]%string));
                          class_attr := None |}
    else Throw InvalidArgument.
Proof.
  intros Horder. rewrite (wtd_stat_matches_entry_points pow _ _ order Horder).
  unfold scalar_of.
  rewrite wtd_mean_closed_form, wtd_var_closed_form, wtd_skew_closed_form,
          wtd_kurt_closed_form.
  unfold stream_statistics, weighted_skewness, weighted_kurtosis.
  destruct Horder as [Hlo Hhi].
  destruct order as [|[|[|[|[|order]]]]]; try lia; clear Hlo Hhi;
    destruct (all_nonneg obs); try reflexivity;
    destruct (Qceqb (total_weight obs) 0); try reflexivity;
    destruct (Qceqb (population_variance obs) 0); reflexivity.
Qed.

(** C5. For an order [k] from 1 to 4 and sequences of equal length, with
    the accumulator of the Biips core as the specification describes it:
    whenever [wtd_stat] returns, every pair of the stream has been pushed,
    in order, and the vector holds exactly [k] values, the first [k] of the
    weighted mean, the weighted variance, the skewness and the kurtosis of
    the stream, under the names "mean", "var", "skew", "kurt" truncated to
    [k]; it does return when no weight is negative, the total weight is not
    zero and, from order 3 on, the variance is not zero.  With any
    accumulator class at all, a vector returned has [k] values and these
    [k] names. *)
Theorem wtd_stat_named_statistics
    (pow : Scalar -> Scalar -> Scalar) (values weights : list Scalar)
    (order : nat) :
  (1 <= order <= 4)%nat ->
  length values = length weights ->
  (forall r,
      result (wtd_stat (AC := moments pow) values weights order) = Ret r ->
      pushes (wtd_stat (AC := moments pow) values weights order)
        = combine values weights /\
      r = {| WtdStat.values :=
               firstn order (stream_statistics pow (combine values weights));
             names_attr :=
               Some (Strings (firstn order
                                ["mean"; "var"; "skew"; "kurt"]%string));
             class_attr := None |}) /\
  (Forall (fun w => 0 <= w) weights ->
   total_weight (combine values weights) <> 0 ->
   ((3 <= order)%nat -> population_variance (combine values weights) <> 0) ->
   wtd_stat (AC := moments pow) values weights order
   = (combine values weights,
      Ret {| WtdStat.values :=
               firstn order (stream_statistics pow (combine values weights));
             names_attr :=
               Some (Strings (firstn order
                                ["mean"; "var"; "skew"; "kurt"]%string));
             class_attr := None |})) /\
  (forall (AC : AccumulatorClass) r,
      result (wtd_stat (AC := AC) values weights order) = Ret r ->
      length (WtdStat.values r) = order /\
      names_attr r
      = Some (Strings (firstn order ["mean"; "var"; "skew"; "kurt"]%string))).
Proof.
  intros Horder Hlen.
  pose proof (wtd_stat_closed_form pow (combine values weights) order Horder)
    as Hcf.
  rewrite (map_fst_combine values weights Hlen),
          (map_snd_combine values weights Hlen) in Hcf.
  assert (Hfed : forall r,
             result (wtd_stat (AC := moments pow) values weights order) = Ret r ->
             pushes (wtd_stat (AC := moments pow) values weights order)
             = combine values weights).
  { intros r Hr.
    exact (proj2 (fed_run_stat (AC := moments pow) (QC := quantiles)
                    (DC := discrete) (Call_wtd_stat values weights order))
                 r Hr). }
  split; [|split].
  - intros r Hr. split; [exact (Hfed r Hr)|].
    rewrite Hcf in Hr.
    destruct (all_nonneg (combine values weights)); [|discriminate].
    destruct (Qceqb (total_weight (combine values weights)) 0);
      [discriminate|].
    destruct ((3 <=? order)%nat
              && Qceqb (population_variance (combine values weights)) 0);
      [discriminate|].
    now injection Hr as <-.
  - intros Hnn HW Hvar.
    assert (Hr : result (wtd_stat (AC := moments pow) values weights order)
                 = Ret {| WtdStat.values :=
                            firstn order
                              (stream_statistics pow (combine values weights));
                          names_attr :=
                            Some (Strings
                                    (firstn order
                                       ["mean"; "var"; "skew"; "kurt"]%string));
                          class_attr := None |}).
    { rewrite Hcf.
      rewrite (proj2 (all_nonneg_Forall _) (combine_nonneg values weights Hnn)).
      apply Qceqb_neq in HW. rewrite HW.
      destruct (3 <=? order)%nat eqn:E3; cbn [andb]; [|reflexivity].
      apply Nat.leb_le in E3. apply Hvar, Qceqb_neq in E3. now rewrite E3. }
    pose proof (Hfed _ Hr) as Hp.
    unfold pushes, result in Hp, Hr.
    destruct (wtd_stat (AC := moments pow) values weights order) as [t o].
    cbn [fst snd] in Hp, Hr. now rewrite Hp, Hr.
  - intros AC r Hr.
    rewrite (wtd_stat_unfolded (AC := AC) _ _ _ Horder) in Hr.
    destruct (result (accumulate _ _ _)) as [accu|e|]; try discriminate.
    cbn [and_then] in Hr.
    destruct (sequence _) as [stats|e|] eqn:Es; try discriminate.
    cbn [and_then] in Hr. injection Hr as <-. cbn [WtdStat.values names_attr].
    split; [|reflexivity].
    rewrite (sequence_length _ _ Es), length_firstn. cbn [length]. lia.
Qed.

Lemma wtd_stat_named_statistics_witness :
  wtd_stat (AC := moments (fun x _ => x))
    [real 1 1; real 2 1; real 4 1] [real 0 1; real 1 1; real 3 1] 4
  = (combine [real 1 1; real 2 1; real 4 1] [real 0 1; real 1 1; real 3 1],
     Ret {| WtdStat.values :=
              firstn 4 (stream_statistics (fun x _ => x)
                          (combine [real 1 1; real 2 1; real 4 1]
                                   [real 0 1; real 1 1; real 3 1]));
            names_attr :=
              Some (Strings (firstn 4 ["mean"; "var"; "skew"; "kurt"]%string));
            class_attr := None |}).
Proof.
  apply (proj1 (proj2 (wtd_stat_named_statistics (fun x _ => x)
                         [real 1 1; real 2 1; real 4 1]
                         [real 0 1; real 1 1; real 3 1] 4
                         ltac:(lia) eq_refl))).
  - repeat constructor; qc_order.
  - qc_order.
  - intros _. qc_order.
Defined.

(** ** The order of [wtd_stat] *)

Section AnyOrder.
Context {AC : AccumulatorClass}.

Lemma add_features_past_the_end (order : nat) :
  (5 <= order)%nat ->
  add_features (range features order) new_Accumulator = undefined.
Proof.
  intro H. destruct order as [|[|[|[|[|order]]]]]; try lia. reflexivity.
Qed.

(** X3. [wtd_stat] returns a value only for an order from 1 to 4.  With the
    order 0 the result vector is empty and the store of the mean into its
    first element is out of bounds; with an order above 4 the features are
    read past the end of the four-element array. *)
Theorem wtd_stat_value_needs_order_in_range
    (values weights : list Scalar) (order : nat) (r : NumericVector) :
  result (wtd_stat values weights order) = Ret r ->
  (1 <= order <= 4)%nat.
Proof.
  intro H.
  destruct (Nat.eq_dec order 0) as [->|Hpos];
    [|destruct (le_lt_dec order 4) as [Hle|Hgt]; [lia|]]; exfalso.
  - unfold wtd_stat in H.
    apply result_bind_Ret in H. destruct H as [accu [_ H]].
    apply result_bind_Ret in H. destruct H as [m [_ H]].
    apply result_bind_Ret in H. destruct H as [stat_vec [H _]].
    discriminate.
  - unfold wtd_stat, accumulate in H.
    rewrite add_features_past_the_end in H by lia.
    destruct (negb (length values =? length weights)); discriminate.
Qed.

(** X4. With sequences of equal length and an order above 4, [wtd_stat]
    ends in undefined behaviour before anything is passed to [Push]: the
    features are registered first, and the fifth is read past the end of
    the array. *)
Theorem wtd_stat_order_above_four
    (values weights : list Scalar) (order : nat) :
  (5 <= order)%nat ->
  length values = length weights ->
  pushes (wtd_stat values weights order) = [] /\
  result (wtd_stat values weights order) = Undefined.
Proof.
  intros Horder Hlen. unfold wtd_stat, accumulate.
  rewrite add_features_past_the_end by exact Horder.
  rewrite length_check_passes by exact Hlen. split; reflexivity.
Qed.

(** X5. At order 1, [wtd_stat] is [wtd_mean] with the name "mean" attached:
    the two register the same feature, invoke the same pushes and end the
    same way, with the same error or the same number. *)
Theorem wtd_stat_order_one_is_wtd_mean (values weights : list Scalar) :
  wtd_stat values weights 1
  = map_result
      (fun v => {| WtdStat.values := WtdStat.values v;
                   names_attr := Some (Strings ["mean"%string]);
                   class_attr := None |})
      (wtd_mean values weights).
Proof.
  unfold wtd_stat, wtd_mean.
  change (range features 1) with (range [MEAN] 1).
  destruct (accumulate values weights (range [MEAN] 1)) as [t [accu|e|]];
    [|reflexivity..].
  cbn [bind]. unfold lift. destruct (Mean accu) as [m|e|]; [|reflexivity..].
  unfold map_result, pushes, result. cbn. now rewrite !app_nil_r.
Qed.
End AnyOrder.

Lemma wtd_stat_value_needs_order_in_range_witness : (1 <= 2 <= 4)%nat.
Proof.
  apply (wtd_stat_value_needs_order_in_range
           (AC := moments (fun x _ => x))
           [real 1 1; real 3 1] [real 1 1; real 1 1] 2
           {| WtdStat.values := [real 2 1; real 1 1];
              names_attr := Some (Strings ["mean"; "var"]%string);
              class_attr := None |}).
  unfold result. cbn [snd]. qc_eval.
Defined.

Lemma wtd_stat_order_above_four_witness :
  pushes (wtd_stat (AC := moments (fun x _ => x))
            [real 1 1; real 3 1] [real 1 1; real 1 1] 5) = [] /\
  result (wtd_stat (AC := moments (fun x _ => x))
            [real 1 1; real 3 1] [real 1 1; real 1 1] 5) = Undefined.
Proof.
  apply (wtd_stat_order_above_four (AC := moments (fun x _ => x))
           [real 1 1; real 3 1] [real 1 1; real 1 1] 5).
  - lia.
  - reflexivity.
Defined.

(** ** Accesses out of bounds *)

Lemma defined_bind {A B} (m : M A) (f : A -> M B) :
  defined m -> (forall a, defined (f a)) -> defined (bind m f).
Proof.
  unfold defined. intros Hm Hf. rewrite result_bind.
  destruct (result m) as [a|e|]; cbn [and_then];
    [apply Hf | discriminate | now exfalso].
Qed.

Lemma defined_lift {A} (o : outcome A) : o <> Undefined -> defined (lift o).
Proof. intro H. exact H. Qed.

Lemma defined_ret {A} (a : A) : defined (ret a).
Proof. discriminate. Qed.

Lemma defined_if {A} (b : bool) (e : Error) (m : M A) :
  defined m -> defined (if b then throw e else m).
Proof. destruct b; [discriminate | tauto]. Qed.

Lemma defined_push_all {A} (push : Scalar -> Scalar -> A -> outcome A) obs :
  (forall x w a, push x w a <> Undefined) ->
  forall a, defined (push_all push obs a).
Proof.
  intro Hpush. induction obs as [|[x w] obs IH]; intro a; [discriminate|].
  cbn [push_all]. apply defined_bind; [|exact IH].
  unfold defined, call_Push, result. cbn [snd]. apply Hpush.
Qed.

Lemma defined_mapM_lift {B} (f : nat -> outcome B) n : forall k,
  (forall i, (k <= i < k + n)%nat -> f i <> Undefined) ->
  defined (mapM (fun i => lift (f i)) (seq k n)).
Proof.
  induction n as [|n IH]; intros k Hf; cbn [seq mapM]; [discriminate|].
  apply defined_bind; [apply defined_lift, Hf; lia|].
  intro b. apply defined_bind; [|intro bs; discriminate].
  apply IH. intros i Hi. apply Hf. lia.
Qed.

Lemma sequence_defined {A} (l : list (outcome A)) :
  Forall (fun o => o <> Undefined) l -> sequence l <> Undefined.
Proof.
  induction 1 as [|o l Ho _ IH]; cbn [sequence]; [discriminate|].
  destruct o as [a|e|]; [|discriminate|contradiction].
  destruct (sequence l); [discriminate | discriminate | contradiction].
Qed.

Section WithinBounds.
Context {AC : AccumulatorClass} {QC : QuantileAccumulatorClass}
        {DC : DiscreteAccumulatorClass}.
Hypothesis accumulators_in_bounds : in_bounds AC QC DC.

Lemma defined_accumulate values weights fs accu0 :
  add_features fs new_Accumulator = ret accu0 ->
  defined (accumulate values weights fs).
Proof.
  intro Hfs. unfold accumulate. apply defined_if. rewrite Hfs.
  apply defined_bind; [discriminate|]. intro accu.
  apply defined_push_all. apply accumulators_in_bounds.
Qed.

Lemma defined_wtd_stat values weights order :
  (1 <= order <= 4)%nat -> defined (wtd_stat values weights order).
Proof.
  intro Horder. unfold defined.
  rewrite (wtd_stat_unfolded values weights order Horder).
  destruct (add_features_in_range order Horder) as [accu0 Hfs].
  pose proof (defined_accumulate values weights _ accu0 Hfs) as Hacc.
  unfold defined in Hacc.
  destruct (result (accumulate values weights (range features order)))
    as [accu|e|]; cbn [and_then]; [|discriminate|contradiction].
  destruct accumulators_in_bounds as (_ & Hm & Hv & Hs & Hk & _).
  assert (Hseq : sequence (firstn order [Mean accu; Variance accu;
                                         Skewness accu; Kurtosis accu])
                 <> Undefined).
  { apply sequence_defined.
    destruct order as [|[|[|[|[|order]]]]]; try lia; cbn [firstn];
      repeat constructor; auto. }
  destruct (sequence _); cbn [and_then];
    [discriminate | discriminate | contradiction].
Qed.

(** X6. When no member of the accumulators ends in undefined behaviour, the
    only accesses out of bounds of the nine entry points are those of
    [wtd_stat] with an order outside 1 to 4: every other call ends in a
    value or in an exception. *)
Theorem out_of_bounds_only_by_order (c : StatCall) :
  result (run_stat c) = Undefined ->
  exists values weights order,
    c = Call_wtd_stat values weights order /\ ~ (1 <= order <= 4)%nat.
Proof.
  intro H.
  destruct accumulators_in_bounds
    as (HP & Hm & Hv & Hs & Hk & Hnew & HQP & HQ & HDP & HMo).
  assert (Hone : forall tag values weights,
             defined (accumulate values weights (range [tag] 1))).
  { intros tag values weights.
    now apply (defined_accumulate values weights _ (AddFeature tag new_Accumulator)). }
  destruct c as [v w order|v w|v w|v w|v w|v w ps|v w|v w|v w];
    cbn [run_stat] in H.
  - destruct (le_lt_dec 1 order) as [Hlo|Hlo];
      [destruct (le_lt_dec order 4) as [Hhi|Hhi]|].
    + exfalso. exact (defined_wtd_stat v w order (conj Hlo Hhi) H).
    + exists v, w, order. split; [reflexivity | lia].
    + exists v, w, order. split; [reflexivity | lia].
  - exfalso. revert H. apply defined_bind; [apply Hone|]. intro accu.
    apply defined_bind; [apply defined_lift, Hm | discriminate].
  - exfalso. revert H. apply defined_bind; [apply Hone|]. intro accu.
    apply defined_bind; [apply defined_lift, Hv | discriminate].
  - exfalso. revert H. apply defined_bind; [apply Hone|]. intro accu.
    apply defined_bind; [apply defined_lift, Hs | discriminate].
  - exfalso. revert H. apply defined_bind; [apply Hone|]. intro accu.
    apply defined_bind; [apply defined_lift, Hk | discriminate].
  - exfalso. revert H. unfold wtd_quantile. apply defined_if.
    unfold defined. rewrite result_bind, result_lift.
    destruct (new_QuantileAccumulator ps) as [accu0|e|] eqn:E0;
      cbn [and_then]; [|discriminate|destruct (Hnew ps E0)].
    rewrite result_bind.
    pose proof (defined_push_all QPush (combine v w) HQP (QInit accu0)) as Hd.
    unfold defined in Hd.
    destruct (result (push_all QPush (combine v w) (QInit accu0)))
      as [accu|e|] eqn:E1; cbn [and_then]; [|discriminate|contradiction].
    apply defined_bind; [|discriminate].
    apply defined_mapM_lift. intros i Hi.
    apply (HQ ps accu0 (combine v w) accu i E0 E1). lia.
  - exfalso. revert H. unfold wtd_median. apply defined_if.
    unfold defined. rewrite result_bind, result_lift.
    destruct (new_QuantileAccumulator [real 1 2]) as [accu0|e|] eqn:E0;
      cbn [and_then]; [|discriminate|destruct (Hnew _ E0)].
    rewrite result_bind.
    pose proof (defined_push_all QPush (combine v w) HQP (QInit accu0)) as Hd.
    unfold defined in Hd.
    destruct (result (push_all QPush (combine v w) (QInit accu0)))
      as [accu|e|] eqn:E1; cbn [and_then]; [|discriminate|contradiction].
    apply defined_bind; [|discriminate].
    apply defined_lift.
    apply (HQ [real 1 2] accu0 (combine v w) accu 0%nat E0 E1). cbn. lia.
  - exfalso. revert H. unfold wtd_table. apply defined_if.
    apply defined_bind; [|discriminate].
    apply defined_push_all, HDP.
  - exfalso. revert H. unfold wtd_mode. apply defined_if.
    apply defined_bind; [apply defined_push_all, HDP|]. intro accu.
    apply defined_bind; [apply defined_lift, HMo | discriminate].
Qed.
End WithinBounds.

Lemma probs_push_all obs : forall a a',
  result (push_all push_quantiles obs a) = Ret a' -> probs a' = probs a.
Proof.
  induction obs as [|[x w] obs IH]; intros a a' H.
  - now injection H as <-.
  - cbn [push_all] in H. apply result_bind_Ret in H.
    destruct H as [a1 [H1 H]]. unfold call_Push, result in H1. cbn [snd] in H1.
    unfold push_quantiles in H1. destruct (Qcltb w 0); [discriminate|].
    injection H1 as <-. now rewrite (IH _ _ H).
Qed.

(** The modelled accumulators keep within bounds. *)
Lemma engine_in_bounds pow : in_bounds (moments pow) quantiles discrete.
Proof.
  repeat split; cbn.
  - intros x w a. unfold push_moments. now destruct (Qcltb w 0).
  - intro a. unfold get_mean. now destruct (Qceqb (sum_w a) 0).
  - intro a. unfold get_variance. now destruct (Qceqb (sum_w a) 0).
  - intro a. unfold get_skewness.
    destruct (Qceqb (sum_w a) 0); [discriminate|].
    now destruct (Qceqb (M2 a / sum_w a) 0).
  - intro a. unfold get_kurtosis.
    destruct (Qceqb (sum_w a) 0); [discriminate|].
    now destruct (Qceqb (M2 a / sum_w a) 0).
  - intro ps. unfold new_quantiles. now destruct (forallb _ ps).
  - intros x w a. unfold push_quantiles. now destruct (Qcltb w 0).
  - intros ps a0 obs a i H0 H Hi. unfold new_quantiles in H0.
    destruct (forallb _ ps); [|discriminate]. injection H0 as <-.
    apply probs_push_all in H. cbn [init_quantiles probs] in H.
    unfold get_quantile. rewrite H.
    destruct (nth_error ps i) as [p|] eqn:Ep;
      [|apply nth_error_None in Ep; lia].
    destruct (sample a); [discriminate|].
    destruct (Qceqb _ 0); [discriminate|].
    now destruct (first_reaching _ _ _).
  - intros x w a. unfold push_table. now destruct (Qcltb w 0).
  - intro a. unfold get_mode. now destruct (table a).
Qed.

Lemma out_of_bounds_only_by_order_witness :
  exists values weights order,
    Call_wtd_stat [real 1 1] [real 1 1] 0 = Call_wtd_stat values weights order /\
    ~ (1 <= order <= 4)%nat.
Proof.
  apply (out_of_bounds_only_by_order
           (AC := moments (fun x _ => x)) (QC := quantiles) (DC := discrete)
           (engine_in_bounds (fun x _ => x))
           (Call_wtd_stat [real 1 1] [real 1 1] 0)).
  reflexivity.
Defined.

(** ** The quantile vector *)

Section AnyQuantiles.
Context {QC : QuantileAccumulatorClass}.

Lemma mapM_lift_positions {B} (f : nat -> outcome B) n : forall k l,
  result (mapM (fun i => lift (f i)) (seq k n)) = Ret l ->
  length l = n /\
  forall i q, nth_error l i = Some q -> f (k + i)%nat = Ret q.
Proof.
  induction n as [|n IH]; intros k l H; cbn [seq mapM] in H.
  - injection H as <-. split; [reflexivity|]. intros [|i] q; discriminate.
  - apply result_bind_Ret in H. destruct H as [b [Hb H]].
    rewrite result_lift in Hb.
    apply result_bind_Ret in H. destruct H as [bs [Hbs H]].
    injection H as <-. destruct (IH _ _ Hbs) as [Hlen Hnth].
    split; [cbn [length]; now rewrite Hlen|].
    intros [|i] q Hq; cbn [nth_error] in Hq.
    + injection Hq as <-. now rewrite Nat.add_0_r.
    + rewrite <- Nat.add_succ_comm. exact (Hnth i q Hq).
Qed.

(** X7. When [wtd_quantile] returns, the vector has one entry per
    probability level, the entry at each position is what the accumulator,
    built from these levels and fed the whole stream, reports as the
    quantile of that position, and the names are the levels themselves. *)
Theorem wtd_quantile_positions
    (values weights probs : list Scalar) (r : NumericVector) :
  result (wtd_quantile values weights probs) = Ret r ->
  length (WtdStat.values r) = length probs /\
  names_attr r = Some (AsCharacter probs) /\
  class_attr r = None /\
  exists accu0 accu,
    new_QuantileAccumulator probs = Ret accu0 /\
    push_all QPush (combine values weights) (QInit accu0)
      = (combine values weights, Ret accu) /\
    forall i q, nth_error (WtdStat.values r) i = Some q ->
                Quantile accu i = Ret q.
Proof.
  intro H. unfold wtd_quantile in H.
  destruct (negb (length values =? length weights)); [discriminate|].
  apply result_bind_Ret in H. destruct H as [accu0 [H0 H]].
  rewrite result_lift in H0.
  apply result_bind_Ret in H. destruct H as [accu [Hpush H]].
  apply result_bind_Ret in H. destruct H as [quant_vec [Hq H]].
  injection H as <-. cbn [WtdStat.values names_attr class_attr].
  destruct (mapM_lift_positions (Quantile accu) (length probs) 0 quant_vec Hq)
    as [Hlen Hnth].
  repeat split; [exact Hlen|].
  exists accu0, accu. repeat split; [exact H0| |exact Hnth].
  pose proof (proj2 (fed_push_all QPush (combine values weights) (QInit accu0))
                accu Hpush) as Hall.
  destruct (push_all QPush (combine values weights) (QInit accu0)) as [t o].
  unfold pushes, result in *. cbn [fst snd] in *. now subst.
Qed.
End AnyQuantiles.

Lemma wtd_quantile_positions_witness :
  length [real 1 1; real 3 1] = length [real 1 4; real 3 4].
Proof.
  apply (proj1 (wtd_quantile_positions (QC := quantiles)
                  [real 1 1; real 2 1; real 3 1; real 4 1]
                  [real 1 1; real 1 1; real 1 1; real 1 1]
                  [real 1 4; real 3 4]
                  {| WtdStat.values := [real 1 1; real 3 1];
                     names_attr := Some (AsCharacter [real 1 4; real 3 4]);
                     class_attr := None |}
                  eq_refl)).
Defined.

(** ** The data table: bindings, console and flags *)

Section DataTableMore.
Variable BIIPS_REALNA : double.
Variables PROMPT_STRING INDENT_STRING : string.
Variable Size_bits : Z.

Local Abbreviation to_MultiArray := (to_MultiArray BIIPS_REALNA Size_bits).
Local Abbreviation of_MultiArray := (of_MultiArray BIIPS_REALNA Size_bits).
Local Abbreviation write_loop := (write_loop BIIPS_REALNA Size_bits).
Local Abbreviation read_loop := (read_loop BIIPS_REALNA Size_bits).
Local Abbreviation writeDataTable :=
  (writeDataTable BIIPS_REALNA PROMPT_STRING INDENT_STRING Size_bits).
Local Abbreviation readDataTable :=
  (readDataTable BIIPS_REALNA PROMPT_STRING INDENT_STRING Size_bits).

Lemma writeDataTable_map g data_list :
  snd (writeDataTable g (Named data_list))
  = snd (write_loop g data_list (map fst data_list)
           (verbose g [(rbiips_cout,
                        (PROMPT_STRING ++ "Writing data table" ++ endl)%string)]
            ++ verbose g [(rbiips_cout, (INDENT_STRING ++ "Variables:")%string)])
           StdMap.empty).
Proof.
  unfold RbiipsUtils.writeDataTable.
  now destruct (write_loop g data_list (map fst data_list) _ StdMap.empty).
Qed.

(** X9. For a list with names, the map [writeDataTable] returns binds every
    name of the list, and nothing else, to the conversion of the first
    vector carrying that name: a later vector of the same name is dropped.
    The keys of the map are strictly ascending. *)
Theorem writeDataTable_bindings
    (g : Globals) (data_list : list (string * RNumeric)) :
  sorted_keys String.ltb (snd (writeDataTable g (Named data_list))) /\
  forall name,
    StdMap.find String.ltb name (snd (writeDataTable g (Named data_list)))
    = option_map to_MultiArray (lookup name data_list).
Proof.
  rewrite writeDataTable_map.
  destruct (write_loop_bindings BIIPS_REALNA Size_bits g data_list
              (map fst data_list)
              (verbose g [(rbiips_cout,
                           (PROMPT_STRING ++ "Writing data table" ++ endl)%string)]
               ++ verbose g [(rbiips_cout,
                              (INDENT_STRING ++ "Variables:")%string)])
              StdMap.empty) as (Hs & Hb & Hk).
  { tauto. }
  { constructor. }
  { intros n ma []. }
  cbn zeta in Hs, Hb, Hk. split; [exact Hs|]. intro name.
  destruct (lookup name data_list) as [v|] eqn:Ev; cbn [option_map].
  - assert (Hin : In name (map fst data_list)).
    { destruct (in_dec string_dec name (map fst data_list)) as [H|H];
        [exact H|]. rewrite (lookup_not_In _ _ H) in Ev. discriminate. }
    pose proof (proj2 (Hk name) (or_intror Hin)) as Hkey. clear Hin.
    rename Hkey into Hin.
    apply in_map_iff in Hin. destruct Hin as [[n ma] [Hn Hin]].
    cbn [fst] in Hn. subst n.
    destruct (Hb name ma Hin) as [v' [Hv' ->]].
    assert (v' = v) by congruence. subst v'.
    apply (find_In String.ltb string_ltb_irrefl string_ltb_trans
             string_ltb_total); assumption.
  - apply (find_None String.ltb string_ltb_irrefl string_ltb_trans
             string_ltb_total); [exact Hs|].
    intro Hin. apply Hk in Hin. destruct Hin as [[]|Hin].
    destruct (lookup_In _ _ Hin) as [v Hv]. congruence.
Qed.

Lemma write_loop_map_ignores g g' data_list names : forall out out' data_map,
  snd (write_loop g data_list names out data_map)
  = snd (write_loop g' data_list names out' data_map).
Proof.
  induction names as [|name names IH]; intros out out' data_map;
    cbn [RbiipsUtils.write_loop]; [reflexivity|].
  destruct (lookup name data_list); [apply IH | reflexivity].
Qed.

Lemma read_loop_ignores g g' entries : forall out out' acc,
  snd (read_loop g entries out acc) = snd (read_loop g' entries out' acc).
Proof.
  induction entries as [|[name ma] entries IH]; intros out out' acc;
    cbn [RbiipsUtils.read_loop]; [reflexivity|].
  destruct (of_MultiArray ma); [apply IH | reflexivity].
Qed.

Lemma readDataTable_list g dataMap :
  snd (readDataTable g dataMap)
  = snd (read_loop g dataMap [] (Unnamed [])).
Proof.
  unfold RbiipsUtils.readDataTable.
  match goal with
  | |- context [RbiipsUtils.read_loop _ _ g dataMap ?o (Unnamed [])] =>
      rewrite (read_loop_ignores g g dataMap [] o (Unnamed []))
  end.
  destruct (read_loop g dataMap _ (Unnamed [])) as [out [l|]]; reflexivity.
Qed.

(** X10. The flags decide what is printed and nothing else: the map
    [writeDataTable] returns and the list [readDataTable] returns are the
    same whatever the values of [VERBOSITY] and [BASE_MODULE_LOADED]. *)
Theorem data_table_ignores_flags (g g' : Globals) :
  (forall data, snd (writeDataTable g data) = snd (writeDataTable g' data)) /\
  (forall dataMap,
      snd (readDataTable g dataMap) = snd (readDataTable g' dataMap)).
Proof.
  split.
  - intros [l|data_list]; [reflexivity|].
    rewrite !writeDataTable_map. apply write_loop_map_ignores.
  - intro dataMap. rewrite !readDataTable_list. apply read_loop_ignores.
Qed.

Lemma verbose_app g out out' :
  verbose g (out ++ out') = verbose g out ++ verbose g out'.
Proof. unfold verbose. now destruct (1 <? VERBOSITY g)%nat. Qed.

Lemma write_loop_console g data_list names : forall out data_map,
  (forall n, In n names -> In n (map fst data_list)) ->
  fst (write_loop g data_list names out data_map)
  = out ++ verbose g (map (fun n => (rbiips_cout, (" " ++ n)%string)) names).
Proof.
  induction names as [|name names IH]; intros out data_map Hnames;
    cbn [RbiipsUtils.write_loop map].
  - unfold verbose. destruct (1 <? VERBOSITY g)%nat; cbn [fst];
      now rewrite app_nil_r.
  - destruct (lookup_In name data_list (Hnames name (or_introl eq_refl)))
      as [v ->].
    rewrite IH by (intros n Hn; apply Hnames; now right).
    rewrite <- app_assoc, <- verbose_app. reflexivity.
Qed.

(** X11. What [writeDataTable] prints for a list with names: nothing at all
    while [VERBOSITY] is at most 1; otherwise, on the output stream, the
    progress line, the heading and every name of the list in the order of
    the list (a repeated name is printed each time), then a line feed.
    Nothing goes to the error stream. *)
Theorem writeDataTable_console
    (g : Globals) (data_list : list (string * RNumeric)) :
  fst (writeDataTable g (Named data_list))
  = if (1 <? VERBOSITY g)%nat
    then (rbiips_cout, (PROMPT_STRING ++ "Writing data table" ++ endl)%string)
         :: (rbiips_cout, (INDENT_STRING ++ "Variables:")%string)
         :: map (fun n => (rbiips_cout, (" " ++ n)%string)) (map fst data_list)
         ++ [(rbiips_cout, endl)]
    else [].
Proof.
  unfold RbiipsUtils.writeDataTable.
  pose proof (write_loop_console g data_list (map fst data_list)
                (verbose g [(rbiips_cout,
                             (PROMPT_STRING ++ "Writing data table" ++ endl)%string)]
                 ++ verbose g [(rbiips_cout,
                                (INDENT_STRING ++ "Variables:")%string)])
                StdMap.empty (fun n H => H)) as Hc.
  destruct (write_loop g data_list (map fst data_list) _ StdMap.empty)
    as [out m].
  cbn [fst] in *. subst out. unfold verbose.
  destruct (1 <? VERBOSITY g)%nat; reflexivity.
Qed.

(** *** The flags as ambient state *)







Section Ambient.
Context {AC : AccumulatorClass} {QC : QuantileAccumulatorClass}
        {DC : DiscreteAccumulatorClass}.

End Ambient.

Lemma lookup_converted (f : MultiArray -> RNumeric) name (m : DataMap) :
  sorted_keys String.ltb m ->
  lookup name (map (fun e => (fst e, f (snd e))) m)
  = option_map f (StdMap.find String.ltb name m).
Proof.
  intro Hs. induction m as [|[n v] m IH]; [reflexivity|].
  apply sorted_keys_cons in Hs. destruct Hs as [Hs Hall].
  cbn [map fst snd lookup StdMap.find]. destruct (String.eqb n name) eqn:E.
  - apply String.eqb_eq in E. subst n. now rewrite string_ltb_irrefl.
  - rewrite (IH Hs). apply String.eqb_neq in E.
    destruct (String.ltb name n) eqn:E1.
    + rewrite (find_None String.ltb string_ltb_irrefl string_ltb_trans
                 string_ltb_total name m Hs); [reflexivity|].
      intro Hin. rewrite Forall_forall in Hall. specialize (Hall name Hin).
      pose proof (string_ltb_trans _ _ _ E1 Hall) as C.
      rewrite string_ltb_irrefl in C. discriminate.
    + destruct (String.ltb n name) eqn:E2; [reflexivity|].
      exfalso. apply E. symmetry. now apply string_ltb_total.
Qed.

Lemma skipn_of_repeat {A} (x : A) n : forall k,
  skipn k (repeat x n) = repeat x (n - k).
Proof.
  induction n as [|n IH]; intros [|k]; cbn [skipn repeat Nat.sub];
    try reflexivity. apply IH.
Qed.

Section Wide.
Hypothesis Size_is_wide : (32 <= Size_bits)%Z.

(** One array within R's limits, as [readDataTable] converts it. *)
Lemma of_MultiArray_well_formed ma :
  well_formed_array ma ->
  of_MultiArray ma = Some (as_vector BIIPS_REALNA ma).
Proof.
  intros (Hne & Hd & Hprod & Hlen).
  unfold RbiipsUtils.of_MultiArray, as_vector.
  rewrite (map_id_on _ _ (Dim ma) to_int_small Hd).
  rewrite (Length_product Size_bits Size_is_wide) by lia.
  unfold copy_into, replace_copy.
  rewrite length_map, repeat_length.
  destruct (length (Values ma) <=? Z.to_nat (fold_right Z.mul 1%Z (Dim ma)))%nat
    eqn:E; [|apply Nat.leb_gt in E; lia].
  apply Nat.leb_le in E.
  rewrite skipn_of_repeat, dim_fits_product; [reflexivity | | exact Hd |].
  - exact Hne.
  - rewrite length_app, length_map, repeat_length. lia.
Qed.

Lemma read_loop_entries g entries : forall out acc,
  NoDup (map fst entries) ->
  (forall n, In n (map fst entries) -> ~ In n (map fst acc)) ->
  Forall (fun e => well_formed_array (snd e)) entries ->
  snd (read_loop g entries out (Named acc))
  = Some (Named (acc ++ map (fun e => (fst e, as_vector BIIPS_REALNA (snd e)))
                            entries)).
Proof.
  induction entries as [|[name ma] entries IH]; intros out acc Hnd Hfresh Hwf.
  - cbn. now rewrite app_nil_r.
  - cbn [map fst] in Hnd. inversion Hnd as [|? ? Hnot Hnd']; subst.
    inversion Hwf as [|? ? Hma Hwf']; subst. cbn [snd] in Hma.
    cbn [RbiipsUtils.read_loop]. rewrite (of_MultiArray_well_formed ma Hma).
    cbn [set_by_name].
    rewrite set_named_fresh by (apply Hfresh; now left).
    rewrite IH; [now rewrite <- app_assoc | exact Hnd' | | exact Hwf'].
    intros n Hn. rewrite map_app, in_app_iff. cbn [map fst In].
    intros [Hacc|[<-|[]]].
    + apply (Hfresh n); [now right | exact Hacc].
    + exact (Hnot Hn).
Qed.

(** The list [readDataTable] makes of a map whose arrays are within R's
    limits. *)
Lemma readDataTable_result g (dataMap : DataMap) :
  sorted_keys String.ltb dataMap ->
  Forall (fun e => well_formed_array (snd e)) dataMap ->
  snd (readDataTable g dataMap)
  = Some match dataMap with
         | [] => Unnamed []
         | _ => Named (map (fun e => (fst e, as_vector BIIPS_REALNA (snd e)))
                           dataMap)
         end.
Proof.
  intros Hs Hwf. rewrite readDataTable_list.
  pose proof (sorted_keys_NoDup String.ltb string_ltb_irrefl dataMap Hs) as Hnd.
  destruct dataMap as [|[n0 ma0] m]; [reflexivity|].
  inversion Hwf as [|? ? Hma Hwf']; subst. cbn [snd] in Hma.
  cbn [StdMap.keys map fst] in Hnd. inversion Hnd as [|? ? Hnot Hnd']; subst.
  cbn [RbiipsUtils.read_loop]. rewrite (of_MultiArray_well_formed ma0 Hma).
  cbn [set_by_name map app].
  rewrite read_loop_entries; [reflexivity | exact Hnd' | | exact Hwf'].
  intros n Hn [<-|[]]. exact (Hnot Hn).
Qed.

(** X12. For a map whose arrays are within R's limits, [readDataTable]
    returns one vector per entry, in the ascending order of the keys and
    under the key as name; the vector under a name is the array found under
    that key, with the sentinel replaced by [NA_REAL] and the dimensions as
    "dim" attribute, and a name that is no key has no element. *)
Theorem readDataTable_entries (g : Globals) (dataMap : DataMap) :
  sorted_keys String.ltb dataMap ->
  Forall (fun e => well_formed_array (snd e)) dataMap ->
  exists data_list,
    snd (readDataTable g dataMap) = Some data_list /\
    names_of data_list = StdMap.keys dataMap /\
    forall name,
      element name data_list
      = option_map (as_vector BIIPS_REALNA)
                   (StdMap.find String.ltb name dataMap).
Proof.
  intros Hs Hwf. eexists. split; [apply readDataTable_result; assumption|].
  destruct dataMap as [|e m] eqn:Em; [now split|]. rewrite <- Em in *.
  cbn [names_of element]. split.
  - unfold StdMap.keys. rewrite map_map. reflexivity.
  - intro name. apply lookup_converted, Hs.
Qed.

(** A well-formed vector becomes an array within R's limits, which comes
    back as the vector read back. *)
Lemma to_MultiArray_well_formed v :
  well_formed_vector v -> has_extents v ->
  well_formed_array (to_MultiArray v) /\
  as_vector BIIPS_REALNA (to_MultiArray v) = read_back BIIPS_REALNA v.
Proof.
  intros [Hlen Hdim] Hext.
  assert (Hn : (0 <= Z.of_nat (length (data v)) < 2 ^ 31)%Z) by lia.
  unfold has_extents in Hext.
  unfold well_formed_array, as_vector, read_back, RbiipsUtils.to_MultiArray.
  destruct (dim_attr v) as [d|]; cbn [Dim Values].
  - destruct Hdim as [Hd Hprod].
    rewrite (map_id_on _ _ d (to_Size_small Size_bits Size_is_wide) Hd).
    rewrite replace_copy_NA_REAL, Hprod, length_map, Nat2Z.id, Nat.sub_diag.
    cbn [repeat]. rewrite app_nil_r.
    repeat split; [destruct d; congruence | exact Hd | lia | lia].
  - rewrite (to_Size_small Size_bits Size_is_wide) by exact Hn.
    cbn [fold_right].
    rewrite replace_copy_NA_REAL, Z.mul_1_r, length_map, Nat2Z.id, Nat.sub_diag.
    cbn [repeat]. rewrite app_nil_r.
    repeat split; [discriminate | now constructor | lia | lia].
Qed.

Lemma lookup_Some_In name v (l : list (string * RNumeric)) :
  lookup name l = Some v -> exists n, In (n, v) l.
Proof.
  induction l as [|[n' v'] l IH]; [discriminate|].
  cbn [lookup]. destruct (String.eqb n' name).
  - intros [= <-]. exists n'. now left.
  - intro H. destruct (IH H) as [n Hn]. exists n. now right.
Qed.

(** The map written from well-formed vectors, and the list read from it. *)
Lemma written_then_read g g' data_list :
  Forall (fun e => well_formed_vector (snd e) /\ has_extents (snd e))
         data_list ->
  exists back,
    snd (readDataTable g' (snd (writeDataTable g (Named data_list))))
      = Some back /\
    names_of back = StdMap.keys (snd (writeDataTable g (Named data_list))) /\
    (forall name,
       element name back
       = option_map (read_back BIIPS_REALNA) (lookup name data_list)) /\
    sorted_keys String.ltb (snd (writeDataTable g (Named data_list))) /\
    (forall name,
       In name (StdMap.keys (snd (writeDataTable g (Named data_list))))
       <-> In name (map fst data_list)).
Proof.
  intro Hwf. rewrite Forall_forall in Hwf.
  rewrite writeDataTable_map.
  destruct (write_loop_bindings BIIPS_REALNA Size_bits g data_list
              (map fst data_list)
              (verbose g [(rbiips_cout,
                           (PROMPT_STRING ++ "Writing data table" ++ endl)%string)]
               ++ verbose g [(rbiips_cout,
                              (INDENT_STRING ++ "Variables:")%string)])
              StdMap.empty) as (Hs & Hb & Hk).
  { tauto. }
  { constructor. }
  { intros n ma []. }
  cbn zeta in Hs, Hb, Hk.
  set (m := snd (write_loop g data_list (map fst data_list) _ StdMap.empty))
    in *.
  assert (Hconv : forall n ma, In (n, ma) m ->
            exists v, lookup n data_list = Some v /\ ma = to_MultiArray v /\
                      well_formed_array ma /\
                      as_vector BIIPS_REALNA ma = read_back BIIPS_REALNA v).
  { intros n ma Hin. destruct (Hb n ma Hin) as [v [Hv ->]].
    exists v. split; [exact Hv|]. split; [reflexivity|].
    destruct (lookup_Some_In _ _ _ Hv) as [n' Hin'].
    destruct (Hwf (n', v) Hin') as [H1 H2].
    now apply to_MultiArray_well_formed. }
  assert (Hall : Forall (fun e => well_formed_array (snd e)) m).
  { apply Forall_forall. intros [n ma] Hin.
    destruct (Hconv n ma Hin) as (v & _ & _ & H & _). exact H. }
  eexists. split; [apply readDataTable_result; assumption|].
  split; [|split; [|split]].
  - destruct m as [|e m']; [reflexivity|].
    cbn [names_of]. unfold StdMap.keys. now rewrite map_map.
  - intro name.
    assert (E : element name
                  match m with
                  | [] => Unnamed []
                  | _ => Named (map (fun e => (fst e, as_vector BIIPS_REALNA (snd e))) m)
                  end
                = option_map (as_vector BIIPS_REALNA)
                             (StdMap.find String.ltb name m)).
    { destruct m as [|e m'] eqn:Em; [reflexivity|]. rewrite <- Em in *.
      cbn [element]. apply lookup_converted, Hs. }
    rewrite E. clear E.
    destruct (StdMap.find String.ltb name m) as [ma|] eqn:Ef.
    + apply (find_In String.ltb string_ltb_irrefl string_ltb_trans
               string_ltb_total name ma m Hs) in Ef.
      destruct (Hconv name ma Ef) as (v & Hv & _ & _ & Hback).
      rewrite Hv. cbn [option_map]. now rewrite Hback.
    + rewrite lookup_not_In; [reflexivity|].
      intro Hin. pose proof (proj2 (Hk name) (or_intror Hin)) as Hkey.
      apply in_map_iff in Hkey. destruct Hkey as [[n ma] [Hn Hin']].
      cbn [fst] in Hn. subst n.
      apply (find_In String.ltb string_ltb_irrefl string_ltb_trans
               string_ltb_total name ma m Hs) in Hin'. congruence.
  - exact Hs.
  - intro name. rewrite Hk. cbn. tauto.
Qed.

(** X13. The round trip of a list with names whose vectors are well formed.
    Whatever the flags, reading back the map written from the list returns
    a list in which each name of the original list is bound to the first
    vector of that name, with every value equal to the sentinel turned into
    [NA_REAL] and with a "dim" attribute (the length, for a vector that had
    none); a name absent from the original is absent from the result. *)
Theorem data_table_written_then_read
    (g g' : Globals) (data_list : list (string * RNumeric)) :
  Forall (fun e => well_formed_vector (snd e) /\ has_extents (snd e))
         data_list ->
  exists back,
    snd (readDataTable g' (snd (writeDataTable g (Named data_list))))
      = Some back /\
    forall name,
      element name back
      = option_map (read_back BIIPS_REALNA) (lookup name data_list).
Proof.
  intro Hwf.
  destruct (written_then_read g g' data_list Hwf) as (back & H1 & _ & H2 & _).
  exists back. now split.
Qed.

(** X14. The round trip does not keep the order of the list: the result
    carries the names of the original, each exactly once, in strictly
    ascending order of the strings. *)
Theorem round_trip_sorts_names
    (g g' : Globals) (data_list : list (string * RNumeric)) :
  Forall (fun e => well_formed_vector (snd e) /\ has_extents (snd e))
         data_list ->
  exists back,
    snd (readDataTable g' (snd (writeDataTable g (Named data_list))))
      = Some back /\
    StronglySorted (fun a b => String.ltb a b = true) (names_of back) /\
    forall name, In name (names_of back) <-> In name (map fst data_list).
Proof.
  intro Hwf.
  destruct (written_then_read g g' data_list Hwf)
    as (back & H1 & Hn & _ & Hs & Hk).
  exists back. rewrite Hn. split; [exact H1|]. split; [exact Hs | exact Hk].
Qed.
End Wide.
End DataTableMore.


Lemma readDataTable_entries_witness :
  exists data_list,
    snd (readDataTable (S754_finite true 9007199254740991 971) "* " "  " 64
           initial_globals
           [("a"%string, {| Dim := [2%Z]; Values := [double_one; double_one] |});
            ("b"%string,
             {| Dim := [1%Z; 2%Z];
                Values := [S754_finite true 9007199254740991 971;
                           double_one] |})])
      = Some data_list /\
    names_of data_list = ["a"; "b"]%string /\
    forall name,
      element name data_list
      = option_map (as_vector (S754_finite true 9007199254740991 971))
          (StdMap.find String.ltb name
             [("a"%string,
               {| Dim := [2%Z]; Values := [double_one; double_one] |});
              ("b"%string,
               {| Dim := [1%Z; 2%Z];
                  Values := [S754_finite true 9007199254740991 971;
                             double_one] |})]).
Proof.
  apply (readDataTable_entries (S754_finite true 9007199254740991 971)
           "* " "  " 64 ltac:(lia) initial_globals
           [("a"%string, {| Dim := [2%Z]; Values := [double_one; double_one] |});
            ("b"%string,
             {| Dim := [1%Z; 2%Z];
                Values := [S754_finite true 9007199254740991 971;
                           double_one] |})]).
  - repeat constructor.
  - repeat first [ apply Forall_cons | apply Forall_nil ];
      (split; [discriminate | split; [repeat constructor; lia | cbn; lia]]).
Defined.

Lemma data_table_written_then_read_witness :
  exists back,
    snd (readDataTable (S754_finite true 9007199254740991 971) "* " "  " 64
           initial_globals
           (snd (writeDataTable (S754_finite true 9007199254740991 971)
                   "* " "  " 64 {| VERBOSITY := 2; BASE_MODULE_LOADED := true |}
                   (Named
                      [("y"%string,
                        {| data := [double_one; NA_REAL]; dim_attr := None |});
                       ("x"%string,
                        {| data := [S754_finite true 9007199254740991 971;
                                    double_one];
                           dim_attr := Some [2%Z; 1%Z] |});
                       ("y"%string,
                        {| data := [double_one]; dim_attr := None |})]))))
      = Some back /\
    forall name,
      element name back
      = option_map (read_back (S754_finite true 9007199254740991 971))
          (lookup name
             [("y"%string,
               {| data := [double_one; NA_REAL]; dim_attr := None |});
              ("x"%string,
               {| data := [S754_finite true 9007199254740991 971; double_one];
                  dim_attr := Some [2%Z; 1%Z] |});
              ("y"%string,
               {| data := [double_one]; dim_attr := None |})]).
Proof.
  apply (data_table_written_then_read
           (S754_finite true 9007199254740991 971) "* " "  " 64 ltac:(lia)
           {| VERBOSITY := 2; BASE_MODULE_LOADED := true |} initial_globals).
  repeat first [ apply Forall_cons | apply Forall_nil ];
    (split; [split; [cbn; lia | cbn; try (split; [repeat constructor; lia | reflexivity]); exact I]
            | discriminate]).
Defined.

Lemma round_trip_sorts_names_witness :
  exists back,
    snd (readDataTable (S754_finite true 9007199254740991 971) "* " "  " 64
           initial_globals
           (snd (writeDataTable (S754_finite true 9007199254740991 971)
                   "* " "  " 64 initial_globals
                   (Named
                      [("y"%string,
                        {| data := [double_one; NA_REAL]; dim_attr := None |});
                       ("x"%string,
                        {| data := [double_one]; dim_attr := None |});
                       ("y"%string,
                        {| data := [double_one]; dim_attr := None |})]))))
      = Some back /\
    StronglySorted (fun a b => String.ltb a b = true) (names_of back) /\
    forall name,
      In name (names_of back) <-> In name ["y"; "x"; "y"]%string.
Proof.
  apply (round_trip_sorts_names
           (S754_finite true 9007199254740991 971) "* " "  " 64 ltac:(lia)
           initial_globals initial_globals
           [("y"%string,
             {| data := [double_one; NA_REAL]; dim_attr := None |});
            ("x"%string, {| data := [double_one]; dim_attr := None |});
            ("y"%string, {| data := [double_one]; dim_attr := None |})]).
  repeat first [ apply Forall_cons | apply Forall_nil ];
    (split; [split; [cbn; lia | exact I] | discriminate]).
Defined.

(** ** Arrays and monitors handed to R *)

Section MarshalFacts.
Import Marshal.
Variable BIIPS_REALNA : double.
Variable Size_bits : Z.
Variable ValArray_plus : list double -> double -> list double.
Variable dim_accepted : nat -> list Z -> bool.

Local Abbreviation arrayToVector := (arrayToVector dim_accepted).
Local Abbreviation smcarray_of :=
  (smcarray_of BIIPS_REALNA Size_bits ValArray_plus dim_accepted).
Local Abbreviation monitors_loop :=
  (monitors_loop BIIPS_REALNA Size_bits ValArray_plus dim_accepted).
Local Abbreviation getMonitors :=
  (getMonitors BIIPS_REALNA Size_bits ValArray_plus dim_accepted).

(** X16. The vector [arrayToVector] returns for an array whose extents are
    below [2^31] is taken back to that very array by the conversion
    [writeDataTable] applies to a vector: the values are handed over as
    they are, the sentinel included, and the extents survive the passage
    through R's [int]. *)
Theorem arrayToVector_inverted (array : NumArray) (v : RNumeric) :
  (32 <= Size_bits)%Z ->
  Forall (fun n => 0 <= n < 2 ^ 31)%Z (Dim array) ->
  arrayToVector array = Value v ->
  data v = Values array /\
  to_MultiArray BIIPS_REALNA Size_bits v = array.
Proof.
  intros Hwide Hd H. unfold Marshal.arrayToVector in H.
  destruct (dim_accepted _ _); [|discriminate].
  injection H as <-. split; [reflexivity|].
  unfold RbiipsUtils.to_MultiArray. cbn [dim_attr data].
  rewrite replace_copy_NA_REAL.
  rewrite (map_id_on _ _ (Dim array) to_int_small Hd).
  rewrite (map_id_on _ _ (Dim array) (to_Size_small Size_bits Hwide) Hd).
  now destruct array.
Qed.

Lemma and_next_Value {A B} (c : completion A) (k : A -> completion B) b :
  and_next c k = Value b -> exists a, c = Value a /\ k a = Value b.
Proof. destruct c as [a|e|]; try discriminate. eauto. Qed.

Lemma firstn_repeat_less {A} (x : A) n :
  firstn n (x :: repeat x n) = repeat x n.
Proof.
  induction n as [|n IH]; [reflexivity|].
  cbn [repeat firstn] in *. now rewrite IH.
Qed.

(** The list built for one monitor, when it is built. *)
Lemma smcarray_of_Value monitor type s :
  smcarray_of monitor type = Value s ->
  exists n vals cnd,
    length (Dim (GetValues monitor)) = S n /\
    copy_into (replace_copy (Values (GetValues monitor)) BIIPS_REALNA NA_REAL)
              (repeat (S754_zero false)
                      (Z.to_nat (Length Size_bits (Dim (GetValues monitor)))))
      = Some vals /\
    (if (Z.of_nat (length (GetConditionalNodeNames monitor))
         =? RangeLength (GetRange monitor))%Z
     then cnd = CondList (GetConditionalNodeNames monitor)
                  {| extents := map to_int (RangeDim (GetRange monitor));
                     extent_names := None |}
     else length (GetConditionalNodeNames monitor) = 1%nat /\
          cnd = CondVector (nth 0 (GetConditionalNodeNames monitor) [])) /\
    s = {| values :=
             {| elements := vals;
                dim := {| extents := map to_int (Dim (GetValues monitor));
                          extent_names :=
                            Some (repeat ""%string n ++ ["particle"%string]) |} |};
           weights :=
             {| elements := Values (GetWeights monitor);
                dim := {| extents := map to_int (Dim (GetValues monitor));
                          extent_names :=
                            Some (repeat ""%string n ++ ["particle"%string]) |} |};
           ess :=
             {| elements := Values (GetESS monitor);
                dim := {| extents := map to_int (RangeDim (GetRange monitor));
                          extent_names := None |} |};
           discrete :=
             {| elements := Values (GetDiscrete monitor);
                dim := {| extents := map to_int (RangeDim (GetRange monitor));
                          extent_names := None |} |};
           iterations :=
             {| elements := ValArray_plus (Values (GetIterations monitor))
                                          double_one;
                dim := {| extents := map to_int (RangeDim (GetRange monitor));
                          extent_names := None |} |};
           conditionals := cnd;
           name := GetName monitor;
           lower := map to_int (Lower (GetRange monitor));
           upper := map to_int (Upper (GetRange monitor));
           type := type;
           class := "smcarray"%string |}.
Proof.
  intro H. unfold Marshal.smcarray_of in H.
  apply and_next_Value in H. destruct H as [dim_names [Hnames H]].
  unfold set_last in Hnames. rewrite repeat_length, length_map in Hnames.
  destruct (length (Dim (GetValues monitor))) as [|n] eqn:En; [discriminate|].
  injection Hnames as Hn. subst dim_names. rewrite firstn_repeat_less in H.
  apply and_next_Value in H. destruct H as [vals [Hvals H]].
  destruct (copy_into _ _) as [vals'|] eqn:Ec; [|discriminate].
  injection Hvals as ->.
  unfold set_dim in H.
  repeat (apply and_next_Value in H;
          let a := fresh "a" in
          let Ha := fresh "Ha" in
          destruct H as [a [Ha H]];
          match type of Ha with
          | (if ?b then _ else _) = _ =>
              destruct b; [|discriminate]; injection Ha as <-
          end).
  apply and_next_Value in H. destruct H as [cnd [Hc H]].
  injection H as <-.
  exists n, vals, cnd. repeat split; try reflexivity.
  destruct (Z.of_nat (length (GetConditionalNodeNames monitor))
            =? RangeLength (GetRange monitor))%Z.
  - destruct (dim_accepted _ _); [|discriminate]. now injection Hc as <-.
  - destruct (length (GetConditionalNodeNames monitor) =? 1)%nat eqn:E1;
      [|discriminate].
    apply Nat.eqb_eq in E1. injection Hc as <-. now split.
Qed.

Lemma assign_named_fresh {A} name (v : A) (l : list (string * A)) :
  ~ In name (map fst l) -> assign_named name v l = l ++ [(name, v)].
Proof.
  induction l as [|[n v'] l IH]; cbn [map fst In assign_named app];
    [reflexivity|].
  intro H. destruct (String.eqb n name) eqn:E.
  - apply String.eqb_eq in E. tauto.
  - rewrite IH by tauto. reflexivity.
Qed.

(** [getMonitors] appends one list per monitor. *)
Lemma monitors_loop_Value entries ty : forall acc l,
  NoDup (map fst entries) ->
  (forall n, In n (map fst entries) -> ~ In n (map fst acc)) ->
  monitors_loop entries ty acc = Value l ->
  exists res,
    l = acc ++ res /\
    Forall2 (fun e r => fst r = fst e /\
                        smcarray_of (snd e) ty = Value (snd r))
            entries res.
Proof.
  induction entries as [|[k monitor] entries IH]; intros acc l Hnd Hfresh H.
  - injection H as <-. exists []. split; [now rewrite app_nil_r | constructor].
  - cbn [map fst] in Hnd. inversion Hnd as [|? ? Hnot Hnd']; subst.
    cbn [Marshal.monitors_loop] in H.
    apply and_next_Value in H. destruct H as [s [Hs H]].
    rewrite assign_named_fresh in H by (apply Hfresh; now left).
    destruct (IH (acc ++ [(k, s)]) l Hnd') as [res [-> HF]]; [|exact H|].
    + intros n Hn. rewrite map_app, in_app_iff. cbn [map fst In].
      intros [Hacc|[<-|[]]].
      * apply (Hfresh n); [now right | exact Hacc].
      * exact (Hnot Hn).
    + exists ((k, s) :: res). split; [now rewrite <- app_assoc|].
      constructor; [now split | exact HF].
Qed.

Lemma getMonitors_Value (ms : @StdMap.t string NodeArrayMonitor) ty l :
  sorted_keys String.ltb ms ->
  getMonitors ms ty = Value l ->
  Forall2 (fun e r => fst r = fst e /\ smcarray_of (snd e) ty = Value (snd r))
          ms l.
Proof.
  intros Hs H. unfold Marshal.getMonitors in H.
  destruct (monitors_loop_Value ms ty [] l) as [res [-> HF]].
  - exact (sorted_keys_NoDup String.ltb string_ltb_irrefl ms Hs).
  - intros n _ [].
  - exact H.
  - exact HF.
Qed.

Lemma Forall2_weaken {A B} (P Q : A -> B -> Prop) l l' :
  (forall a b, P a b -> Q a b) -> Forall2 P l l' -> Forall2 Q l l'.
Proof. intros HPQ. induction 1; constructor; auto. Qed.

(** X17. When [getMonitors] returns, the list has one element per monitor
    of the map, in the ascending order of the keys and named by the key.
    Each element has the class "smcarray", carries the requested type, the
    name the monitor itself reports and the bounds of its range, and its
    iteration numbers are those of the monitor with one added. *)
Theorem getMonitors_entries
    (ms : @StdMap.t string NodeArrayMonitor) (ty : string)
    (l : list (string * smcarray)) :
  sorted_keys String.ltb ms ->
  getMonitors ms ty = Value l ->
  map fst l = StdMap.keys ms /\
  Forall2 (fun e r =>
             class (snd r) = "smcarray"%string /\
             type (snd r) = ty /\
             name (snd r) = GetName (snd e) /\
             lower (snd r) = map to_int (Lower (GetRange (snd e))) /\
             upper (snd r) = map to_int (Upper (GetRange (snd e))) /\
             elements (iterations (snd r))
             = ValArray_plus (Values (GetIterations (snd e))) double_one)
          ms l.
Proof.
  intros Hs H. pose proof (getMonitors_Value ms ty l Hs H) as HF. split.
  - clear H Hs. unfold StdMap.keys.
    induction HF as [|e r ms l [Hn _] _ IH]; cbn [map]; [reflexivity|].
    now rewrite Hn, IH.
  - revert HF. apply Forall2_weaken. intros e r [_ Hr].
    destruct (smcarray_of_Value _ _ _ Hr) as (n & vals & cnd & _ & _ & _ & ->).
    repeat split.
Qed.

(** X18. [getMonitors] returns only if each monitor reports either as many
    lists of conditional names as its range has nodes, or a single one.  In
    the first case, which has precedence when the range has one node, the
    element "conditionals" is the list of these lists with the dimensions
    of the range; in the second it is the single list, as one character
    vector. *)
Theorem getMonitors_conditionals
    (ms : @StdMap.t string NodeArrayMonitor) (ty : string)
    (l : list (string * smcarray)) :
  sorted_keys String.ltb ms ->
  getMonitors ms ty = Value l ->
  Forall2 (fun e r =>
             if (Z.of_nat (length (GetConditionalNodeNames (snd e)))
                 =? RangeLength (GetRange (snd e)))%Z
             then conditionals (snd r)
                  = CondList (GetConditionalNodeNames (snd e))
                      {| extents := map to_int (RangeDim (GetRange (snd e)));
                         extent_names := None |}
             else length (GetConditionalNodeNames (snd e)) = 1%nat /\
                  conditionals (snd r)
                  = CondVector (nth 0 (GetConditionalNodeNames (snd e)) []))
          ms l.
Proof.
  intros Hs H. pose proof (getMonitors_Value ms ty l Hs H) as HF.
  revert HF. apply Forall2_weaken. intros e r [_ Hr].
  destruct (smcarray_of_Value _ _ _ Hr) as (n & vals & cnd & _ & _ & Hc & ->).
  cbn [conditionals]. exact Hc.
Qed.

(** X19. In every element [getMonitors] returns, the values and the weights
    have the same "dim" attribute: the extents of the monitor's array of
    values, of which only the last is named, "particle".  The values are
    those of the monitor with the sentinel replaced by [NA_REAL], followed
    by zeros up to the number of elements of the array. *)
Theorem getMonitors_particle_arrays
    (ms : @StdMap.t string NodeArrayMonitor) (ty : string)
    (l : list (string * smcarray)) :
  sorted_keys String.ltb ms ->
  getMonitors ms ty = Value l ->
  Forall2 (fun e r =>
             dim (weights (snd r)) = dim (values (snd r)) /\
             extents (dim (values (snd r)))
             = map to_int (Dim (GetValues (snd e))) /\
             (exists n,
                 length (Dim (GetValues (snd e))) = S n /\
                 extent_names (dim (values (snd r)))
                 = Some (repeat ""%string n ++ ["particle"%string])) /\
             elements (weights (snd r)) = Values (GetWeights (snd e)) /\
             exists k,
               elements (values (snd r))
               = map (fun x => if double_eqb x BIIPS_REALNA then NA_REAL else x)
                     (Values (GetValues (snd e)))
                 ++ repeat (S754_zero false) k)
          ms l.
Proof.
  intros Hs H. pose proof (getMonitors_Value ms ty l Hs H) as HF.
  revert HF. apply Forall2_weaken. intros e r [_ Hr].
  destruct (smcarray_of_Value _ _ _ Hr) as (n & vals & cnd & Hn & Hv & _ & ->).
  cbn [values weights dim extents extent_names elements].
  repeat split.
  - exists n. now split.
  - unfold copy_into in Hv.
    destruct (_ <=? _)%nat; [|discriminate]. injection Hv as <-.
    rewrite skipn_of_repeat. eexists. reflexivity.
Qed.
End MarshalFacts.

Lemma arrayToVector_inverted_witness :
  exists v,
    Marshal.arrayToVector Samples.dims_match
      (Marshal.GetValues Samples.monitor_x) = Marshal.Value v /\
    data v = Values (Marshal.GetValues Samples.monitor_x) /\
    to_MultiArray Samples.sentinel 64 v = Marshal.GetValues Samples.monitor_x.
Proof.
  eexists. split; [reflexivity|].
  apply (arrayToVector_inverted Samples.sentinel 64 Samples.dims_match
           (Marshal.GetValues Samples.monitor_x)).
  - lia.
  - repeat constructor; lia.
  - reflexivity.
Defined.

Lemma getMonitors_entries_witness :
  exists l,
    Marshal.getMonitors Samples.sentinel 64 Samples.plus_each
      Samples.dims_match Samples.monitors "filtering" = Marshal.Value l /\
    map fst l = ["x"; "z"]%string /\
    Forall2 (fun e r =>
               Marshal.class (snd r) = "smcarray"%string /\
               Marshal.type (snd r) = "filtering"%string /\
               Marshal.name (snd r) = Marshal.GetName (snd e) /\
               Marshal.lower (snd r)
               = map to_int (Marshal.Lower (Marshal.GetRange (snd e))) /\
               Marshal.upper (snd r)
               = map to_int (Marshal.Upper (Marshal.GetRange (snd e))) /\
               Marshal.elements (Marshal.iterations (snd r))
               = Samples.plus_each
                   (Values (Marshal.GetIterations (snd e))) double_one)
            Samples.monitors l.
Proof.
  eexists. split; [reflexivity|].
  apply (getMonitors_entries Samples.sentinel 64 Samples.plus_each
           Samples.dims_match Samples.monitors "filtering").
  - repeat constructor.
  - reflexivity.
Defined.

Lemma getMonitors_conditionals_witness :
  exists l,
    Marshal.getMonitors Samples.sentinel 64 Samples.plus_each
      Samples.dims_match Samples.monitors "filtering" = Marshal.Value l /\
    Forall2 (fun e r =>
               if (Z.of_nat (length (Marshal.GetConditionalNodeNames (snd e)))
                   =? Marshal.RangeLength (Marshal.GetRange (snd e)))%Z
               then Marshal.conditionals (snd r)
                    = Marshal.CondList
                        (Marshal.GetConditionalNodeNames (snd e))
                        {| Marshal.extents :=
                             map to_int
                                 (Marshal.RangeDim (Marshal.GetRange (snd e)));
                           Marshal.extent_names := None |}
               else length (Marshal.GetConditionalNodeNames (snd e)) = 1%nat /\
                    Marshal.conditionals (snd r)
                    = Marshal.CondVector
                        (nth 0 (Marshal.GetConditionalNodeNames (snd e)) []))
            Samples.monitors l.
Proof.
  eexists. split; [reflexivity|].
  apply (getMonitors_conditionals Samples.sentinel 64 Samples.plus_each
           Samples.dims_match Samples.monitors "filtering").
  - repeat constructor.
  - reflexivity.
Defined.

Lemma getMonitors_particle_arrays_witness :
  exists l,
    Marshal.getMonitors Samples.sentinel 64 Samples.plus_each
      Samples.dims_match Samples.monitors "filtering" = Marshal.Value l /\
    Forall2 (fun e r =>
               Marshal.dim (Marshal.weights (snd r))
               = Marshal.dim (Marshal.values (snd r)) /\
               Marshal.extents (Marshal.dim (Marshal.values (snd r)))
               = map to_int (Dim (Marshal.GetValues (snd e))) /\
               (exists n,
                   length (Dim (Marshal.GetValues (snd e))) = S n /\
                   Marshal.extent_names (Marshal.dim (Marshal.values (snd r)))
                   = Some (repeat ""%string n ++ ["particle"%string])) /\
               Marshal.elements (Marshal.weights (snd r))
               = Values (Marshal.GetWeights (snd e)) /\
               exists k,
                 Marshal.elements (Marshal.values (snd r))
                 = map (fun x => if double_eqb x Samples.sentinel
                                 then NA_REAL else x)
                       (Values (Marshal.GetValues (snd e)))
                   ++ repeat (S754_zero false) k)
            Samples.monitors l.
Proof.
  eexists. split; [reflexivity|].
  apply (getMonitors_particle_arrays Samples.sentinel 64 Samples.plus_each
           Samples.dims_match Samples.monitors "filtering").
  - repeat constructor.
  - reflexivity.
Defined.
